(** * Response normalisation of knowledge-mapper: [processGeminiOutput]

    A shallow embedding of [src/services/geminiService.ts].  The function
    takes the model's raw text and the grounding metadata (chunks, supports,
    search queries) and returns the sanitised graph with its citations, or
    throws.

    Conventions of the embedding:
    - a JavaScript string is a [string]; each character stands for one
      UTF-16 code unit below 256;
    - a dynamically typed value is a [Value]: JSON-shaped data plus
      [undefined]; numbers are kept abstract behind the [JsNumber]
      interface, which offers exactly the three things the code does with
      a number (test it, print it, use it as a [Map] key next to array
      indices);
    - [JSON.parse] is a built-in of the host, not code of the repository:
      it is the [JsonParser] interface, [None] standing for a
      [SyntaxError];
    - a JavaScript [Map] is an association list in insertion order, a
      [Set] queried only through [has] is the list of its members;
    - code that can throw returns an [Outcome].

    The consumer of the summary and the supports, [renderSummary] of
    [src/unnamed/part_004], is embedded in the module [SourcePanel]. *)

From Stdlib Require Import String Ascii List Bool Arith Lia ZArith Sorted.
From Stdlib Require Import DecimalString.
Import ListNotations.
Open Scope string_scope.
Open Scope list_scope.

(** ** Strings *)

(** The white space of [\s] and of [String.prototype.trim], among the code
    units below 256: TAB, LF, VT, FF, CR, SPACE and NBSP. *)
Definition is_space (c : ascii) : bool :=
  let n := nat_of_ascii c in
  ((9 <=? n)%nat && (n <=? 13)%nat) || (n =? 32)%nat || (n =? 160)%nat.

Fixpoint trimStart (s : string) : string :=
  match s with
  | String c s' => if is_space c then trimStart s' else s
  | EmptyString => EmptyString
  end.

Fixpoint trimEnd (s : string) : string :=
  match s with
  | String c s' =>
      match trimEnd s' with
      | EmptyString => if is_space c then EmptyString else String c EmptyString
      | t => String c t
      end
  | EmptyString => EmptyString
  end.

Definition trim (s : string) : string := trimEnd (trimStart s).

(** [s.indexOf(c)] and [s.lastIndexOf(c)]; [None] is the [-1] of JavaScript. *)
Fixpoint indexOf (c : ascii) (s : string) : option nat :=
  match s with
  | EmptyString => None
  | String x s' => if Ascii.eqb x c then Some 0 else option_map S (indexOf c s')
  end.

Fixpoint lastIndexOf (c : ascii) (s : string) : option nat :=
  match s with
  | EmptyString => None
  | String x s' =>
      match lastIndexOf c s' with
      | Some i => Some (S i)
      | None => if Ascii.eqb x c then Some 0 else None
      end
  end.

(** [s.substring(n)]. *)
Fixpoint drop (n : nat) (s : string) : string :=
  match n, s with
  | S n', String _ s' => drop n' s'
  | _, _ => s
  end.

(** [s.substring(a, b)] for [a <= b]. *)
Definition js_substring (a b : nat) (s : string) : string :=
  substring a (b - a) s.

(** [s.endsWith(c)] and [s.slice(0, -1)]. *)
Fixpoint endsWith (c : ascii) (s : string) : bool :=
  match s with
  | EmptyString => false
  | String x EmptyString => Ascii.eqb x c
  | String _ s' => endsWith c s'
  end.

Fixpoint dropLast (s : string) : string :=
  match s with
  | EmptyString => EmptyString
  | String _ EmptyString => EmptyString
  | String x s' => String x (dropLast s')
  end.

(** [s.includes(p)]; used to state where a fence may not occur. *)
Fixpoint includes (p s : string) : bool :=
  prefix p s ||
  match s with
  | EmptyString => false
  | String _ s' => includes p s'
  end.

Fixpoint all_space (s : string) : bool :=
  match s with
  | EmptyString => true
  | String c s' => is_space c && all_space s'
  end.

Definition newline : string := String (ascii_of_nat 10) EmptyString.

(** ** Exceptions *)

Inductive JsError : Type :=
| TypeError (message : string)
| Error (message : string).

Inductive Outcome (A : Type) : Type :=
| Ok (a : A)
| Throw (e : JsError).

Arguments Ok {A} a.
Arguments Throw {A} e.

Definition bind {A B : Type} (m : Outcome A) (k : A -> Outcome B) : Outcome B :=
  match m with
  | Ok a => k a
  | Throw e => Throw e
  end.

Notation "'let*' x ':=' m 'in' k" := (bind m (fun x => k))
  (at level 10, x pattern, m at level 100, k at level 200).

(** [for (const x of l)] with a body that may throw. *)
Fixpoint foldM {A B : Type} (f : A -> B -> Outcome A) (l : list B) (a : A) : Outcome A :=
  match l with
  | [] => Ok a
  | x :: l' => let* a' := f a x in foldM f l' a'
  end.

(** [l.forEach((x, index) => ...)]. *)
Fixpoint forEachIndexed {A B : Type} (f : A -> nat -> B -> Outcome A)
    (l : list B) (index : nat) (a : A) : Outcome A :=
  match l with
  | [] => Ok a
  | x :: l' => let* a' := f a index x in forEachIndexed f l' (S index) a'
  end.

Fixpoint mapM {A B : Type} (f : A -> Outcome B) (l : list A) : Outcome (list B) :=
  match l with
  | [] => Ok []
  | x :: l' => let* y := f x in let* ys := mapM f l' in Ok (y :: ys)
  end.

(** ** Insertion-ordered maps

    [Map.prototype.set] on a key that is present replaces the value and
    keeps the position; on a new key it appends. *)
Section InsertionOrderedMap.
Context {K V : Type} (eqb : K -> K -> bool).

Fixpoint Map_get (k : K) (m : list (K * V)) : option V :=
  match m with
  | [] => None
  | (k', v) :: m' => if eqb k' k then Some v else Map_get k m'
  end.

Fixpoint Map_set (k : K) (v : V) (m : list (K * V)) : list (K * V) :=
  match m with
  | [] => [(k, v)]
  | (k', v') :: m' =>
      if eqb k' k then (k', v) :: m' else (k', v') :: Map_set k v m'
  end.

Definition Map_values (m : list (K * V)) : list V := map snd m.
Definition Map_keys (m : list (K * V)) : list K := map fst m.
End InsertionOrderedMap.

(** ** The two fence patterns

    [/```json\s*([\s\S]*?)\s*```/] and [/```\s*([\s\S]*?)\s*```/] as a
    backtracking matcher in continuation-passing style: each piece of the
    pattern takes the matcher [k] of what follows it and tries its own
    alternatives in the order of the regular-expression engine. *)
Section Regex.
Context {A : Type}.

(** A literal piece. *)
Definition lit (p : string) (k : string -> option A) (s : string) : option A :=
  if prefix p s then k (drop (String.length p) s) else None.

(** Greedy [\s*]: the longest run of white space first, then shorter ones. *)
Fixpoint ws_star (k : string -> option A) (s : string) : option A :=
  match s with
  | String c s' =>
      if is_space c then
        match ws_star k s' with
        | Some r => Some r
        | None => k s
        end
      else k s
  | EmptyString => k s
  end.

(** The lazy group [([\s\S]*?)]: the shortest capture first. *)
Fixpoint any_lazy (k : string -> option A) (s : string) : option (string * A) :=
  match k s with
  | Some r => Some (EmptyString, r)
  | None =>
      match s with
      | String c s' =>
          match any_lazy k s' with
          | Some (cap, r) => Some (String c cap, r)
          | None => None
          end
      | EmptyString => None
      end
  end.
End Regex.

(** The pattern anchored at the head of [s]; the result is group 1. *)
Definition fence (opener : string) (s : string) : option string :=
  option_map fst
    (lit opener (ws_star (any_lazy (ws_star (lit "```" (fun _ => Some tt))))) s).

(** Leftmost match: [Some (index, group 1)], or [None] for [null]. *)
Fixpoint search (re : string -> option string) (s : string) (index : nat)
  : option (nat * string) :=
  match re s with
  | Some cap => Some (index, cap)
  | None =>
      match s with
      | String _ s' => search re s' (S index)
      | EmptyString => None
      end
  end.

Definition String_match (re : string -> option string) (text : string)
  : option (nat * string) :=
  search re text 0.

(** ** Values *)

(** What the pipeline asks of a JavaScript number. *)
Class JsNumber (Num : Type) : Type := {
  (** [ToBoolean]: false on [0], [-0] and [NaN]. *)
  num_truthy : Num -> bool;
  (** [String(n)]. *)
  num_toString : Num -> string;
  (** The array index the number is [SameValueZero]-equal to, if any. *)
  num_index : Num -> option nat
}.

#[warnings="-register-all"]
Inductive Value {Num : Type} : Type :=
| VUndefined
| VNull
| VBool (b : bool)
| VNum (n : Num)
| VStr (s : string)
| VArr (elements : list Value)
| VObj (fields : list (string * Value)).

Arguments Value Num : clear implicits.

(** The host's [JSON.parse]; [None] is a [SyntaxError]. *)
Class JsonParser (Num : Type) : Type := {
  JSON_parse : string -> option (Value Num)
}.

Section Model.
Context {Num : Type} `{JsNumber Num} `{JsonParser Num}.

#[local] Abbreviation Value := (Value Num).

(** [ToBoolean]. *)
Definition truthy (v : Value) : bool :=
  match v with
  | VUndefined | VNull => false
  | VBool b => b
  | VNum n => num_truthy n
  | VStr s => negb (s =? "")
  | VArr _ | VObj _ => true
  end.

Definition isArray (v : Value) : bool :=
  match v with
  | VArr _ => true
  | _ => false
  end.

(** [v === s] for a string [s]; also [SameValueZero], the equality of
    [Set.prototype.has], when one side is a string. *)
Definition is_str (v : Value) (s : string) : bool :=
  match v with
  | VStr s' => s' =? s
  | _ => false
  end.

Definition has_key (k : string) (fields : list (string * Value)) : bool :=
  match Map_get String.eqb k fields with
  | Some _ => true
  | None => false
  end.

(** [v.k] on a receiver that is neither [null] nor [undefined], for the
    names the pipeline reads (web, uri, title, groundingChunkIndices,
    nodes, edges, id, source, target): an own property of an object, and
    [undefined] on anything else, since no prototype defines them. *)
Definition prop_of (v : Value) (k : string) : Value :=
  match v with
  | VObj fields =>
      match Map_get String.eqb k fields with
      | Some x => x
      | None => VUndefined
      end
  | _ => VUndefined
  end.

(** [v.k] on any receiver. *)
Definition get_prop (v : Value) (k : string) : Outcome Value :=
  match v with
  | VUndefined => Throw (TypeError "Cannot read properties of undefined")
  | VNull => Throw (TypeError "Cannot read properties of null")
  | _ => Ok (prop_of v k)
  end.

(** [String(v)].  An array prints its elements joined by commas, [null]
    and [undefined] elements as nothing.  An object prints through
    [Object.prototype.toString] unless it has an own [toString] property,
    which in data is never callable: then the conversion throws. *)
Fixpoint js_String (v : Value) : Outcome string :=
  match v with
  | VUndefined => Ok "undefined"
  | VNull => Ok "null"
  | VBool true => Ok "true"
  | VBool false => Ok "false"
  | VNum n => Ok (num_toString n)
  | VStr s => Ok s
  | VArr elements =>
      (fix join (l : list Value) : Outcome string :=
         match l with
         | [] => Ok ""
         | x :: l' =>
             let* sx := match x with
                        | VUndefined | VNull => Ok ""
                        | _ => js_String x
                        end in
             match l' with
             | [] => Ok sx
             | _ => let* sl := join l' in Ok (sx ++ "," ++ sl)%string
             end
         end) elements
  | VObj fields =>
      if has_key "toString" fields
      then Throw (TypeError "Cannot convert object to primitive value")
      else Ok "[object Object]"
  end.

(** The property name of an array index. *)
Definition index_key (i : nat) : string := NilEmpty.string_of_uint (Nat.to_uint i).

Fixpoint indexed {A : Type} (f : A -> Value) (l : list A) (i : nat) : list (string * Value) :=
  match l with
  | [] => []
  | x :: l' => (index_key i, f x) :: indexed f l' (S i)
  end.

(** The own enumerable properties copied by [{...v}]. *)
Definition spread (v : Value) : list (string * Value) :=
  match v with
  | VObj fields => fields
  | VArr elements => indexed (fun x => x) elements 0
  | VStr s => indexed (fun c => VStr (String c "")) (list_ascii_of_string s) 0
  | _ => []
  end.

(** ** The result record *)

Record Source : Type := {
  title : Value;
  uri : string;
  citationCount : nat
}.

Record GraphData : Type := {
  nodes : list Value;
  edges : list Value
}.

Record GeminiResponse : Type := {
  graphData : GraphData;
  sources : list Source;
  searchQueries : list string;
  summary : string;
  groundingSupports : list Value
}.

Definition SourceMap : Type := list (string * Source).
Definition IndexMap : Type := list (nat * string).

(** ** 1. Sources from the grounding chunks *)

Definition placeholder : string := "Unknown Source".

(** [uri.endsWith('/') ? uri.slice(0, -1) : uri]. *)
Definition normalizeUri (u : string) : string :=
  if endsWith "/" u then dropLast u else u.

(** The body of [groundingChunks.forEach((chunk, index) => ...)]. *)
Definition chunkStep (st : SourceMap * IndexMap) (index : nat) (chunk : Value)
  : Outcome (SourceMap * IndexMap) :=
  let (sourceMap, chunkIndexToUriMap) := st in
  if truthy chunk && truthy (prop_of chunk "web") then
    let webUri := prop_of (prop_of chunk "web") "uri" in
    let webTitle := prop_of (prop_of chunk "web") "title" in
    if truthy webUri then
      match webUri with
      | VStr u =>
          let normalizedUri := normalizeUri u in
          let indexMap := Map_set Nat.eqb index normalizedUri chunkIndexToUriMap in
          let entry := {| title := if truthy webTitle then webTitle else VStr placeholder;
                          uri := u;
                          citationCount := 0 |} in
          match Map_get String.eqb normalizedUri sourceMap with
          | None => Ok (Map_set String.eqb normalizedUri entry sourceMap, indexMap)
          | Some existing =>
              if is_str (title existing) placeholder && truthy webTitle
              then Ok (Map_set String.eqb normalizedUri entry sourceMap, indexMap)
              else Ok (sourceMap, indexMap)
          end
      | _ => Throw (TypeError "uri.endsWith is not a function")
      end
    else Ok st
  else Ok st.

Definition extractFrom (chunks : list Value) (index : nat) (st : SourceMap * IndexMap)
  : Outcome (SourceMap * IndexMap) :=
  forEachIndexed chunkStep chunks index st.

Definition extractSources (groundingChunks : Value) : Outcome (SourceMap * IndexMap) :=
  match groundingChunks with
  | VArr chunks => extractFrom chunks 0 ([], [])
  | _ => Ok ([], [])
  end.

(** ** 2. Citation counts from the grounding supports *)

(** The body of [support.groundingChunkIndices.forEach(chunkIndex => ...)]. *)
Definition citeStep (chunkIndexToUriMap : IndexMap) (sourceMap : SourceMap)
    (chunkIndex : Value) : SourceMap :=
  match chunkIndex with
  | VNum n =>
      match num_index n with
      | Some i =>
          match Map_get Nat.eqb i chunkIndexToUriMap with
          | Some u =>
              if negb (u =? "") then
                match Map_get String.eqb u sourceMap with
                | Some source =>
                    Map_set String.eqb u
                      {| title := title source;
                         uri := uri source;
                         citationCount := S (citationCount source) |} sourceMap
                | None => sourceMap
                end
              else sourceMap
          | None => sourceMap
          end
      | None => sourceMap
      end
  | _ => sourceMap
  end.

(** The body of [groundingSupports.forEach(support => ...)]. *)
Definition supportStep (chunkIndexToUriMap : IndexMap) (st : SourceMap * list Value)
    (support : Value) : Outcome (SourceMap * list Value) :=
  let (sourceMap, cleanSupports) := st in
  let cleanSupports' := cleanSupports ++ [support] in
  let* indices := get_prop support "groundingChunkIndices" in
  if truthy indices then
    match indices with
    | VArr l => Ok (fold_left (citeStep chunkIndexToUriMap) l sourceMap, cleanSupports')
    | _ => Throw (TypeError "support.groundingChunkIndices.forEach is not a function")
    end
  else Ok (sourceMap, cleanSupports').

Definition linkSupports (chunkIndexToUriMap : IndexMap) (sourceMap : SourceMap)
    (groundingSupports : Value) : Outcome (SourceMap * list Value) :=
  match groundingSupports with
  | VArr supports => foldM (supportStep chunkIndexToUriMap) supports (sourceMap, [])
  | _ => Ok (sourceMap, [])
  end.

(** ** 3. The summary and the payload candidate *)

(** Returns [(summary, cleanText)]. *)
Definition isolatePayload (text : string) : string * string :=
  let jsonBlockMatch :=
    match String_match (fence "```json") text with
    | Some m => Some m
    | None => String_match (fence "```") text
    end in
  match jsonBlockMatch with
  | Some (index, group1) => (trim (js_substring 0 index text), group1)
  | None =>
      match indexOf "{" text with
      | Some (S i) => (trim (js_substring 0 (S i) text), drop (S i) text)
      | _ => ("", trim text)
      end
  end.

(** ** 4. Parsing *)

(** The span from the first [{] to the last [}], when there is one. *)
Definition narrowCandidate (cleanText : string) : string :=
  match indexOf "{" cleanText, lastIndexOf "}" cleanText with
  | Some firstBrace, Some lastBrace =>
      if (firstBrace <? lastBrace)%nat
      then js_substring firstBrace (lastBrace + 1) cleanText
      else cleanText
  | _, _ => cleanText
  end.

(** ** 5. Integrity of the graph *)

(** The body of [graphData.nodes.forEach(node => ...)]. *)
Definition nodeStep (uniqueNodes : list (string * Value)) (node : Value)
  : Outcome (list (string * Value)) :=
  if truthy node && truthy (prop_of node "id") then
    let* key := js_String (prop_of node "id") in
    Ok (Map_set String.eqb key node uniqueNodes)
  else Ok uniqueNodes.

Definition dedupNodes (rawNodes : list Value) : Outcome (list (string * Value)) :=
  foldM nodeStep rawNodes [].

(** [nodeIds.has(s)] for a string [s]. *)
Definition Set_has (members : list Value) (s : string) : bool :=
  existsb (fun v => is_str v s) members.

(** [{...edge, source: sourceId, target: targetId}]. *)
Definition rewriteEdge (edge : Value) (sourceId targetId : string) : Value :=
  VObj (Map_set String.eqb "target" (VStr targetId)
          (Map_set String.eqb "source" (VStr sourceId) (spread edge))).

(** The body of [for (const edge of graphData.edges)]. *)
Definition edgeStep (nodeIds : list Value) (cleanedEdges : list Value) (edge : Value)
  : Outcome (list Value) :=
  let* rawSource := get_prop edge "source" in
  let* sourceId := js_String rawSource in
  let* rawTarget := get_prop edge "target" in
  let* targetId := js_String rawTarget in
  if Set_has nodeIds sourceId && Set_has nodeIds targetId
  then Ok (cleanedEdges ++ [rewriteEdge edge sourceId targetId])
  else Ok cleanedEdges.

Definition filterEdges (nodeIds : list Value) (rawEdges : list Value) : Outcome (list Value) :=
  foldM (edgeStep nodeIds) rawEdges [].

Definition sanitizeGraph (rawNodes rawEdges : list Value) : Outcome GraphData :=
  let* uniqueNodes := dedupNodes rawNodes in
  let cleanedNodes := Map_values uniqueNodes in
  let* nodeIds := mapM (fun n => get_prop n "id") cleanedNodes in
  let* cleanedEdges := filterEdges nodeIds rawEdges in
  Ok {| nodes := cleanedNodes; edges := cleanedEdges |}.

(** ** The pipeline *)

Definition parseFailure : JsError :=
  Error "Failed to parse knowledge graph data from AI response.".

(** The parameters default to [[]] when [undefined]; an [undefined] list
    of chunks or supports is not an array and is passed over, which gives
    the same.  Inside the [try] block only [JSON.parse] can throw: the
    property reads that follow it are on a value just tested truthy.  The
    empty-graph result is the one of both early [return]s. *)
Definition processGeminiOutput (text : string) (groundingChunks groundingSupports : Value)
    (queries : list string) : Outcome GeminiResponse :=
  let* extracted := extractSources groundingChunks in
  let* linked := linkSupports (snd extracted) (fst extracted) groundingSupports in
  let cleanSupports := snd linked in
  let srcs := Map_values (fst linked) in
  let (preamble, cleanText) := isolatePayload text in
  let sourcesOnly :=
    {| graphData := {| nodes := []; edges := [] |};
       sources := srcs;
       searchQueries := queries;
       summary := preamble;
       groundingSupports := cleanSupports |} in
  match JSON_parse (narrowCandidate cleanText) with
  | Some parsed =>
      if negb (truthy parsed)
         || negb (isArray (prop_of parsed "nodes"))
         || negb (isArray (prop_of parsed "edges"))
      then Ok sourcesOnly
      else
        match prop_of parsed "nodes", prop_of parsed "edges" with
        | VArr rawNodes, VArr rawEdges =>
            let* cleaned := sanitizeGraph rawNodes rawEdges in
            Ok {| graphData := cleaned;
                  sources := srcs;
                  searchQueries := queries;
                  summary := preamble;
                  groundingSupports := cleanSupports |}
        | _, _ => Ok sourcesOnly
        end
  | None =>
      if (0 <? List.length srcs)%nat then Ok sourcesOnly else Throw parseFailure
  end.

(** ** Vocabulary of the statements *)

(** A list without its repetitions, each element at its first occurrence. *)
Fixpoint firstOccurrences (l : list string) : list string :=
  match l with
  | [] => []
  | x :: l' => x :: filter (fun y => negb (y =? x)) (firstOccurrences l')
  end.

(** The non-empty web uri a chunk carries, if it carries one. *)
Definition webUriOf (chunk : Value) : option string :=
  if truthy chunk && truthy (prop_of chunk "web") then
    match prop_of (prop_of chunk "web") "uri" with
    | VStr u => if u =? "" then None else Some u
    | _ => None
    end
  else None.

Definition webTitleOf (chunk : Value) : Value :=
  prop_of (prop_of chunk "web") "title".

(** The dedup keys of a chunk list, in input order. *)
Definition chunkKeys (chunks : list Value) : list string :=
  flat_map (fun c => match webUriOf c with
                     | Some u => [normalizeUri u]
                     | None => []
                     end) chunks.

(** The source a chunk with uri [u] is stored as. *)
Definition sourceOf (u : string) (chunk : Value) : Source :=
  {| title := if truthy (webTitleOf chunk) then webTitleOf chunk else VStr placeholder;
     uri := u;
     citationCount := 0 |}.

(** The key under which a node is stored, if it is stored. *)
Definition nodeKey (node : Value) : option string :=
  if truthy node && truthy (prop_of node "id") then
    match js_String (prop_of node "id") with
    | Ok k => Some k
    | Throw _ => None
    end
  else None.

(** The coerced endpoints of an edge. *)
Definition edgeEndpoints (edge : Value) : Outcome (string * string) :=
  let* rawSource := get_prop edge "source" in
  let* sourceId := js_String rawSource in
  let* rawTarget := get_prop edge "target" in
  let* targetId := js_String rawTarget in
  Ok (sourceId, targetId).

(** The raw ids of a node list. *)
Definition rawIds (l : list Value) : list Value :=
  map (fun n => prop_of n "id") l.

Definition nodeKeys (rawNodes : list Value) : list string :=
  flat_map (fun n => match nodeKey n with
                     | Some k => [k]
                     | None => []
                     end) rawNodes.

Definition keyIs (k : string) (node : Value) : bool :=
  match nodeKey node with
  | Some k' => k' =? k
  | None => false
  end.

Definition firstWithKey (k : string) (rawNodes : list Value) : option Value :=
  find (keyIs k) rawNodes.

Definition lastWithKey (k : string) (rawNodes : list Value) : option Value :=
  find (keyIs k) (rev rawNodes).

(** Deduplication in the spec's words: one node per coerced id, in the
    order of first occurrence, the first node with that id winning. *)
Definition dedupFirstWins (rawNodes : list Value) : list (option Value) :=
  map (fun k => firstWithKey k rawNodes) (firstOccurrences (nodeKeys rawNodes)).

(** The same with the last node with that id winning. *)
Definition dedupLastWins (rawNodes : list Value) : list (option Value) :=
  map (fun k => lastWithKey k rawNodes) (firstOccurrences (nodeKeys rawNodes)).

(** The edges that pass the filter, rewritten. *)
Definition keptEdges (nodeIds : list Value) (rawEdges : list Value) : list Value :=
  flat_map (fun e => match edgeEndpoints e with
                     | Ok (sourceId, targetId) =>
                         if Set_has nodeIds sourceId && Set_has nodeIds targetId
                         then [rewriteEdge e sourceId targetId]
                         else []
                     | Throw _ => []
                     end) rawEdges.
End Model.

Arguments Source Num : clear implicits.
Arguments GraphData Num : clear implicits.
Arguments GeminiResponse Num : clear implicits.

(** ** Further vocabulary: citations, well-formed inputs *)
Section ModelVocabulary.
Context {Num : Type} `{JsNumber Num} `{JsonParser Num}.

#[local] Abbreviation Value := (Value Num).
#[local] Abbreviation Source := (Source Num).

(** The key a chunk index stands for in the loop over the supports: the
    index is a number, the map has it, and the stored uri is not empty. *)
Definition citedKey (chunkIndexToUriMap : IndexMap) (chunkIndex : Value) : option string :=
  match chunkIndex with
  | VNum n =>
      match num_index n with
      | Some i =>
          match Map_get Nat.eqb i chunkIndexToUriMap with
          | Some u => if u =? "" then None else Some u
          | None => None
          end
      | None => None
      end
  | _ => None
  end.

(** The indices a support cites. *)
Definition indicesOf (support : Value) : list Value :=
  match prop_of support "groundingChunkIndices" with
  | VArr l => l
  | _ => []
  end.

Definition hits (chunkIndexToUriMap : IndexMap) (k : string) (chunkIndex : Value) : bool :=
  match citedKey chunkIndexToUriMap chunkIndex with
  | Some u => u =? k
  | None => false
  end.

(** How often the supports cite the key [k]. *)
Definition citations (chunkIndexToUriMap : IndexMap) (k : string) (supports : list Value)
  : nat :=
  List.length (filter (hits chunkIndexToUriMap k) (flat_map indicesOf supports)).

(** The same read off the chunk list: index [i] stands for the key of the
    [i]-th chunk. *)
Definition citedChunkKey (chunks : list Value) (chunkIndex : Value) : option string :=
  match chunkIndex with
  | VNum n =>
      match num_index n with
      | Some i =>
          match nth_error chunks i with
          | Some c =>
              match webUriOf c with
              | Some u => if normalizeUri u =? "" then None else Some (normalizeUri u)
              | None => None
              end
          | None => None
          end
      | None => None
      end
  | _ => None
  end.

Definition chunkCitations (chunks : list Value) (k : string) (supports : list Value) : nat :=
  List.length
    (filter (fun chunkIndex => match citedChunkKey chunks chunkIndex with
                               | Some u => u =? k
                               | None => false
                               end)
            (flat_map indicesOf supports)).

Definition cited (n : nat) (s : Source) : Source :=
  {| title := title s; uri := uri s; citationCount := citationCount s + n |}.

(** A chunk the first loop accepts: when it has a truthy web uri, the uri
    is a string. *)
Definition chunkWellFormed (chunk : Value) : bool :=
  if truthy chunk && truthy (prop_of chunk "web") then
    match prop_of (prop_of chunk "web") "uri" with
    | VStr _ => true
    | other => negb (truthy other)
    end
  else true.

(** A support the second loop accepts: neither [null] nor [undefined], and
    its [groundingChunkIndices], when truthy, is an array. *)
Definition supportWellFormed (support : Value) : bool :=
  match support with
  | VUndefined | VNull => false
  | _ =>
      match prop_of support "groundingChunkIndices" with
      | VArr _ => true
      | other => negb (truthy other)
      end
  end.

Definition isOk {A : Type} (o : Outcome A) : bool :=
  match o with
  | Ok _ => true
  | Throw _ => false
  end.

(** A node whose key can be computed, or that is passed over. *)
Definition nodeCoercible (node : Value) : bool :=
  if truthy node && truthy (prop_of node "id")
  then isOk (js_String (prop_of node "id"))
  else true.

(** An edge whose endpoints can be read and coerced. *)
Definition edgeCoercible (edge : Value) : bool := isOk (edgeEndpoints edge).

(** The test of the edge filter. *)
Definition edgePasses (nodeIds : list Value) (edge : Value) : bool :=
  match edgeEndpoints edge with
  | Ok (sourceId, targetId) => Set_has nodeIds sourceId && Set_has nodeIds targetId
  | Throw _ => false
  end.
End ModelVocabulary.

(** ** A reference host

    For running the pipeline on concrete inputs: numbers are integers of
    magnitude at most 2^53, where [String] prints the decimal numeral, and
    the parser reads the JSON texts whose numbers are such integers and
    whose strings use no [\u] escape. *)

Definition Z_toString (z : Z) : string :=
  match z with
  | Z0 => "0"
  | _ => NilEmpty.string_of_int (Z.to_int z)
  end.

#[export] Instance Z_JsNumber : JsNumber Z := {
  num_truthy z := negb (z =? 0)%Z;
  num_toString := Z_toString;
  num_index z := if (0 <=? z)%Z then Some (Z.to_nat z) else None
}.

Definition dquote : ascii := ascii_of_nat 34.
Definition backslash : ascii := ascii_of_nat 92.

Definition is_json_ws (c : ascii) : bool :=
  let n := nat_of_ascii c in
  ((n =? 32) || (n =? 9) || (n =? 10) || (n =? 13))%nat.

Fixpoint skip_json_ws (s : string) : string :=
  match s with
  | String c s' => if is_json_ws c then skip_json_ws s' else s
  | EmptyString => EmptyString
  end.

Definition is_digit (c : ascii) : bool :=
  let n := nat_of_ascii c in ((48 <=? n) && (n <=? 57))%nat.

(** The characters of a string literal after its opening quote. *)
Fixpoint parse_chars (s : string) : option (string * string) :=
  match s with
  | EmptyString => None
  | String c s' =>
      if Ascii.eqb c dquote then Some (EmptyString, s')
      else if Ascii.eqb c backslash then
        match s' with
        | String e s'' =>
            let unescaped :=
              if Ascii.eqb e dquote then Some dquote
              else if Ascii.eqb e backslash then Some backslash
              else if Ascii.eqb e "/" then Some "/"%char
              else if Ascii.eqb e "b" then Some (ascii_of_nat 8)
              else if Ascii.eqb e "f" then Some (ascii_of_nat 12)
              else if Ascii.eqb e "n" then Some (ascii_of_nat 10)
              else if Ascii.eqb e "r" then Some (ascii_of_nat 13)
              else if Ascii.eqb e "t" then Some (ascii_of_nat 9)
              else None in
            match unescaped, parse_chars s'' with
            | Some x, Some (str, rest) => Some (String x str, rest)
            | _, _ => None
            end
        | EmptyString => None
        end
      else if (nat_of_ascii c <? 32)%nat then None
      else
        match parse_chars s' with
        | Some (str, rest) => Some (String c str, rest)
        | None => None
        end
  end.

Fixpoint take_digits (s : string) (acc : Z) : Z * string :=
  match s with
  | String c s' =>
      if is_digit c
      then take_digits s' (10 * acc + Z.of_nat (nat_of_ascii c - 48))%Z
      else (acc, s)
  | EmptyString => (acc, s)
  end.

(** An integer literal: digits without a leading zero, no fraction, no
    exponent. *)
Definition parse_digits (s : string) : option (Z * string) :=
  match s with
  | String c s' =>
      if is_digit c then
        let (z, rest) := take_digits s 0%Z in
        let leading_zero :=
          Ascii.eqb c "0" && match s' with String d _ => is_digit d | EmptyString => false end in
        let continues :=
          match rest with
          | String d _ => Ascii.eqb d "." || Ascii.eqb d "e" || Ascii.eqb d "E"
          | EmptyString => false
          end in
        if leading_zero || continues || (2 ^ 53 <? z)%Z then None else Some (z, rest)
      else None
  | EmptyString => None
  end.

Fixpoint parse_value (fuel : nat) (s : string) : option (Value Z * string) :=
  match fuel with
  | 0 => None
  | S fuel' =>
      match skip_json_ws s with
      | EmptyString => None
      | String c r =>
          if Ascii.eqb c "{" then
            match skip_json_ws r with
            | String d r' =>
                if Ascii.eqb d "}" then Some (VObj [], r') else parse_members fuel' [] r
            | EmptyString => None
            end
          else if Ascii.eqb c "[" then
            match skip_json_ws r with
            | String d r' =>
                if Ascii.eqb d "]" then Some (VArr [], r') else parse_elements fuel' [] r
            | EmptyString => None
            end
          else if Ascii.eqb c dquote then
            match parse_chars r with
            | Some (str, rest) => Some (VStr str, rest)
            | None => None
            end
          else if prefix "true" (String c r) then Some (VBool true, drop 4 (String c r))
          else if prefix "false" (String c r) then Some (VBool false, drop 5 (String c r))
          else if prefix "null" (String c r) then Some (VNull, drop 4 (String c r))
          else if Ascii.eqb c "-" then
            match parse_digits r with
            | Some (z, rest) => Some (VNum (- z)%Z, rest)
            | None => None
            end
          else
            match parse_digits (String c r) with
            | Some (z, rest) => Some (VNum z, rest)
            | None => None
            end
      end
  end
with parse_elements (fuel : nat) (acc : list (Value Z)) (s : string)
  : option (Value Z * string) :=
  match fuel with
  | 0 => None
  | S fuel' =>
      match parse_value fuel' s with
      | Some (v, r) =>
          match skip_json_ws r with
          | String c r' =>
              if Ascii.eqb c "," then parse_elements fuel' (acc ++ [v]) r'
              else if Ascii.eqb c "]" then Some (VArr (acc ++ [v]), r')
              else None
          | EmptyString => None
          end
      | None => None
      end
  end
with parse_members (fuel : nat) (acc : list (string * Value Z)) (s : string)
  : option (Value Z * string) :=
  match fuel with
  | 0 => None
  | S fuel' =>
      match skip_json_ws s with
      | String q r =>
          if Ascii.eqb q dquote then
            match parse_chars r with
            | Some (key, r1) =>
                match skip_json_ws r1 with
                | String c r2 =>
                    if Ascii.eqb c ":" then
                      match parse_value fuel' r2 with
                      | Some (v, r3) =>
                          let acc' := Map_set String.eqb key v acc in
                          match skip_json_ws r3 with
                          | String d r4 =>
                              if Ascii.eqb d "," then parse_members fuel' acc' r4
                              else if Ascii.eqb d "}" then Some (VObj acc', r4)
                              else None
                          | EmptyString => None
                          end
                      | None => None
                      end
                    else None
                | EmptyString => None
                end
            | None => None
            end
          else None
      | EmptyString => None
      end
  end.

Definition parse_json (s : string) : option (Value Z) :=
  match parse_value (2 * String.length s + 2) s with
  | Some (v, rest) =>
      match skip_json_ws rest with
      | EmptyString => Some v
      | _ => None
      end
  | None => None
  end.

#[export] Instance Z_JsonParser : JsonParser Z := {
  JSON_parse := parse_json
}.

(** ** Inputs of the repository's tests

    [src/tests/geminiService.test.ts] builds its inputs with
    [JSON.stringify]; [stringify] does the same for values whose strings
    need no escaping. *)

Definition quoted (s : string) : string :=
  (String dquote s ++ String dquote EmptyString)%string.

Fixpoint stringify (v : Value Z) : string :=
  match v with
  | VUndefined | VNull => "null"
  | VBool true => "true"
  | VBool false => "false"
  | VNum z => Z_toString z
  | VStr s => quoted s
  | VArr l => "[" ++ String.concat "," (map stringify l) ++ "]"
  | VObj fs =>
      "{" ++ String.concat ","
               (map (fun kv => quoted (fst kv) ++ ":" ++ stringify (snd kv)) fs) ++ "}"
  end%string.

Definition graphText (ns es : list (Value Z)) : string :=
  stringify (VObj [("nodes", VArr ns); ("edges", VArr es)]).

Definition testNode (id : Value Z) (label : string) : Value Z :=
  VObj [("id", id); ("label", VStr label); ("type", VStr "concept");
        ("description", VStr "D"); ("val", VNum 1%Z)].

Definition testEdge (source target : Value Z) (relation : string) : Value Z :=
  VObj [("source", source); ("target", target); ("relation", VStr relation)].

Definition webChunk (u : string) (t : option string) : Value Z :=
  VObj [("web", VObj match t with
                     | Some x => [("uri", VStr u); ("title", VStr x)]
                     | None => [("uri", VStr u)]
                     end)].

Definition emptyGraph : GraphData Z := {| nodes := []; edges := [] |}.

Definition resultOf (g : GraphData Z) (srcs : list (Source Z)) : GeminiResponse Z :=
  {| graphData := g;
     sources := srcs;
     searchQueries := [];
     summary := "";
     groundingSupports := [] |}.

(** 'should deduplicate nodes with the same ID' *)
Definition nodeA : Value Z := testNode (VStr "1") "A".
Definition nodeADuplicate : Value Z := testNode (VStr "1") "A - Duplicate".
Definition duplicateNodesJson : string := graphText [nodeA; nodeADuplicate] [].

(** 'should remove edges that point to non-existent nodes and warn' *)
Definition nodeB : Value Z := testNode (VStr "2") "B".
Definition connectedEdge : Value Z := testEdge (VStr "1") (VStr "2") "connected".
Definition brokenEdge : Value Z := testEdge (VStr "1") (VStr "999") "broken".
Definition brokenEdgeJson : string := graphText [nodeA; nodeB] [connectedEdge; brokenEdge].

(** 'should throw an error for malformed JSON' *)
Definition invalidJson : string := "{ nodes: [ ... incomplete ".

(** 'should throw an error for invalid structure (missing nodes/edges arrays)' *)
Definition badStructureJson : string := stringify (VObj [("foo", VStr "bar")]).

(** 'Source Extraction Logic' *)
Definition validJson : string := graphText [] [].
Definition mockChunk : Value Z := webChunk "http://example.com" (Some "Test Source").
Definition untitledChunk : Value Z := webChunk "http://example.com" None.
Definition betterChunk : Value Z := webChunk "http://example.com" (Some "Better Title").
Definition newTitleChunk : Value Z := webChunk "http://example.com" (Some "New Title").

(** Further inputs: a first chunk whose uri ends with a slash, nodes whose
    ids are numbers, a graph with one node. *)
Definition slashChunk : Value Z := webChunk "http://example.com/" None.
Definition nodeZero : Value Z := testNode (VNum 0%Z) "Zero".
Definition nodeSeven : Value Z := testNode (VNum 7%Z) "Seven".
Definition selfEdgeSeven : Value Z := testEdge (VNum 7%Z) (VNum 7%Z) "self".
Definition oneNodeInner : string :=
  (quoted "nodes" ++ ":[" ++ stringify nodeA ++ "]," ++ quoted "edges" ++ ":[]")%string.
Definition oneNodeJson : string := ("{" ++ oneNodeInner ++ "}")%string.

(** What follows the lazy group in both fence patterns: white space and
    the closing backticks. *)
Definition closer : string -> option unit := ws_star (lit "```" (fun _ => Some tt)).

Definition isTypeError (e : JsError) : bool :=
  match e with
  | TypeError _ => true
  | Error _ => false
  end.

(** * The summary of the source panel: [renderSummary]

    [src/unnamed/part_004] shows the [summary] and the [groundingSupports]
    of a response.  The props are typed ([GroundingSupport] of
    [src/unnamed/part_001]), so a support is a record here; an index is an
    integer [Z], and a React element is the data it is built from. *)
Module SourcePanel.

Record Segment := {
  startIndex : Z;
  endIndex : Z;
  text : string
}.

Record GroundingSupport := {
  segment : Segment;
  groundingChunkIndices : list Z
}.

(** [<a href={`#source-${chunkIndex}`}>{chunkIndex + 1}</a>] *)
Record Citation := {
  href : Z;
  label : Z
}.

Inductive Element :=
| TextSpan (key : nat) (content : string)
| SegmentSpan (key : nat) (content : string) (citations : list Citation)
| TextEnd (content : string).

(** What [renderSummary] returns: [null], the paragraph holding the summary
    alone, or the paragraph holding the spans. *)
Inductive Rendered :=
| Null
| Paragraph (summary : string)
| Spans (elements : list Element).

(** [s.substring(a, b)] and [s.substring(a)]: both ends are clamped to
    [0 .. s.length] and swapped when out of order. *)
Definition clamp (n : Z) (len : nat) : nat := Nat.min (Z.to_nat n) len.

Definition substring2 (a b : Z) (s : string) : string :=
  let a' := clamp a (String.length s) in
  let b' := clamp b (String.length s) in
  js_substring (Nat.min a' b') (Nat.max a' b') s.

Definition substring1 (a : Z) (s : string) : string :=
  js_substring (clamp a (String.length s)) (String.length s) s.

(** [[...groundingSupports].sort((a, b) => a.segment.startIndex -
    b.segment.startIndex)]: the sort is stable, so supports with the same
    start keep their order. *)
Fixpoint insertByStart (x : GroundingSupport) (l : list GroundingSupport) :
    list GroundingSupport :=
  match l with
  | [] => [x]
  | y :: l' =>
      if (startIndex (segment x) <=? startIndex (segment y))%Z
      then x :: l
      else y :: insertByStart x l'
  end.

Definition sortByStart (l : list GroundingSupport) : list GroundingSupport :=
  fold_right insertByStart [] l.

Definition withinSummary (summary : string) (s : GroundingSupport) : bool :=
  (endIndex (segment s) <=? Z.of_nat (String.length summary))%Z.

Definition citationOf (chunkIndex : Z) : Citation :=
  {| href := chunkIndex; label := (chunkIndex + 1)%Z |}.

(** The body of [validSupports.forEach((support, i) => ...)], on the pair
    of [elements] and [lastIndex]. *)
Definition spanStep (summary : string) (st : list Element * Z) (i : nat)
    (support : GroundingSupport) : list Element * Z :=
  let '(elements, lastIndex) := st in
  let start := startIndex (segment support) in
  let stop := endIndex (segment support) in
  let elements :=
    if (lastIndex <? start)%Z
    then elements ++ [TextSpan i (substring2 lastIndex start summary)]
    else elements in
  (elements ++ [SegmentSpan i (substring2 start stop summary)
                            (map citationOf (groundingChunkIndices support))],
   stop).

Fixpoint spansFrom (summary : string) (l : list GroundingSupport) (i : nat)
    (st : list Element * Z) : list Element * Z :=
  match l with
  | [] => st
  | support :: l' => spansFrom summary l' (S i) (spanStep summary st i support)
  end.

Definition renderSummary (summary : option string)
    (groundingSupports : option (list GroundingSupport)) : Rendered :=
  match summary with
  | None | Some "" => Null
  | Some summary =>
      match groundingSupports with
      | None | Some [] => Paragraph summary
      | Some groundingSupports =>
          let sortedSupports := sortByStart groundingSupports in
          let validSupports := filter (withinSummary summary) sortedSupports in
          match validSupports with
          | [] => Paragraph summary
          | _ =>
              let '(elements, lastIndex) := spansFrom summary validSupports 0 ([], 0%Z) in
              Spans (if (lastIndex <? Z.of_nat (String.length summary))%Z
                     then elements ++ [TextEnd (substring1 lastIndex summary)]
                     else elements)
          end
      end
  end.

(** *** Vocabulary *)

Definition contentOf (e : Element) : string :=
  match e with
  | TextSpan _ c | SegmentSpan _ c _ | TextEnd c => c
  end.

(** The text a reader sees, citations apart. *)
Definition shownText (r : Rendered) : option string :=
  match r with
  | Null => None
  | Paragraph summary => Some summary
  | Spans elements => Some (fold_right (fun e acc => contentOf e ++ acc)%string "" elements)
  end.

(** The supports follow one another from [from] on: each starts where the
    one before ends, or later, and none ends before it starts. *)
Fixpoint chained (from : Z) (l : list GroundingSupport) : bool :=
  match l with
  | [] => true
  | s :: l' =>
      (from <=? startIndex (segment s))%Z
      && (startIndex (segment s) <=? endIndex (segment s))%Z
      && chained (endIndex (segment s)) l'
  end.

(** The order the sort establishes. *)
Definition startsBefore (x y : GroundingSupport) : Prop :=
  (startIndex (segment x) <= startIndex (segment y))%Z.

End SourcePanel.

(** ** Further inputs: supports that cite chunks, supports of the panel *)

Definition citing (indices : list Z) : Value Z :=
  VObj [("segment", VObj [("startIndex", VNum 0%Z); ("endIndex", VNum 5%Z)]);
        ("groundingChunkIndices", VArr (map VNum indices))].

Definition fourChunks : list (Value Z) :=
  [slashChunk; VNull; betterChunk; webChunk "http://other.org" None].

Definition threeSupports : list (Value Z) :=
  [citing [0; 2; 3; 7]%Z; VObj []; citing [3; 1]%Z].

Definition selfEdgeOne : Value Z := testEdge (VStr "1") (VStr "1") "self".

Definition panelSupport (a b : Z) (indices : list Z) : SourcePanel.GroundingSupport :=
  {| SourcePanel.segment :=
       {| SourcePanel.startIndex := a; SourcePanel.endIndex := b;
          SourcePanel.text := EmptyString |};
     SourcePanel.groundingChunkIndices := indices |}.

(** * Properties *)

(** ** Loops and maps *)

Lemma bind_Ok {A B : Type} (m : Outcome A) (k : A -> Outcome B) (b : B) :
  bind m k = Ok b -> exists a, m = Ok a /\ k a = Ok b.
Proof.
  destruct m as [a|e]; simpl; intros E; [exists a; auto | discriminate].
Qed.

Lemma foldM_app {A B : Type} (f : A -> B -> Outcome A) (l1 l2 : list B) (a : A) :
  foldM f (l1 ++ l2) a = bind (foldM f l1 a) (foldM f l2).
Proof.
  revert a; induction l1 as [|x l1 IH]; intros a; simpl; [reflexivity|].
  destruct (f a x) as [a'|e]; simpl; auto.
Qed.

Lemma forEachIndexed_app {A B : Type} (f : A -> nat -> B -> Outcome A)
    (l1 l2 : list B) (i : nat) (a : A) :
  forEachIndexed f (l1 ++ l2) i a =
  bind (forEachIndexed f l1 i a) (forEachIndexed f l2 (i + List.length l1)).
Proof.
  revert i a; induction l1 as [|x l1 IH]; intros i a; simpl.
  - rewrite Nat.add_0_r; reflexivity.
  - destruct (f a i x) as [a'|e]; simpl; auto.
    rewrite IH. replace (S i + List.length l1) with (i + S (List.length l1)) by lia.
    reflexivity.
Qed.

Section MapFacts.
Context {K V : Type} (eqb : K -> K -> bool).
Hypothesis eqb_spec : forall a b, reflect (a = b) (eqb a b).

Lemma Map_get_set_eq (k : K) (v : V) (m : list (K * V)) :
  Map_get eqb k (Map_set eqb k v m) = Some v.
Proof.
  induction m as [|[k' v'] m IH]; simpl.
  - destruct (eqb_spec k k); congruence.
  - destruct (eqb_spec k' k) as [E|N]; simpl.
    + destruct (eqb_spec k' k); congruence.
    + destruct (eqb_spec k' k); congruence.
Qed.

Lemma Map_get_set_neq (k k' : K) (v : V) (m : list (K * V)) :
  k <> k' -> Map_get eqb k' (Map_set eqb k v m) = Map_get eqb k' m.
Proof.
  intros N; induction m as [|[k0 v0] m IH]; simpl.
  - destruct (eqb_spec k k'); congruence.
  - destruct (eqb_spec k0 k) as [E|N0]; simpl.
    + subst k0. destruct (eqb_spec k k'); congruence.
    + destruct (eqb_spec k0 k'); auto.
Qed.

Lemma Map_get_In (k : K) (v : V) (m : list (K * V)) :
  Map_get eqb k m = Some v -> In (k, v) m.
Proof.
  induction m as [|[k' v'] m IH]; simpl; [discriminate|].
  destruct (eqb_spec k' k) as [E|N]; intros G.
  - left; congruence.
  - right; auto.
Qed.

Lemma Map_get_None (k : K) (m : list (K * V)) :
  Map_get eqb k m = None <-> ~ In k (Map_keys m).
Proof.
  induction m as [|[k' v'] m IH]; simpl; [tauto|].
  destruct (eqb_spec k' k) as [E|N].
  - split; [discriminate | intros X; exfalso; apply X; auto].
  - rewrite IH; tauto.
Qed.

Lemma In_Map_get (k : K) (v : V) (m : list (K * V)) :
  NoDup (Map_keys m) -> In (k, v) m -> Map_get eqb k m = Some v.
Proof.
  induction m as [|[k' v'] m IH]; simpl; [tauto|].
  intros ND [E|I].
  - inversion E; subst. destruct (eqb_spec k k); congruence.
  - inversion ND as [|? ? NI ND']; subst.
    destruct (eqb_spec k' k) as [E|N]; auto.
    subst k'. exfalso; apply NI. change k with (fst (k, v)). apply in_map; exact I.
Qed.

Lemma Map_keys_set (k : K) (v : V) (m : list (K * V)) :
  Map_keys (Map_set eqb k v m) =
  match Map_get eqb k m with
  | Some _ => Map_keys m
  | None => Map_keys m ++ [k]
  end.
Proof.
  induction m as [|[k' v'] m IH]; simpl; [reflexivity|].
  destruct (eqb_spec k' k) as [E|N]; simpl; [reflexivity|].
  rewrite IH. destruct (Map_get eqb k m); reflexivity.
Qed.

(** Setting a key leaves every other binding where it is. *)
Lemma Map_set_present (k : K) (v v0 : V) (m : list (K * V)) :
  Map_get eqb k m = Some v0 ->
  exists m1 m2, m = m1 ++ (k, v0) :: m2 /\ Map_set eqb k v m = m1 ++ (k, v) :: m2
                /\ ~ In k (Map_keys m1).
Proof.
  induction m as [|[k' v'] m IH]; simpl; [discriminate|].
  destruct (eqb_spec k' k) as [E|N]; intros G.
  - inversion G; subst. exists [], m. simpl. auto.
  - destruct (IH G) as (m1 & m2 & E1 & E2 & NI).
    exists ((k', v') :: m1), m2. simpl. rewrite E1 at 1. rewrite E2.
    repeat split; auto. intros [X|X]; auto.
Qed.
End MapFacts.


(** ** Strings and the fence pattern *)

Lemma append_assoc (a b c : string) : ((a ++ b) ++ c = a ++ (b ++ c))%string.
Proof.
  induction a as [|x a IH]; simpl; [reflexivity | rewrite IH; reflexivity].
Qed.

Lemma length_append (a b : string) :
  String.length (a ++ b) = String.length a + String.length b.
Proof.
  induction a as [|x a IH]; simpl; [reflexivity | rewrite IH; reflexivity].
Qed.

Lemma substring_prefix (a b : string) :
  substring 0 (String.length a) (a ++ b) = a.
Proof.
  induction a as [|x a IH]; simpl.
  - destruct b; reflexivity.
  - rewrite IH; reflexivity.
Qed.

Lemma substring_whole (a : string) : substring 0 (String.length a) a = a.
Proof.
  induction a as [|x a IH]; simpl; [reflexivity | rewrite IH; reflexivity].
Qed.

Lemma all_space_app (a b : string) :
  all_space (a ++ b) = all_space a && all_space b.
Proof.
  induction a as [|x a IH]; simpl; [reflexivity|].
  rewrite IH, andb_assoc. reflexivity.
Qed.

(** A pattern without the character [c] cannot reach across it. *)
Lemma prefix_cut (p a r : string) (c : ascii) :
  indexOf c p = None ->
  prefix p (a ++ String c r) = prefix p a.
Proof.
  revert a. induction p as [|x p IH]; intros a N.
  - destruct a; reflexivity.
  - simpl in N. destruct (Ascii.eqb_spec x c) as [E|NE]; [discriminate|].
    destruct (indexOf c p) eqn:I; [discriminate|].
    destruct a as [|y a]; simpl.
    + destruct (ascii_dec x c); [contradiction | reflexivity].
    + destruct (ascii_dec x y); [apply IH; reflexivity | reflexivity].
Qed.

Lemma includes_cons (p : string) (c : ascii) (s : string) :
  includes p (String c s) = false ->
  prefix p (String c s) = false /\ includes p s = false.
Proof.
  simpl. intros E. apply orb_false_iff in E. exact E.
Qed.

Lemma lastIndexOf_snoc (c : ascii) (s : string) :
  lastIndexOf c (s ++ String c EmptyString) = Some (String.length s).
Proof.
  induction s as [|x s IH]; simpl.
  - rewrite Ascii.eqb_refl. reflexivity.
  - rewrite IH. reflexivity.
Qed.

Section RegexFacts.
Context {A : Type}.

(** Greedy white space stops at the first character that is not one. *)
Lemma ws_star_run (k : string -> option A) (w r : string) (c : ascii) (x : A) :
  all_space w = true ->
  is_space c = false ->
  k (String c r) = Some x ->
  ws_star k (w ++ String c r) = Some x.
Proof.
  intros W C K. induction w as [|y w IH]; simpl.
  - rewrite C. exact K.
  - simpl in W. apply andb_true_iff in W. destruct W as [Y W].
    rewrite Y, (IH W). reflexivity.
Qed.

(** No closing fence starts inside a text without three backticks that is
    followed by a brace. *)
Lemma closer_fails (k : string -> option A) (b tail : string) :
  includes "```" b = false ->
  ws_star (lit "```" k) (b ++ String "}" tail) = None.
Proof.
  induction b as [|c b IH]; intros I.
  - reflexivity.
  - apply includes_cons in I. destruct I as [P I].
    assert (L : lit "```" k (String c b ++ String "}" tail) = None).
    { unfold lit. rewrite prefix_cut by reflexivity. rewrite P. reflexivity. }
    change (String c b ++ String "}" tail)%string with
      (String c (b ++ String "}" tail)) in *.
    simpl. rewrite (IH I). destruct (is_space c); exact L.
Qed.

Lemma any_lazy_head (k : string -> option A) (s : string) (x : A) :
  k s = Some x -> any_lazy k s = Some (EmptyString, x).
Proof.
  intros K. destruct s; simpl; rewrite K; reflexivity.
Qed.

Lemma any_lazy_step (k : string -> option A) (c : ascii) (s : string) :
  k (String c s) = None ->
  any_lazy k (String c s) =
  match any_lazy k s with
  | Some (cap, r) => Some (String c cap, r)
  | None => None
  end.
Proof.
  intros K. simpl. rewrite K. reflexivity.
Qed.

(** The lazy group runs to the end of such a text. *)
Lemma any_lazy_body (k : string -> option A) (b tail : string) (x : A) :
  includes "```" b = false ->
  ws_star (lit "```" k) tail = Some x ->
  any_lazy (ws_star (lit "```" k)) (b ++ String "}" tail) =
  Some ((b ++ String "}" EmptyString)%string, x).
Proof.
  intros I K. induction b as [|c b IH].
  - change ("" ++ String "}" tail)%string with (String "}" tail).
    rewrite any_lazy_step by reflexivity.
    rewrite (any_lazy_head _ _ _ K). reflexivity.
  - pose proof (closer_fails k _ tail I) as F.
    apply includes_cons in I. destruct I as [_ I].
    change (String c b ++ String "}" tail)%string with
      (String c (b ++ String "}" tail)) in *.
    rewrite (any_lazy_step _ _ _ F), (IH I). reflexivity.
Qed.
End RegexFacts.

(** The search passes over a preamble that does not contain the opener. *)
Lemma search_skips_preamble (pre rest : string) (index : nat) :
  includes "```json" pre = false ->
  search (fence "```json") (pre ++ String (ascii_of_nat 10) rest) index =
  search (fence "```json") (String (ascii_of_nat 10) rest) (index + String.length pre).
Proof.
  revert index. induction pre as [|c pre IH]; intros index I.
  - simpl. rewrite Nat.add_0_r. reflexivity.
  - pose proof I as I0. apply includes_cons in I. destruct I as [P I].
    assert (F : fence "```json" (String c pre ++ String (ascii_of_nat 10) rest) = None).
    { unfold fence, lit. rewrite prefix_cut by reflexivity. rewrite P. reflexivity. }
    change (String c pre ++ String (ascii_of_nat 10) rest)%string with
      (String c (pre ++ String (ascii_of_nat 10) rest)) in *.
    replace (index + String.length (String c pre)) with (S index + String.length pre)
      by (simpl; lia).
    rewrite <- (IH _ I). simpl search. rewrite F. reflexivity.
Qed.

Lemma prefix_append (p r : string) : prefix p (p ++ r) = true.
Proof.
  induction p as [|x p IH]; simpl.
  - destruct r; reflexivity.
  - destruct (ascii_dec x x); [exact IH | contradiction].
Qed.

Lemma drop_append (p r : string) : drop (String.length p) (p ++ r) = r.
Proof.
  induction p as [|x p IH]; simpl; [destruct r; reflexivity | exact IH].
Qed.

Lemma lit_append {A : Type} (p r : string) (k : string -> option A) :
  lit p k (p ++ r) = k r.
Proof.
  unfold lit. rewrite prefix_append, drop_append. reflexivity.
Qed.

Lemma search_hit (re : string -> option string) (s cap : string) (index : nat) :
  re s = Some cap -> search re s index = Some (index, cap).
Proof.
  intros R. destruct s; simpl; rewrite R; reflexivity.
Qed.

Lemma search_miss (re : string -> option string) (c : ascii) (s : string) (index : nat) :
  re (String c s) = None -> search re (String c s) index = search re s (S index).
Proof.
  intros R. simpl. rewrite R. reflexivity.
Qed.

(** The tagged pattern, anchored at the opener of
    [```json \n ws1 { mid } ws2 \n ``` \n post]. *)
Lemma fence_at_opener (post ws1 mid ws2 : string) :
  includes "```" mid = false ->
  all_space ws1 = true ->
  all_space ws2 = true ->
  fence "```json"
    ("```json" ++ newline ++ (ws1 ++ "{" ++ mid ++ "}" ++ ws2)
       ++ newline ++ "```" ++ newline ++ post) =
  Some ("{" ++ mid ++ "}")%string.
Proof.
  intros Imid W1 W2.
  set (tail := (ws2 ++ newline ++ "```" ++ newline ++ post)%string).
  assert (T : ws_star (lit "```" (fun _ : string => Some tt)) tail = Some tt).
  { unfold tail. rewrite <- append_assoc.
    change ("```" ++ newline ++ post)%string with (String "`" ("``" ++ newline ++ post)).
    apply ws_star_run.
    - rewrite all_space_app, W2. reflexivity.
    - reflexivity.
    - exact (lit_append "```" (newline ++ post) (fun _ => Some tt)). }
  assert (B : includes "```" (String "{" mid) = false) by (simpl; exact Imid).
  pose proof (any_lazy_body (fun _ : string => Some tt) _ tail tt B T) as L.
  assert (E : (newline ++ (ws1 ++ "{" ++ mid ++ "}" ++ ws2)
                 ++ newline ++ "```" ++ newline ++ post)%string =
              ((newline ++ ws1) ++ String "{" (mid ++ String "}" tail))%string).
  { unfold tail. rewrite !append_assoc. reflexivity. }
  unfold fence. rewrite lit_append, E.
  rewrite (ws_star_run _ _ _ _ (String "{" mid ++ "}", tt)%string).
  - reflexivity.
  - rewrite all_space_app, W1. reflexivity.
  - reflexivity.
  - exact L.
Qed.

(** The leftmost tagged fence of a text of the shape
    [pre \n ```json \n ws1 { mid } ws2 \n ``` \n post]. *)
Lemma tagged_fence_found (pre post ws1 mid ws2 : string) :
  includes "```json" pre = false ->
  includes "```" mid = false ->
  all_space ws1 = true ->
  all_space ws2 = true ->
  String_match (fence "```json")
    (pre ++ newline ++ "```json" ++ newline ++ (ws1 ++ "{" ++ mid ++ "}" ++ ws2)
         ++ newline ++ "```" ++ newline ++ post) =
  Some (String.length pre + 1, ("{" ++ mid ++ "}")%string).
Proof.
  intros Ipre Imid W1 W2. unfold String_match.
  change (pre ++ newline ++ ?x)%string with (pre ++ String (ascii_of_nat 10) x)%string.
  rewrite search_skips_preamble by exact Ipre.
  rewrite search_miss by reflexivity.
  rewrite (search_hit _ _ _ _ (fence_at_opener post ws1 mid ws2 Imid W1 W2)).
  f_equal. f_equal. lia.
Qed.

(** The brace span of an object text is the text itself. *)
Lemma narrowCandidate_object (mid : string) :
  narrowCandidate ("{" ++ mid ++ "}") = ("{" ++ mid ++ "}")%string.
Proof.
  unfold narrowCandidate. simpl indexOf.
  change ("{" ++ mid ++ "}")%string with (String "{" (mid ++ String "}" "")).
  simpl lastIndexOf. rewrite lastIndexOf_snoc.
  unfold js_substring.
  replace (S (String.length mid) + 1 - 0)
    with (String.length (String "{" (mid ++ String "}" ""))).
  - rewrite substring_whole. reflexivity.
  - simpl. rewrite length_append. simpl. lia.
Qed.

Lemma trimStart_all_space (w : string) : all_space w = true -> trimStart w = EmptyString.
Proof.
  induction w as [|c w IH]; simpl; [reflexivity|].
  intros W. apply andb_true_iff in W. destruct W as [C W]. rewrite C. auto.
Qed.

Lemma trimEnd_all_space (w : string) : all_space w = true -> trimEnd w = EmptyString.
Proof.
  induction w as [|c w IH]; simpl; [reflexivity|].
  intros W. apply andb_true_iff in W. destruct W as [C W]. rewrite (IH W), C. reflexivity.
Qed.

Lemma trimEnd_app_space (s w : string) :
  all_space w = true -> trimEnd (s ++ w) = trimEnd s.
Proof.
  intros W. induction s as [|c s IH]; simpl.
  - apply trimEnd_all_space; exact W.
  - rewrite IH. reflexivity.
Qed.

(** White space after a text does not show in its trimmed form. *)
Lemma trim_app_space (s w : string) :
  all_space w = true -> trim (s ++ w) = trim s.
Proof.
  intros W. unfold trim. induction s as [|c s IH].
  - simpl. rewrite (trimStart_all_space _ W). reflexivity.
  - change (String c s ++ w)%string with (String c (s ++ w)).
    simpl trimStart. destruct (is_space c).
    + exact IH.
    + change (String c (s ++ w)) with (String c s ++ w)%string.
      apply trimEnd_app_space; exact W.
Qed.

(** The summary and the candidate of a text with a tagged fence. *)
Lemma isolate_fenced (pre post ws1 mid ws2 : string) :
  includes "```json" pre = false ->
  includes "```" mid = false ->
  all_space ws1 = true ->
  all_space ws2 = true ->
  isolatePayload
    (pre ++ newline ++ "```json" ++ newline ++ (ws1 ++ "{" ++ mid ++ "}" ++ ws2)
         ++ newline ++ "```" ++ newline ++ post) =
  (trim pre, ("{" ++ mid ++ "}")%string).
Proof.
  intros Ipre Imid W1 W2. unfold isolatePayload.
  rewrite tagged_fence_found by assumption.
  f_equal. unfold js_substring.
  replace (String.length pre + 1 - 0) with (String.length (pre ++ newline))
    by (rewrite length_append; simpl; lia).
  rewrite <- append_assoc, substring_prefix.
  apply trim_app_space. reflexivity.
Qed.

Section Properties.
Context {Num : Type} `{JsNumber Num} `{JsonParser Num}.

#[local] Abbreviation Value := (Value Num).
#[local] Abbreviation Source := (Source Num).

(** ** Parse failure and invalid shape *)

(** C3. When [JSON.parse] rejects the narrowed candidate, the pipeline
    returns the empty graph with the extracted sources, summary, queries
    and supports if at least one source was extracted, and throws the
    parse error if none was. *)
Theorem C3_parse_failure_outcome (text : string) (chunks supports : Value)
    (queries : list string) (sm sm' : SourceMap) (im : IndexMap) (clean : list Value) :
  extractSources chunks = Ok (sm, im) ->
  linkSupports im sm supports = Ok (sm', clean) ->
  JSON_parse (narrowCandidate (snd (isolatePayload text))) = None ->
  processGeminiOutput text chunks supports queries =
  match Map_values sm' with
  | _ :: _ =>
      Ok {| graphData := {| nodes := []; edges := [] |};
            sources := Map_values sm';
            searchQueries := queries;
            summary := fst (isolatePayload text);
            groundingSupports := clean |}
  | [] => Throw parseFailure
  end.
Proof.
  intros Hx Hl Hp. unfold processGeminiOutput.
  rewrite Hx; simpl. rewrite Hl; simpl.
  destruct (isolatePayload text) as [preamble cleanText]; simpl in *.
  rewrite Hp. destruct (Map_values sm'); reflexivity.
Qed.

(** C5. When the candidate parses to a value without a [nodes] array or
    without an [edges] array, the pipeline returns the empty graph with
    the extracted sources, summary, queries and supports, whatever the
    number of sources; it does not throw. *)
Theorem C5_invalid_shape_never_throws (text : string) (chunks supports : Value)
    (queries : list string) (sm sm' : SourceMap) (im : IndexMap) (clean : list Value)
    (parsed : Value) :
  extractSources chunks = Ok (sm, im) ->
  linkSupports im sm supports = Ok (sm', clean) ->
  JSON_parse (narrowCandidate (snd (isolatePayload text))) = Some parsed ->
  isArray (prop_of parsed "nodes") = false \/ isArray (prop_of parsed "edges") = false ->
  processGeminiOutput text chunks supports queries =
  Ok {| graphData := {| nodes := []; edges := [] |};
        sources := Map_values sm';
        searchQueries := queries;
        summary := fst (isolatePayload text);
        groundingSupports := clean |}.
Proof.
  intros Hx Hl Hp Hshape. unfold processGeminiOutput.
  rewrite Hx; simpl. rewrite Hl; simpl.
  destruct (isolatePayload text) as [preamble cleanText]; simpl in *.
  rewrite Hp.
  destruct (truthy parsed); simpl; [|reflexivity].
  destruct Hshape as [E|E].
  - rewrite E; reflexivity.
  - rewrite E. rewrite orb_true_r. reflexivity.
Qed.

(** ** Sources *)

Lemma In_firstOccurrences (x : string) (l : list string) :
  In x (firstOccurrences l) <-> In x l.
Proof.
  induction l as [|y l IH]; simpl; [tauto|].
  rewrite filter_In, IH.
  destruct (String.eqb_spec x y) as [E|N]; simpl.
  - subst; tauto.
  - split; [tauto|]. intros [E|I]; [congruence|auto].
Qed.

Lemma NoDup_firstOccurrences (l : list string) : NoDup (firstOccurrences l).
Proof.
  induction l as [|y l IH]; simpl; constructor.
  - rewrite filter_In. intros [_ E]. rewrite String.eqb_refl in E. discriminate.
  - apply NoDup_filter; exact IH.
Qed.

Lemma firstOccurrences_snoc (l : list string) (k : string) :
  firstOccurrences (l ++ [k]) =
  firstOccurrences l ++ (if existsb (String.eqb k) l then [] else [k]).
Proof.
  induction l as [|y l IH]; simpl; [reflexivity|].
  rewrite IH, filter_app. f_equal. f_equal.
  destruct (existsb (String.eqb k) l); simpl.
  - rewrite orb_true_r. reflexivity.
  - rewrite orb_false_r. destruct (k =? y); reflexivity.
Qed.

Lemma existsb_eqb_In (k : string) (l : list string) :
  existsb (String.eqb k) l = true <-> In k l.
Proof.
  rewrite existsb_exists. split.
  - intros (x & I & E). apply String.eqb_eq in E. subst; exact I.
  - intros I. exists k. split; [exact I | apply String.eqb_refl].
Qed.

Lemma chunkKeys_snoc (l : list Value) (c : Value) :
  chunkKeys (l ++ [c]) =
  chunkKeys l ++ match webUriOf c with Some u => [normalizeUri u] | None => [] end.
Proof.
  unfold chunkKeys. rewrite flat_map_app. simpl. rewrite app_nil_r. reflexivity.
Qed.

(** What one chunk does to the two maps, when it does not throw. *)
Lemma chunkStep_spec (sm sm' : SourceMap) (im im' : IndexMap) (index : nat) (c : Value) :
  chunkStep (sm, im) index c = Ok (sm', im') ->
  match webUriOf c with
  | None => sm' = sm /\ im' = im
  | Some u =>
      im' = Map_set Nat.eqb index (normalizeUri u) im /\
      sm' = match Map_get String.eqb (normalizeUri u) sm with
            | None => Map_set String.eqb (normalizeUri u) (sourceOf u c) sm
            | Some existing =>
                if is_str (title existing) placeholder && truthy (webTitleOf c)
                then Map_set String.eqb (normalizeUri u) (sourceOf u c) sm
                else sm
            end
  end.
Proof.
  unfold chunkStep, webUriOf, sourceOf, webTitleOf.
  destruct (truthy c && truthy (prop_of c "web")).
  2:{ intros E; inversion E; auto. }
  destruct (prop_of (prop_of c "web") "uri") as [| |b|n|u|l|fs] eqn:Eu; simpl;
    try (intros E; inversion E; auto; fail);
    try (destruct (num_truthy n); intros E; inversion E; auto; fail);
    try (destruct b; intros E; inversion E; auto; fail).
  destruct (u =? "") eqn:Ee; simpl.
  - intros E; inversion E; auto.
  - destruct (Map_get String.eqb (normalizeUri u) sm) as [existing|].
    + destruct (is_str (title existing) placeholder && truthy _);
        intros E; inversion E; auto.
    + intros E; inversion E; auto.
Qed.

Lemma extractFrom_snoc (l : list Value) (c : Value) (st : SourceMap * IndexMap) :
  extractFrom (l ++ [c]) 0 st =
  bind (extractFrom l 0 st) (fun st' => chunkStep st' (List.length l) c).
Proof.
  unfold extractFrom. rewrite forEachIndexed_app. simpl.
  destruct (forEachIndexed chunkStep l 0 st) as [st'|e]; simpl; [|reflexivity].
  destruct (chunkStep st' (List.length l) c); reflexivity.
Qed.

(** The state reached from the empty maps: the keys are the chunk keys in
    first-occurrence order, and every source is filed under the normal
    form of its own uri, which some chunk carries. *)
Lemma extract_invariant (chunks : list Value) (sm : SourceMap) (im : IndexMap) :
  extractFrom chunks 0 ([], []) = Ok (sm, im) ->
  Map_keys sm = firstOccurrences (chunkKeys chunks) /\
  (forall k s, Map_get String.eqb k sm = Some s ->
     normalizeUri (uri s) = k /\ exists c, In c chunks /\ webUriOf c = Some (uri s)).
Proof.
  revert sm im. induction chunks as [|c l IH] using rev_ind; intros sm im.
  - simpl. intros E; inversion E; subst. split; [reflexivity|]. simpl; discriminate.
  - rewrite extractFrom_snoc. intros E.
    apply bind_Ok in E. destruct E as ([sm0 im0] & E0 & Es).
    destruct (IH _ _ E0) as [Hk Hs]. apply chunkStep_spec in Es.
    rewrite chunkKeys_snoc.
    assert (Hold : forall k s, Map_get String.eqb k sm0 = Some s ->
               normalizeUri (uri s) = k /\
               exists c', In c' (l ++ [c]) /\ webUriOf c' = Some (uri s)).
    { intros k s G. destruct (Hs k s G) as [N (c' & I & W)].
      split; [exact N|]. exists c'. split; [apply in_or_app; auto | exact W]. }
    destruct (webUriOf c) as [u|] eqn:Wc.
    2:{ destruct Es as [-> _]. rewrite app_nil_r. split; assumption. }
    destruct Es as [_ Esm].
    assert (Hnew : forall k s,
               Map_get String.eqb k (Map_set String.eqb (normalizeUri u) (sourceOf u c) sm0) = Some s ->
               normalizeUri (uri s) = k /\
               exists c', In c' (l ++ [c]) /\ webUriOf c' = Some (uri s)).
    { intros k s G. destruct (String.eqb_spec (normalizeUri u) k) as [E|N].
      - subst k. rewrite (Map_get_set_eq _ String.eqb_spec) in G. inversion G; subst s.
        simpl. split; [reflexivity|]. exists c. split; [apply in_or_app; simpl; auto | exact Wc].
      - rewrite (Map_get_set_neq _ String.eqb_spec) in G by exact N. auto. }
    rewrite firstOccurrences_snoc.
    destruct (Map_get String.eqb (normalizeUri u) sm0) as [existing|] eqn:G.
    + assert (I : In (normalizeUri u) (chunkKeys l)).
      { apply In_firstOccurrences. rewrite <- Hk.
        destruct (in_dec string_dec (normalizeUri u) (Map_keys sm0)) as [I|NI]; [exact I|].
        apply (Map_get_None String.eqb String.eqb_spec) in NI. congruence. }
      apply existsb_eqb_In in I. rewrite I, app_nil_r.
      destruct (is_str (title existing) placeholder && truthy (webTitleOf c)); subst sm.
      * split; [|exact Hnew]. rewrite (Map_keys_set _ String.eqb_spec), G. exact Hk.
      * split; assumption.
    + subst sm. split; [|exact Hnew].
      rewrite (Map_keys_set _ String.eqb_spec), G, Hk. f_equal.
      destruct (existsb (String.eqb (normalizeUri u)) (chunkKeys l)) eqn:X; [|reflexivity].
      apply existsb_eqb_In, In_firstOccurrences in X. rewrite <- Hk in X.
      apply (Map_get_None String.eqb String.eqb_spec) in G. contradiction.
Qed.

(** A source whose title is not the placeholder is never touched again. *)
Lemma real_title_is_stable (l : list Value) :
  forall (index : nat) (st st' : SourceMap * IndexMap) (k : string) (s : Source),
  extractFrom l index st = Ok st' ->
  Map_get String.eqb k (fst st) = Some s ->
  is_str (title s) placeholder = false ->
  Map_get String.eqb k (fst st') = Some s.
Proof.
  induction l as [|c l IH]; intros index st st' k s; unfold extractFrom; simpl.
  - intros E; inversion E; auto.
  - intros E G T. apply bind_Ok in E. destruct E as ([sm1 im1] & E1 & E2).
    destruct st as [sm im]. apply chunkStep_spec in E1. simpl in G.
    apply (IH (S index) (sm1, im1) st' k s E2); [|exact T]. simpl.
    destruct (webUriOf c) as [u|].
    2:{ destruct E1 as [-> _]; exact G. }
    destruct E1 as [_ ->].
    destruct (String.eqb_spec (normalizeUri u) k) as [E|N].
    + subst k. rewrite G, T. simpl. exact G.
    + destruct (Map_get String.eqb (normalizeUri u) sm) as [existing|];
        [destruct (is_str (title existing) placeholder && truthy (webTitleOf c))|];
        try exact G; rewrite (Map_get_set_neq _ String.eqb_spec) by exact N; exact G.
Qed.

Lemma extractSources_split (before after : list Value) (chunk : Value)
    (final : SourceMap * IndexMap) :
  extractSources (VArr (before ++ chunk :: after)) = Ok final ->
  exists st1 st2,
    extractSources (VArr before) = Ok st1 /\
    chunkStep st1 (List.length before) chunk = Ok st2 /\
    extractFrom after (S (List.length before)) st2 = Ok final.
Proof.
  unfold extractSources, extractFrom. rewrite forEachIndexed_app. simpl.
  intros E. apply bind_Ok in E. destruct E as (st1 & E1 & E).
  apply bind_Ok in E. destruct E as (st2 & E2 & E3).
  exists st1, st2. auto.
Qed.

(** C6. Split a chunk list at any chunk that carries a uri.  If its key is
    new, the chunk creates the source with its own title when that title
    is non-empty and the placeholder otherwise.  If its key is known, the
    stored title becomes the chunk's title exactly when the stored title
    is the placeholder and the chunk's title is non-empty, and stays as it
    is otherwise.  A title that is not the placeholder after this chunk is
    still the title of that source at the end. *)
Theorem C6_title_created_upgraded_once (before after : list Value) (chunk : Value)
    (final : SourceMap * IndexMap) :
  extractSources (VArr (before ++ chunk :: after)) = Ok final ->
  exists st1 st2,
    extractSources (VArr before) = Ok st1 /\
    chunkStep st1 (List.length before) chunk = Ok st2 /\
    forall u, webUriOf chunk = Some u ->
      (Map_get String.eqb (normalizeUri u) (fst st1) = None ->
       Map_get String.eqb (normalizeUri u) (fst st2) =
       Some {| title := if truthy (webTitleOf chunk) then webTitleOf chunk
                        else VStr "Unknown Source";
               uri := u;
               citationCount := 0 |}) /\
      (forall s, Map_get String.eqb (normalizeUri u) (fst st1) = Some s ->
         exists s', Map_get String.eqb (normalizeUri u) (fst st2) = Some s' /\
           title s' = if is_str (title s) "Unknown Source" && truthy (webTitleOf chunk)
                      then webTitleOf chunk else title s) /\
      (forall s, Map_get String.eqb (normalizeUri u) (fst st2) = Some s ->
         is_str (title s) "Unknown Source" = false ->
         Map_get String.eqb (normalizeUri u) (fst final) = Some s).
Proof.
  intros E. destruct (extractSources_split _ _ _ _ E) as (st1 & st2 & E1 & E2 & E3).
  exists st1, st2. split; [exact E1|]. split; [exact E2|].
  intros u W. destruct st1 as [sm1 im1], st2 as [sm2 im2].
  pose proof (chunkStep_spec _ _ _ _ _ _ E2) as Sp. rewrite W in Sp.
  destruct Sp as [_ Sp]. simpl. repeat split.
  - intros G. rewrite G in Sp. subst sm2.
    rewrite (Map_get_set_eq _ String.eqb_spec). reflexivity.
  - intros s G. rewrite G in Sp. fold placeholder.
    destruct (is_str (title s) placeholder && truthy (webTitleOf chunk)) eqn:C; subst sm2.
    + eexists. split; [apply (Map_get_set_eq _ String.eqb_spec)|].
      simpl. apply andb_true_iff in C. destruct C as [_ ->]. reflexivity.
    + exists s. auto.
  - intros s G T. exact (real_title_is_stable _ _ _ _ _ _ E3 G T).
Qed.

(** The sources as extraction leaves them. *)
Lemma extracted_sources_unique_and_ordered (chunks : list Value) (sm : SourceMap)
    (im : IndexMap) :
  extractSources (VArr chunks) = Ok (sm, im) ->
  NoDup (map (fun s => normalizeUri (uri s)) (Map_values sm)) /\
  map (fun s => normalizeUri (uri s)) (Map_values sm) = firstOccurrences (chunkKeys chunks) /\
  (forall s, In s (Map_values sm) ->
     uri s <> "" /\ exists c, In c chunks /\ webUriOf c = Some (uri s)) /\
  (forall before c after,
     chunks = before ++ c :: after -> webUriOf c = None ->
     exists st, extractSources (VArr before) = Ok st /\
                chunkStep st (List.length before) c = Ok st).
Proof.
  intros E. destruct (extract_invariant _ _ _ E) as [Hk Hs].
  assert (ND : NoDup (Map_keys sm)) by (rewrite Hk; apply NoDup_firstOccurrences).
  assert (Hn : map (fun s => normalizeUri (uri s)) (Map_values sm) = Map_keys sm).
  { unfold Map_values, Map_keys. rewrite map_map. apply map_ext_in.
    intros [k s] I. simpl.
    apply (In_Map_get String.eqb String.eqb_spec _ _ _ ND) in I.
    apply Hs in I. tauto. }
  rewrite Hn. split; [exact ND|]. split; [exact Hk|]. split.
  - intros s I. unfold Map_values in I. apply in_map_iff in I.
    destruct I as ([k s'] & <- & I). simpl.
    apply (In_Map_get String.eqb String.eqb_spec _ _ _ ND) in I.
    apply Hs in I. destruct I as [_ (c & Ic & W)]. split; [|eauto].
    intros Z. unfold webUriOf in W.
    destruct (truthy c && truthy (prop_of c "web")); [|discriminate].
    destruct (prop_of (prop_of c "web") "uri") as [| | | |u| |]; try discriminate.
    destruct (u =? "") eqn:X; [discriminate|]. inversion W; subst.
    rewrite Z in X. discriminate.
  - intros before c after -> W.
    destruct (extractSources_split _ _ _ _ E) as ([sm1 im1] & [sm2 im2] & E1 & E2 & _).
    exists (sm1, im1). split; [exact E1|].
    pose proof (chunkStep_spec _ _ _ _ _ _ E2) as Sp. rewrite W in Sp.
    destruct Sp as [-> ->]. exact E2.
Qed.

(** C9, as the code has it.  When a chunk upgrades the title of a stored
    source, the source keeps its place in the list and every other source
    is untouched; its title becomes the chunk's title and its uri becomes
    the chunk's own uri, which has the same normal form as the one it
    replaces. *)
Theorem C9_upgrade_keeps_position_replaces_uri (before : list Value) (chunk : Value)
    (st1 st2 : SourceMap * IndexMap) (u : string) (s : Source) :
  extractSources (VArr before) = Ok st1 ->
  chunkStep st1 (List.length before) chunk = Ok st2 ->
  webUriOf chunk = Some u ->
  Map_get String.eqb (normalizeUri u) (fst st1) = Some s ->
  is_str (title s) "Unknown Source" = true ->
  truthy (webTitleOf chunk) = true ->
  exists l1 l2,
    Map_values (fst st1) = l1 ++ s :: l2 /\
    Map_values (fst st2) =
      l1 ++ {| title := webTitleOf chunk; uri := u; citationCount := 0 |} :: l2 /\
    normalizeUri u = normalizeUri (uri s).
Proof.
  intros E1 E2 W G T Tt. destruct st1 as [sm1 im1], st2 as [sm2 im2]. simpl in *.
  pose proof (chunkStep_spec _ _ _ _ _ _ E2) as Sp. rewrite W, G in Sp.
  fold placeholder in T. rewrite T, Tt in Sp. simpl in Sp. destruct Sp as [_ ->].
  destruct (Map_set_present String.eqb String.eqb_spec _ (sourceOf u chunk) _ _ G)
    as (m1 & m2 & M1 & M2 & _).
  exists (Map_values m1), (Map_values m2). rewrite M2, M1.
  unfold Map_values. rewrite !map_app. simpl. unfold sourceOf. rewrite Tt.
  repeat split.
  destruct (extract_invariant _ _ _ E1) as [_ Hs]. destruct (Hs _ _ G) as [N _].
  symmetry; exact N.
Qed.

(** ** Nodes *)

Lemma nodeStep_spec (um um' : list (string * Value)) (n : Value) :
  nodeStep um n = Ok um' ->
  um' = match nodeKey n with
        | Some k => Map_set String.eqb k n um
        | None => um
        end.
Proof.
  unfold nodeStep, nodeKey.
  destruct (truthy n && truthy (prop_of n "id")).
  - destruct (js_String (prop_of n "id")); simpl; intros E; inversion E; reflexivity.
  - intros E; inversion E; reflexivity.
Qed.

Lemma dedupNodes_snoc (l : list Value) (n : Value) :
  dedupNodes (l ++ [n]) = bind (dedupNodes l) (fun um => nodeStep um n).
Proof.
  unfold dedupNodes. rewrite foldM_app. simpl.
  destruct (foldM nodeStep l []) as [um|e]; simpl; [|reflexivity].
  destruct (nodeStep um n); reflexivity.
Qed.

Lemma nodeKeys_snoc (l : list Value) (n : Value) :
  nodeKeys (l ++ [n]) = nodeKeys l ++ match nodeKey n with Some k => [k] | None => [] end.
Proof.
  unfold nodeKeys. rewrite flat_map_app. simpl. rewrite app_nil_r. reflexivity.
Qed.

(** The map built from a node list: its keys are the node keys in
    first-occurrence order, and each key holds the last node that has it. *)
Lemma dedup_invariant (rawNodes : list Value) (um : list (string * Value)) :
  dedupNodes rawNodes = Ok um ->
  Map_keys um = firstOccurrences (nodeKeys rawNodes) /\
  (forall k, Map_get String.eqb k um = lastWithKey k rawNodes).
Proof.
  revert um. induction rawNodes as [|n l IH] using rev_ind; intros um.
  - intros E; inversion E; subst. split; reflexivity.
  - rewrite dedupNodes_snoc. intros E. apply bind_Ok in E. destruct E as (um0 & E0 & En).
    destruct (IH _ E0) as [Hk Hg]. apply nodeStep_spec in En.
    rewrite nodeKeys_snoc.
    unfold lastWithKey, keyIs. rewrite rev_app_distr. simpl.
    destruct (nodeKey n) as [k|] eqn:Kn; subst um.
    + rewrite firstOccurrences_snoc. split.
      * rewrite (Map_keys_set _ String.eqb_spec), Hk.
        destruct (Map_get String.eqb k um0) eqn:G.
        -- assert (I : In k (nodeKeys l)).
           { apply In_firstOccurrences. rewrite <- Hk.
             destruct (in_dec string_dec k (Map_keys um0)) as [I|NI]; [exact I|].
             apply (Map_get_None String.eqb String.eqb_spec) in NI. congruence. }
           apply existsb_eqb_In in I. rewrite I, app_nil_r. reflexivity.
        -- destruct (existsb (String.eqb k) (nodeKeys l)) eqn:X; [|reflexivity].
           apply existsb_eqb_In, In_firstOccurrences in X. rewrite <- Hk in X.
           apply (Map_get_None String.eqb String.eqb_spec) in G. contradiction.
      * intros k'. destruct (String.eqb_spec k k') as [E|N].
        -- subst k'. apply (Map_get_set_eq _ String.eqb_spec).
        -- rewrite (Map_get_set_neq _ String.eqb_spec) by exact N. apply Hg.
    + rewrite app_nil_r. split; [exact Hk|]. intros k'. apply Hg.
Qed.

Lemma find_keyIs (k : string) (l : list Value) (n : Value) :
  find (keyIs k) l = Some n -> In n l /\ nodeKey n = Some k.
Proof.
  intros F. apply find_some in F. destruct F as [I K]. split; [exact I|].
  unfold keyIs in K. destruct (nodeKey n) as [k'|]; [|discriminate].
  apply String.eqb_eq in K. congruence.
Qed.

Lemma nodeKey_truthy (n : Value) (k : string) :
  nodeKey n = Some k ->
  truthy n = true /\ truthy (prop_of n "id") = true /\ js_String (prop_of n "id") = Ok k.
Proof.
  unfold nodeKey. destruct (truthy n); simpl; [|discriminate].
  destruct (truthy (prop_of n "id")); [|discriminate].
  destruct (js_String (prop_of n "id")); [|discriminate].
  intros E; inversion E; auto.
Qed.

(** Every stored node is filed under its own key. *)
Lemma dedup_values (rawNodes : list Value) (um : list (string * Value)) :
  dedupNodes rawNodes = Ok um ->
  NoDup (Map_keys um) /\
  map nodeKey (Map_values um) = map Some (Map_keys um) /\
  map Some (Map_values um) = dedupLastWins rawNodes.
Proof.
  intros E. destruct (dedup_invariant _ _ E) as [Hk Hg].
  assert (ND : NoDup (Map_keys um)) by (rewrite Hk; apply NoDup_firstOccurrences).
  split; [exact ND|]. split.
  - unfold Map_values, Map_keys. rewrite !map_map. apply map_ext_in.
    intros [k n] I. simpl.
    apply (In_Map_get String.eqb String.eqb_spec _ _ _ ND) in I.
    rewrite Hg in I. apply find_keyIs in I. tauto.
  - unfold dedupLastWins. rewrite <- Hk. unfold Map_values, Map_keys. rewrite !map_map.
    apply map_ext_in. intros [k n] I. simpl.
    apply (In_Map_get String.eqb String.eqb_spec _ _ _ ND) in I.
    rewrite <- Hg. symmetry; exact I.
Qed.

(** ** Edges *)

Lemma edgeStep_eq (ids acc : list Value) (e : Value) :
  edgeStep ids acc e =
  bind (edgeEndpoints e) (fun p =>
    if Set_has ids (fst p) && Set_has ids (snd p)
    then Ok (acc ++ [rewriteEdge e (fst p) (snd p)])
    else Ok acc).
Proof.
  unfold edgeStep, edgeEndpoints.
  destruct (get_prop e "source") as [rs|]; simpl; [|reflexivity].
  destruct (js_String rs) as [sid|]; simpl; [|reflexivity].
  destruct (get_prop e "target") as [rt|]; simpl; [|reflexivity].
  destruct (js_String rt) as [tid|]; simpl; reflexivity.
Qed.

Lemma filterEdges_kept (ids : list Value) (es : list Value) :
  forall acc out,
  foldM (edgeStep ids) es acc = Ok out ->
  out = acc ++ keptEdges ids es /\ Forall (fun e => exists p, edgeEndpoints e = Ok p) es.
Proof.
  induction es as [|e es IH]; intros acc out; simpl.
  - intros E; inversion E. rewrite app_nil_r. auto.
  - rewrite edgeStep_eq. intros E. apply bind_Ok in E. destruct E as (acc' & E1 & E2).
    apply bind_Ok in E1. destruct E1 as ([sid tid] & Ep & E1). simpl in E1.
    destruct (IH _ _ E2) as [-> F]. rewrite Ep. split.
    + destruct (Set_has ids sid && Set_has ids tid); inversion E1; subst.
      * rewrite <- app_assoc. reflexivity.
      * reflexivity.
    + constructor; [exists (sid, tid); exact Ep | exact F].
Qed.

Lemma filterEdges_total (ids : list Value) (es : list Value) :
  Forall (fun e => exists p, edgeEndpoints e = Ok p) es ->
  forall acc, foldM (edgeStep ids) es acc = Ok (acc ++ keptEdges ids es).
Proof.
  induction 1 as [|e es [[sid tid] Ep] F IH]; intros acc; simpl.
  - rewrite app_nil_r. reflexivity.
  - rewrite edgeStep_eq, Ep. simpl.
    destruct (Set_has ids sid && Set_has ids tid); simpl; rewrite IH.
    + rewrite <- app_assoc. reflexivity.
    + reflexivity.
Qed.

(** An edge that fails the test can be taken out of the input: the
    filter gives the same list. *)
Lemma filterEdges_without_invalid (ids es1 es2 : list Value) (e : Value)
    (sid tid : string) (out : list Value) :
  filterEdges ids (es1 ++ e :: es2) = Ok out ->
  edgeEndpoints e = Ok (sid, tid) ->
  Set_has ids sid && Set_has ids tid = false ->
  filterEdges ids (es1 ++ es2) = Ok out.
Proof.
  unfold filterEdges. intros E Ep Inv.
  destruct (filterEdges_kept _ _ _ _ E) as [-> F].
  rewrite filterEdges_total.
  - f_equal. simpl. unfold keptEdges. rewrite !flat_map_app. simpl.
    rewrite Ep, Inv. reflexivity.
  - apply Forall_app in F. destruct F as [F1 F2]. inversion F2; subst.
    apply Forall_app. auto.
Qed.

Lemma get_prop_Ok (v x : Value) (k : string) :
  get_prop v k = Ok x -> x = prop_of v k.
Proof.
  destruct v; simpl; intros E; inversion E; reflexivity.
Qed.

Lemma mapM_ids (l ids : list Value) :
  mapM (fun n => get_prop n "id") l = Ok ids -> ids = rawIds l.
Proof.
  revert ids; induction l as [|n l IH]; intros ids; simpl.
  - intros E; inversion E; reflexivity.
  - intros E. apply bind_Ok in E. destruct E as (x & Ex & E).
    apply bind_Ok in E. destruct E as (xs & Exs & E). inversion E; subst.
    apply get_prop_Ok in Ex. rewrite (IH _ Exs), Ex. reflexivity.
Qed.

Lemma is_str_true (v : Value) (s : string) : is_str v s = true <-> v = VStr s.
Proof.
  destruct v; simpl; try (split; [discriminate | intros E; inversion E]).
  rewrite String.eqb_eq. split; intros E; [subst | inversion E]; reflexivity.
Qed.

Lemma Set_has_rawIds (l : list Value) (s : string) :
  Set_has (rawIds l) s = true <-> exists n, In n l /\ prop_of n "id" = VStr s.
Proof.
  unfold Set_has, rawIds. rewrite existsb_exists. split.
  - intros (v & I & E). apply in_map_iff in I. destruct I as (n & <- & I).
    apply is_str_true in E. eauto.
  - intros (n & I & E). exists (prop_of n "id"). split.
    + apply (in_map (fun x => prop_of x "id")); exact I.
    + apply is_str_true; exact E.
Qed.

Lemma prop_rewrite_source (e : Value) (sid tid : string) :
  prop_of (rewriteEdge e sid tid) "source" = VStr sid.
Proof.
  unfold rewriteEdge, prop_of.
  rewrite (Map_get_set_neq _ String.eqb_spec) by discriminate.
  rewrite (Map_get_set_eq _ String.eqb_spec). reflexivity.
Qed.

Lemma prop_rewrite_target (e : Value) (sid tid : string) :
  prop_of (rewriteEdge e sid tid) "target" = VStr tid.
Proof.
  unfold rewriteEdge, prop_of.
  rewrite (Map_get_set_eq _ String.eqb_spec). reflexivity.
Qed.

Lemma In_keptEdges (ids es : list Value) (o : Value) :
  In o (keptEdges ids es) <->
  exists e sid tid, In e es /\ edgeEndpoints e = Ok (sid, tid) /\
    Set_has ids sid && Set_has ids tid = true /\ o = rewriteEdge e sid tid.
Proof.
  unfold keptEdges. rewrite in_flat_map. split.
  - intros (e & I & K). destruct (edgeEndpoints e) as [[sid tid]|] eqn:Ep; [|contradiction].
    destruct (Set_has ids sid && Set_has ids tid) eqn:V; [|contradiction].
    destruct K as [<-|[]]. exists e, sid, tid. auto.
  - intros (e & sid & tid & I & Ep & V & ->). exists e. split; [exact I|].
    rewrite Ep, V. simpl; auto.
Qed.

(** What [sanitizeGraph] returns, when it returns. *)
Lemma sanitizeGraph_spec (rawNodes rawEdges : list Value) (g : GraphData Num) :
  sanitizeGraph rawNodes rawEdges = Ok g ->
  exists um,
    dedupNodes rawNodes = Ok um /\
    nodes g = Map_values um /\
    edges g = keptEdges (rawIds (nodes g)) rawEdges /\
    Forall (fun e => exists p, edgeEndpoints e = Ok p) rawEdges.
Proof.
  unfold sanitizeGraph. intros E.
  apply bind_Ok in E. destruct E as (um & Eu & E).
  apply bind_Ok in E. destruct E as (ids & Ei & E).
  apply bind_Ok in E. destruct E as (out & Eo & E). inversion E; subst; simpl.
  apply mapM_ids in Ei. subst ids.
  destruct (filterEdges_kept _ _ _ _ Eo) as [-> F]. exists um. auto.
Qed.

(** The graph of a result is empty or sanitised. *)
Lemma pipeline_graph (text : string) (chunks supports : Value) (queries : list string)
    (r : GeminiResponse Num) :
  processGeminiOutput text chunks supports queries = Ok r ->
  graphData r = {| nodes := []; edges := [] |} \/
  exists rawNodes rawEdges, sanitizeGraph rawNodes rawEdges = Ok (graphData r).
Proof.
  unfold processGeminiOutput. intros E.
  apply bind_Ok in E. destruct E as (ex & _ & E).
  apply bind_Ok in E. destruct E as (lk & _ & E).
  destruct (isolatePayload text) as [preamble cleanText].
  destruct (JSON_parse (narrowCandidate cleanText)) as [parsed|].
  - destruct (negb (truthy parsed) || negb (isArray (prop_of parsed "nodes"))
              || negb (isArray (prop_of parsed "edges"))).
    + inversion E; auto.
    + destruct (prop_of parsed "nodes") as [| | | | |ns|]; try (inversion E; auto; fail).
      destruct (prop_of parsed "edges") as [| | | | |es|]; try (inversion E; auto; fail).
      apply bind_Ok in E. destruct E as (g & Eg & E). inversion E; subst; simpl.
      right. exists ns, es. exact Eg.
  - destruct (0 <? List.length (Map_values (fst lk)))%nat; inversion E; auto.
Qed.

Lemma NoDup_map_Some {A : Type} (l : list A) : NoDup l -> NoDup (map Some l).
Proof.
  induction 1 as [|x l NI ND IH]; simpl; constructor; [|exact IH].
  rewrite in_map_iff. intros (y & E & I). inversion E; subst. contradiction.
Qed.

Lemma NoDup_map_eq {A B : Type} (f : A -> B) (l : list A) (a b : A) :
  NoDup (map f l) -> In a l -> In b l -> f a = f b -> a = b.
Proof.
  induction l as [|x l IH]; simpl; [tauto|].
  intros ND Ia Ib E. inversion ND as [|? ? NI ND']; subst.
  destruct Ia as [<-|Ia], Ib as [<-|Ib]; auto.
  - exfalso; apply NI. rewrite E. apply in_map; exact Ib.
  - exfalso; apply NI. rewrite <- E. apply in_map; exact Ia.
Qed.

Lemma rewriteEdge_endpoints (e e' : Value) (sid tid sid' tid' : string) :
  rewriteEdge e sid tid = rewriteEdge e' sid' tid' -> sid = sid' /\ tid = tid'.
Proof.
  intros E.
  pose proof (prop_rewrite_source e sid tid) as S1.
  pose proof (prop_rewrite_target e sid tid) as T1.
  rewrite E in S1, T1. rewrite prop_rewrite_source in S1. rewrite prop_rewrite_target in T1.
  inversion S1; inversion T1; auto.
Qed.

(** An edge is in the output exactly when both coerced endpoints are raw
    ids of output nodes. *)
Lemma edge_kept_iff (rawNodes rawEdges : list Value) (g : GraphData Num)
    (e : Value) (sid tid : string) :
  sanitizeGraph rawNodes rawEdges = Ok g ->
  In e rawEdges ->
  edgeEndpoints e = Ok (sid, tid) ->
  In (rewriteEdge e sid tid) (edges g) <->
  Set_has (rawIds (nodes g)) sid && Set_has (rawIds (nodes g)) tid = true.
Proof.
  intros E I Ep. destruct (sanitizeGraph_spec _ _ _ E) as (um & _ & _ & -> & _).
  rewrite In_keptEdges. split.
  - intros (e' & sid' & tid' & _ & _ & V & R).
    apply rewriteEdge_endpoints in R. destruct R; subst. exact V.
  - intros V. exists e, sid, tid. auto.
Qed.

(** C1. Every edge of a result has as source and as target the id of a
    node of that result.  An edge one of whose coerced endpoints is not a
    surviving id is not in the output, and the output, nodes and edges,
    is the one the same input without that edge gives. *)
Theorem C1_edges_reference_surviving_nodes (text : string) (chunks supports : Value)
    (queries : list string) (r : GeminiResponse Num) :
  processGeminiOutput text chunks supports queries = Ok r ->
  (forall e, In e (edges (graphData r)) ->
     exists n1 n2,
       In n1 (nodes (graphData r)) /\ In n2 (nodes (graphData r)) /\
       prop_of e "source" = prop_of n1 "id" /\
       prop_of e "target" = prop_of n2 "id") /\
  (forall rawNodes es1 es2 e g sid tid,
     sanitizeGraph rawNodes (es1 ++ e :: es2) = Ok g ->
     edgeEndpoints e = Ok (sid, tid) ->
     Set_has (rawIds (nodes g)) sid && Set_has (rawIds (nodes g)) tid = false ->
     ~ In (rewriteEdge e sid tid) (edges g) /\
     sanitizeGraph rawNodes (es1 ++ es2) = Ok g).
Proof.
  intros E. split.
  - intros e I. destruct (pipeline_graph _ _ _ _ _ E) as [G|(ns & es & G)].
    + rewrite G in I. contradiction.
    + destruct (sanitizeGraph_spec _ _ _ G) as (um & _ & _ & Ee & _).
      rewrite Ee in I. apply In_keptEdges in I.
      destruct I as (e0 & sid & tid & _ & _ & V & ->).
      apply andb_true_iff in V. destruct V as [Vs Vt].
      apply Set_has_rawIds in Vs, Vt.
      destruct Vs as (n1 & I1 & E1), Vt as (n2 & I2 & E2).
      exists n1, n2. rewrite prop_rewrite_source, prop_rewrite_target. auto.
  - clear E. intros rawNodes es1 es2 e g sid tid G Ep V. split.
    + intros I.
      rewrite (edge_kept_iff _ _ _ _ _ _ G (in_elt e es1 es2) Ep) in I. congruence.
    + pose proof (sanitizeGraph_spec _ _ _ G) as (um & Eu & En & _ & _).
      unfold sanitizeGraph in *. rewrite Eu in *. simpl in *.
      destruct (mapM (fun n => get_prop n "id") (Map_values um)) as [ids|] eqn:Ei;
        simpl in *; [|discriminate].
      apply mapM_ids in Ei. subst ids. rewrite <- En in *.
      apply bind_Ok in G. destruct G as (out & Eo & G).
      rewrite (filterEdges_without_invalid _ _ _ _ _ _ _ Eo Ep V). exact G.
Qed.

(** C2, as the code has it.  The output has one node per coerced id, in
    the order in which the ids first occur, and the node kept for an id is
    the last input node with that id; every output node has a non-empty
    id, so a node whose id is missing or empty is not in the output. *)
Theorem C2_dedup_by_coerced_id_last_wins (rawNodes rawEdges : list Value)
    (g : GraphData Num) :
  sanitizeGraph rawNodes rawEdges = Ok g ->
  map Some (nodes g) = dedupLastWins rawNodes /\
  map nodeKey (nodes g) = map Some (firstOccurrences (nodeKeys rawNodes)) /\
  NoDup (map nodeKey (nodes g)) /\
  (forall n, In n (nodes g) -> In n rawNodes /\ truthy (prop_of n "id") = true).
Proof.
  intros E. destruct (sanitizeGraph_spec _ _ _ E) as (um & Eu & -> & _ & _).
  destruct (dedup_values _ _ Eu) as (ND & Hk & Hl).
  destruct (dedup_invariant _ _ Eu) as [Hf Hg].
  split; [exact Hl|]. split; [rewrite Hk, Hf; reflexivity|].
  split; [rewrite Hk; apply NoDup_map_Some; exact ND|].
  intros n I. unfold Map_values in I. apply in_map_iff in I.
  destruct I as ([k n'] & <- & I). simpl.
  apply (In_Map_get String.eqb String.eqb_spec _ _ _ ND) in I.
  rewrite Hg in I. apply find_keyIs in I. destruct I as [I K].
  split; [apply in_rev; exact I|]. apply nodeKey_truthy in K. tauto.
Qed.

(** C10, as the code has it.  An input edge is in the output exactly when
    each of its coerced endpoints is strictly equal to the raw id of an
    output node; an output edge is an input edge with its endpoints
    replaced by the coerced strings; an output node is an input node,
    unchanged.  The last node with a given coerced id is in the output,
    and when its id is not a string no edge that refers to it is. *)
Theorem C10_strict_match_against_raw_ids (rawNodes rawEdges : list Value)
    (g : GraphData Num) :
  sanitizeGraph rawNodes rawEdges = Ok g ->
  (forall e, In e rawEdges ->
     exists sid tid, edgeEndpoints e = Ok (sid, tid) /\
       (In (rewriteEdge e sid tid) (edges g) <->
        (exists n, In n (nodes g) /\ prop_of n "id" = VStr sid) /\
        (exists n, In n (nodes g) /\ prop_of n "id" = VStr tid))) /\
  (forall o, In o (edges g) ->
     exists e sid tid, In e rawEdges /\ edgeEndpoints e = Ok (sid, tid) /\
       o = rewriteEdge e sid tid /\
       prop_of o "source" = VStr sid /\ prop_of o "target" = VStr tid) /\
  (forall n, In n (nodes g) -> In n rawNodes) /\
  (forall n k, lastWithKey k rawNodes = Some n -> In n (nodes g)) /\
  (forall n k, In n (nodes g) -> nodeKey n = Some k ->
     (forall s, prop_of n "id" <> VStr s) ->
     forall e sid tid, In e rawEdges -> edgeEndpoints e = Ok (sid, tid) ->
       sid = k \/ tid = k -> ~ In (rewriteEdge e sid tid) (edges g)).
Proof.
  intros E. pose proof (sanitizeGraph_spec _ _ _ E) as (um & Eu & En & Ee & F).
  destruct (dedup_values _ _ Eu) as (ND & Hk & Hl).
  destruct (dedup_invariant _ _ Eu) as [Hf Hg].
  assert (Hkey : forall n s, In n (nodes g) -> prop_of n "id" = VStr s -> nodeKey n = Some s).
  { intros n s I P. rewrite En in I.
    assert (X : In (nodeKey n) (map nodeKey (Map_values um))) by (apply in_map; exact I).
    rewrite Hk in X. apply in_map_iff in X. destruct X as (k & K & _).
    symmetry in K. pose proof (nodeKey_truthy _ _ K) as (_ & _ & J).
    rewrite P in J. simpl in J. inversion J; subst. exact K. }
  repeat split.
  - intros e I. rewrite Forall_forall in F. destruct (F e I) as ([sid tid] & Ep).
    exists sid, tid. split; [exact Ep|].
    rewrite (edge_kept_iff _ _ _ _ _ _ E I Ep), andb_true_iff, !Set_has_rawIds. tauto.
  - intros o I. rewrite Ee in I. apply In_keptEdges in I.
    destruct I as (e & sid & tid & I & Ep & _ & ->).
    exists e, sid, tid. rewrite prop_rewrite_source, prop_rewrite_target. auto.
  - intros n I. rewrite En in I. unfold Map_values in I. apply in_map_iff in I.
    destruct I as ([k n'] & <- & I). simpl.
    apply (In_Map_get String.eqb String.eqb_spec _ _ _ ND) in I.
    rewrite Hg in I. apply find_keyIs in I. apply in_rev. tauto.
  - intros n k L. rewrite <- Hg in L. rewrite En.
    apply (Map_get_In String.eqb String.eqb_spec) in L.
    unfold Map_values. apply in_map_iff. exists (k, n). auto.
  - intros n k I K NS e sid tid Ie Ep R Kept.
    rewrite (edge_kept_iff _ _ _ _ _ _ E Ie Ep), andb_true_iff, !Set_has_rawIds in Kept.
    destruct Kept as [(n1 & I1 & P1) (n2 & I2 & P2)].
    assert (X : exists n', In n' (nodes g) /\ prop_of n' "id" = VStr k).
    { destruct R; subst; eauto. }
    destruct X as (n' & I' & P').
    assert (n = n').
    { apply (NoDup_map_eq nodeKey (nodes g)); auto.
      - rewrite En, Hk. apply NoDup_map_Some; exact ND.
      - rewrite K. symmetry. apply Hkey; auto. }
    subst n'. exact (NS k P').
Qed.

(** ** The fenced payload *)

(** C8, as the code has it.  Take a preamble that does not contain the
    opener [```json], any postamble, and a JSON object text, possibly
    padded with white space, that does not contain three backticks in a
    row.  On the text made of the preamble, the tagged fence around the
    JSON and the postamble, the pipeline returns the graph the object
    encodes, sanitised, with the trimmed preamble as summary; it throws
    only if sanitising does. *)
Theorem C8_fenced_object_is_recovered (pre post ws1 mid ws2 : string)
    (chunks supports : Value) (queries : list string)
    (sm sm' : SourceMap) (im : IndexMap) (clean : list Value)
    (parsed : Value) (rawNodes rawEdges : list Value) :
  includes "```json" pre = false ->
  includes "```" mid = false ->
  all_space ws1 = true ->
  all_space ws2 = true ->
  extractSources chunks = Ok (sm, im) ->
  linkSupports im sm supports = Ok (sm', clean) ->
  JSON_parse ("{" ++ mid ++ "}") = Some parsed ->
  prop_of parsed "nodes" = VArr rawNodes ->
  prop_of parsed "edges" = VArr rawEdges ->
  processGeminiOutput
    (pre ++ newline ++ "```json" ++ newline ++ (ws1 ++ "{" ++ mid ++ "}" ++ ws2)
         ++ newline ++ "```" ++ newline ++ post)
    chunks supports queries =
  bind (sanitizeGraph rawNodes rawEdges) (fun cleaned =>
    Ok {| graphData := cleaned;
          sources := Map_values sm';
          searchQueries := queries;
          summary := trim pre;
          groundingSupports := clean |}).
Proof.
  intros Ipre Imid W1 W2 Hx Hl Hp Hn He. unfold processGeminiOutput.
  rewrite Hx. cbn [bind fst snd]. rewrite Hl. cbn [bind fst snd].
  rewrite isolate_fenced by assumption.
  rewrite narrowCandidate_object, Hp, Hn, He.
  destruct parsed; simpl in Hn; try discriminate. reflexivity.
Qed.

(** ** Supports *)

(** When the loop over the supports completes, it has copied every
    support, in order. *)
Lemma linkSupports_passthrough (im : IndexMap) (supports : list Value) :
  forall (sm sm' : SourceMap) (acc clean : list Value),
  foldM (supportStep im) supports (sm, acc) = Ok (sm', clean) ->
  clean = acc ++ supports.
Proof.
  induction supports as [|x l IH]; intros sm sm' acc clean; simpl.
  - intros E; inversion E. rewrite app_nil_r. reflexivity.
  - intros E. apply bind_Ok in E. destruct E as ([sm1 acc1] & E1 & E2).
    apply IH in E2. subst clean. unfold supportStep in E1.
    apply bind_Ok in E1. destruct E1 as (indices & _ & E1).
    destruct (truthy indices).
    + destruct indices; inversion E1; subst. rewrite <- app_assoc. reflexivity.
    + inversion E1; subst. rewrite <- app_assoc. reflexivity.
Qed.

(** Counting citations changes no title, no uri and no position. *)
Lemma Map_set_same_identity (u : string) (s s' : Source) (sm : SourceMap) :
  Map_get String.eqb u sm = Some s ->
  title s' = title s -> uri s' = uri s ->
  map (fun x => (title x, uri x)) (Map_values (Map_set String.eqb u s' sm)) =
  map (fun x => (title x, uri x)) (Map_values sm).
Proof.
  intros G T U.
  destruct (Map_set_present String.eqb String.eqb_spec _ s' _ _ G) as (m1 & m2 & E1 & E2 & _).
  rewrite E2, E1. unfold Map_values. rewrite !map_app. simpl. rewrite T, U. reflexivity.
Qed.

Lemma citeStep_identity (im : IndexMap) (sm : SourceMap) (chunkIndex : Value) :
  map (fun x => (title x, uri x)) (Map_values (citeStep im sm chunkIndex)) =
  map (fun x => (title x, uri x)) (Map_values sm).
Proof.
  unfold citeStep. destruct chunkIndex; try reflexivity.
  destruct (num_index n); [|reflexivity].
  destruct (Map_get Nat.eqb n0 im) as [u|]; [|reflexivity].
  destruct (negb (u =? "")); [|reflexivity].
  destruct (Map_get String.eqb u sm) as [s|] eqn:G; [|reflexivity].
  apply (Map_set_same_identity _ s); auto.
Qed.

Lemma linkSupports_identity (im : IndexMap) (sm sm' : SourceMap) (supports : Value)
    (clean : list Value) :
  linkSupports im sm supports = Ok (sm', clean) ->
  map (fun x => (title x, uri x)) (Map_values sm') =
  map (fun x => (title x, uri x)) (Map_values sm).
Proof.
  unfold linkSupports. destruct supports as [| | | | |l|];
    try (intros E; inversion E; reflexivity).
  generalize (@nil Value) as acc. revert sm.
  induction l as [|x l IH]; intros sm acc; simpl.
  - intros E; inversion E; reflexivity.
  - intros E. apply bind_Ok in E. destruct E as ([sm1 acc1] & E1 & E2).
    rewrite (IH _ _ E2). unfold supportStep in E1.
    apply bind_Ok in E1. destruct E1 as (indices & _ & E1).
    destruct (truthy indices); [|inversion E1; reflexivity].
    destruct indices as [| | | | |cs|]; inversion E1; subst.
    clear. revert sm. induction cs as [|c cs IHc]; intros sm; simpl; [reflexivity|].
    rewrite IHc. apply citeStep_identity.
Qed.

(** The lists of a result come from the two loops over the metadata. *)
Lemma pipeline_sources (text : string) (chunks supports : Value) (queries : list string)
    (r : GeminiResponse Num) :
  processGeminiOutput text chunks supports queries = Ok r ->
  exists sm im sm' clean,
    extractSources chunks = Ok (sm, im) /\
    linkSupports im sm supports = Ok (sm', clean) /\
    sources r = Map_values sm' /\
    groundingSupports r = clean.
Proof.
  unfold processGeminiOutput. intros E.
  apply bind_Ok in E. destruct E as ([sm im] & Ex & E).
  apply bind_Ok in E. destruct E as ([sm' clean] & El & E).
  exists sm, im, sm', clean. split; [exact Ex|]. split; [exact El|].
  simpl in E. destruct (isolatePayload text) as [preamble cleanText].
  destruct (JSON_parse (narrowCandidate cleanText)) as [parsed|].
  - destruct (negb (truthy parsed) || negb (isArray (prop_of parsed "nodes"))
              || negb (isArray (prop_of parsed "edges"))).
    + inversion E; auto.
    + destruct (prop_of parsed "nodes") as [| | | | |ns|]; try (inversion E; auto; fail).
      destruct (prop_of parsed "edges") as [| | | | |es|]; try (inversion E; auto; fail).
      apply bind_Ok in E. destruct E as (g & _ & E). inversion E; auto.
  - destruct (0 <? List.length (Map_values sm'))%nat; inversion E; auto.
Qed.

(** C7. In the source list of a result, the uris have pairwise different
    normal forms; these normal forms are the keys of the chunks that carry
    a non-empty web uri, in the order of their first occurrence; every
    source has the non-empty uri of such a chunk; and a chunk that carries
    none leaves the sources as they were. *)
Theorem C7_sources_unique_and_ordered (text : string) (chunks : list Value)
    (supports : Value) (queries : list string) (r : GeminiResponse Num) :
  processGeminiOutput text (VArr chunks) supports queries = Ok r ->
  NoDup (map (fun s => normalizeUri (uri s)) (sources r)) /\
  map (fun s => normalizeUri (uri s)) (sources r) = firstOccurrences (chunkKeys chunks) /\
  (forall s, In s (sources r) ->
     uri s <> "" /\ exists c, In c chunks /\ webUriOf c = Some (uri s)) /\
  (forall before c after,
     chunks = before ++ c :: after -> webUriOf c = None ->
     exists st, extractSources (VArr before) = Ok st /\
                chunkStep st (List.length before) c = Ok st).
Proof.
  intros E. destruct (pipeline_sources _ _ _ _ _ E) as (sm & im & sm' & clean & Ex & El & Es & _).
  destruct (extracted_sources_unique_and_ordered _ _ _ Ex) as (P1 & P2 & P3 & P4).
  pose proof (linkSupports_identity _ _ _ _ _ El) as Id.
  assert (U : map uri (sources r) = map uri (Map_values sm)).
  { rewrite Es. apply (f_equal (map snd)) in Id. rewrite !map_map in Id. exact Id. }
  assert (N : map (fun s => normalizeUri (uri s)) (sources r) =
              map (fun s => normalizeUri (uri s)) (Map_values sm)).
  { rewrite <- (map_map uri normalizeUri), U, map_map. reflexivity. }
  rewrite N. split; [exact P1|]. split; [exact P2|]. split; [|exact P4].
  intros s I. apply (in_map uri) in I. rewrite U in I.
  apply in_map_iff in I. destruct I as (s0 & <- & I0). exact (P3 s0 I0).
Qed.

End Properties.

(** * The repository's tests, run on the embedding *)

Definition sourcesOf (o : Outcome (GeminiResponse Z)) : option (list (Source Z)) :=
  match o with
  | Ok r => Some (sources r)
  | Throw _ => None
  end.

Definition graphOf (o : Outcome (GeminiResponse Z)) : option (GraphData Z) :=
  match o with
  | Ok r => Some (graphData r)
  | Throw _ => None
  end.

Definition testSource (t u : string) : Source Z :=
  {| title := VStr t; uri := u; citationCount := 0 |}.

Example test_valid_json_and_sources :
  processGeminiOutput
    (graphText [nodeA] [testEdge (VStr "1") (VStr "1") "self"]) (VArr [mockChunk])
    VUndefined [] =
  Ok (resultOf {| nodes := [nodeA]; edges := [testEdge (VStr "1") (VStr "1") "self"] |}
        [testSource "Test Source" "http://example.com"]).
Proof. vm_compute; reflexivity. Qed.

Example test_strip_json_fence :
  graphOf (processGeminiOutput
             ("```json" ++ newline ++ "    " ++ oneNodeJson ++ newline ++ "    ```")
             (VArr []) VUndefined []) =
  Some {| nodes := [nodeA]; edges := [] |}.
Proof. vm_compute; reflexivity. Qed.

Example test_strip_generic_fence :
  graphOf (processGeminiOutput
             ("```" ++ newline ++ "    " ++ oneNodeJson ++ newline ++ "    ```")
             (VArr []) VUndefined []) =
  Some {| nodes := [nodeA]; edges := [] |}.
Proof. vm_compute; reflexivity. Qed.

Example test_preamble_and_postamble :
  processGeminiOutput
    ("Here is the graph data you requested:" ++ newline ++ "    ```json" ++ newline
       ++ "    " ++ oneNodeJson ++ newline ++ "    ```" ++ newline
       ++ "    Hope this helps!")
    (VArr []) VUndefined [] =
  Ok {| graphData := {| nodes := [nodeA]; edges := [] |};
        sources := [];
        searchQueries := [];
        summary := "Here is the graph data you requested:";
        groundingSupports := [] |}.
Proof. vm_compute; reflexivity. Qed.

Example test_deduplicate_nodes :
  option_map (fun g => List.length (nodes g))
    (graphOf (processGeminiOutput duplicateNodesJson (VArr []) VUndefined [])) = Some 1.
Proof. vm_compute; reflexivity. Qed.

Example test_remove_broken_edges :
  option_map (@edges Z)
    (graphOf (processGeminiOutput brokenEdgeJson (VArr []) VUndefined [])) =
  Some [connectedEdge].
Proof. vm_compute; reflexivity. Qed.

Example test_malformed_json_throws :
  processGeminiOutput invalidJson (VArr []) VUndefined [] =
  Throw (Error "Failed to parse knowledge graph data from AI response.").
Proof. vm_compute; reflexivity. Qed.

(** The test 'should throw an error for invalid structure' expects a throw
    on this input; the code returns the empty graph. *)
Example test_invalid_structure_returns :
  processGeminiOutput badStructureJson (VArr []) VUndefined [] =
  Ok (resultOf emptyGraph []).
Proof. vm_compute; reflexivity. Qed.

Example test_malformed_chunks :
  sourcesOf (processGeminiOutput validJson
               (VArr [VNull; VUndefined; VObj []; VObj [("web", VNull)];
                      VObj [("web", VObj [])];
                      VObj [("web", VObj [("title", VStr "No URI")])]])
               VUndefined []) = Some [].
Proof. vm_compute; reflexivity. Qed.

Example test_unknown_source :
  sourcesOf (processGeminiOutput validJson (VArr [untitledChunk]) VUndefined []) =
  Some [testSource "Unknown Source" "http://example.com"].
Proof. vm_compute; reflexivity. Qed.

Example test_deduplicate_sources :
  sourcesOf (processGeminiOutput validJson
               (VArr [webChunk "http://example.com" (Some "Title 1");
                      webChunk "http://example.com" (Some "Title 1 Duplicate")])
               VUndefined []) =
  Some [testSource "Title 1" "http://example.com"].
Proof. vm_compute; reflexivity. Qed.

Example test_title_improved :
  sourcesOf (processGeminiOutput validJson (VArr [untitledChunk; betterChunk])
               VUndefined []) =
  Some [testSource "Better Title" "http://example.com"].
Proof. vm_compute; reflexivity. Qed.

Example test_title_kept :
  sourcesOf (processGeminiOutput validJson
               (VArr [webChunk "http://example.com" (Some "Original Title"); newTitleChunk])
               VUndefined []) =
  Some [testSource "Original Title" "http://example.com"].
Proof. vm_compute; reflexivity. Qed.

(** Citations are counted once per index that resolves to a source. *)
Example run_with_supports :
  processGeminiOutput validJson (VArr [mockChunk])
    (VArr [VObj [("groundingChunkIndices", VArr [VNum 0%Z; VNum 0%Z; VNum 3%Z])]; VObj []])
    ["q"] =
  Ok {| graphData := emptyGraph;
        sources := [{| title := VStr "Test Source"; uri := "http://example.com";
                       citationCount := 2 |}];
        searchQueries := ["q"];
        summary := "";
        groundingSupports :=
          [VObj [("groundingChunkIndices", VArr [VNum 0%Z; VNum 0%Z; VNum 3%Z])]; VObj []] |}.
Proof. vm_compute; reflexivity. Qed.

(** * The claims on concrete inputs *)

(** C4. A [null] among the supports makes the pipeline throw a
    [TypeError]: the loop reads [support.groundingChunkIndices] without
    testing [support], where the loop over the chunks tests [chunk] first
    and passes over a [null] chunk. *)
Theorem C4_null_support_throws :
  processGeminiOutput validJson (VArr []) (VArr [VNull]) [] =
    Throw (TypeError "Cannot read properties of null") /\
  linkSupports [] [] (VArr [@VNull Z]) =
    Throw (TypeError "Cannot read properties of null") /\
  processGeminiOutput validJson (VArr [VNull]) (VArr []) [] =
    Ok (resultOf emptyGraph []).
Proof.
  repeat split; vm_compute; reflexivity.
Qed.

(** C1 on the input of the broken-edge test. *)
Lemma C1_witness :
  let r := resultOf {| nodes := [nodeA; nodeB];
                       edges := [rewriteEdge connectedEdge "1" "2"] |} [] in
  processGeminiOutput brokenEdgeJson (VArr []) (VArr []) [] = Ok r /\
  (forall e, In e (edges (graphData r)) ->
     exists n1 n2,
       In n1 (nodes (graphData r)) /\ In n2 (nodes (graphData r)) /\
       prop_of e "source" = prop_of n1 "id" /\
       prop_of e "target" = prop_of n2 "id").
Proof.
  intros r.
  assert (E : processGeminiOutput brokenEdgeJson (VArr []) (VArr []) [] = Ok r)
    by (vm_compute; reflexivity).
  split; [exact E|].
  exact (proj1 (C1_edges_reference_surviving_nodes _ _ _ _ _ E)).
Defined.

(** C2 fails on the input of the repository's own deduplication test: the
    node kept for id ["1"] is the second one. *)
Lemma C2_counterexample_second_node_wins :
  processGeminiOutput duplicateNodesJson (VArr []) (VArr []) [] =
    Ok (resultOf {| nodes := [nodeADuplicate]; edges := [] |} []) /\
  dedupFirstWins [nodeA; nodeADuplicate] = [Some nodeA] /\
  nodeADuplicate <> nodeA.
Proof.
  repeat split; try (vm_compute; reflexivity). discriminate.
Qed.

(** C2, as the code has it, on the input of the deduplication test. *)
Lemma C2_witness :
  let g := {| nodes := [nodeADuplicate]; edges := [] |} in
  sanitizeGraph [nodeA; nodeADuplicate] [] = Ok g /\
  map Some (nodes g) = dedupLastWins [nodeA; nodeADuplicate] /\
  map nodeKey (nodes g) = map Some (firstOccurrences (nodeKeys [nodeA; nodeADuplicate])).
Proof.
  intros g.
  assert (E : sanitizeGraph [nodeA; nodeADuplicate] [] = Ok g) by (vm_compute; reflexivity).
  split; [exact E|].
  pose proof (C2_dedup_by_coerced_id_last_wins _ _ _ E) as (P1 & P2 & _).
  split; [exact P1 | exact P2].
Defined.

(** C3 on the malformed text of the tests, with one grounding chunk. *)
Lemma C3_witness :
  let placeholderFree := {| title := VStr "Test Source";
                            uri := "http://example.com";
                            citationCount := 0 |} in
  extractSources (VArr [mockChunk]) =
    Ok ([("http://example.com", placeholderFree)], [(0, "http://example.com")]) /\
  linkSupports [(0, "http://example.com")] [("http://example.com", placeholderFree)]
    (VArr []) = Ok ([("http://example.com", placeholderFree)], []) /\
  JSON_parse (narrowCandidate (snd (isolatePayload invalidJson))) = None /\
  processGeminiOutput invalidJson (VArr [mockChunk]) (VArr []) [] =
    Ok (resultOf emptyGraph [placeholderFree]).
Proof.
  intros src.
  assert (Hx : extractSources (VArr [mockChunk]) =
               Ok ([("http://example.com", src)], [(0, "http://example.com")]))
    by (vm_compute; reflexivity).
  assert (Hl : linkSupports [(0, "http://example.com")] [("http://example.com", src)]
                 (VArr []) = Ok ([("http://example.com", src)], []))
    by reflexivity.
  assert (Hp : JSON_parse (narrowCandidate (snd (isolatePayload invalidJson))) = None)
    by (vm_compute; reflexivity).
  split; [exact Hx|]. split; [exact Hl|]. split; [exact Hp|].
  rewrite (C3_parse_failure_outcome invalidJson _ _ [] _ _ _ _ Hx Hl Hp).
  vm_compute; reflexivity.
Defined.

(** C5 on the input of the invalid-structure test. *)
Lemma C5_witness :
  extractSources (VArr []) = Ok ([], []) /\
  linkSupports [] [] (VArr []) = Ok ([], []) /\
  JSON_parse (narrowCandidate (snd (isolatePayload badStructureJson))) =
    Some (VObj [("foo", VStr "bar")]) /\
  processGeminiOutput badStructureJson (VArr []) (VArr []) [] =
    Ok (resultOf emptyGraph []).
Proof.
  assert (Hx : extractSources (VArr []) = Ok (@nil (string * Source Z), @nil (nat * string)))
    by reflexivity.
  assert (Hl : linkSupports [] [] (VArr []) = Ok (@nil (string * Source Z), @nil (Value Z)))
    by reflexivity.
  assert (Hp : JSON_parse (narrowCandidate (snd (isolatePayload badStructureJson))) =
               Some (VObj [("foo", VStr "bar")]))
    by (vm_compute; reflexivity).
  split; [exact Hx|]. split; [exact Hl|]. split; [exact Hp|].
  rewrite (C5_invalid_shape_never_throws badStructureJson _ _ [] _ _ _ _ _ Hx Hl Hp
             (or_introl eq_refl)).
  vm_compute; reflexivity.
Defined.

(** C6 on three chunks for one uri: no title, a title, another title. *)
Lemma C6_witness :
  let better := {| title := VStr "Better Title";
                   uri := "http://example.com";
                   citationCount := 0 |} in
  let final := ([("http://example.com", better)],
                [(0, "http://example.com"); (1, "http://example.com");
                 (2, "http://example.com")]) in
  extractSources (VArr ([untitledChunk] ++ betterChunk :: [newTitleChunk])) = Ok final /\
  Map_get String.eqb "http://example.com" (fst final) = Some better.
Proof.
  intros better final.
  assert (E : extractSources (VArr ([untitledChunk] ++ betterChunk :: [newTitleChunk]))
              = Ok final) by (vm_compute; reflexivity).
  split; [exact E|].
  destruct (C6_title_created_upgraded_once _ _ _ _ E) as (st1 & st2 & E1 & E2 & P).
  destruct (P "http://example.com" eq_refl) as (_ & _ & Stable).
  apply Stable; [|reflexivity].
  vm_compute in E1. inversion E1; subst st1.
  vm_compute in E2. inversion E2; subst st2. reflexivity.
Defined.

(** C7 on chunks with the same uri written with and without a slash. *)
Lemma C7_witness :
  let chunks := [untitledChunk; VNull; slashChunk; betterChunk;
                 webChunk "http://other.org" None] in
  let r := resultOf emptyGraph
             [{| title := VStr "Better Title"; uri := "http://example.com";
                 citationCount := 0 |};
              {| title := VStr "Unknown Source"; uri := "http://other.org";
                 citationCount := 0 |}] in
  processGeminiOutput validJson (VArr chunks) (VArr []) [] = Ok r /\
  NoDup (map (fun s => normalizeUri (uri s)) (sources r)) /\
  map (fun s => normalizeUri (uri s)) (sources r) = firstOccurrences (chunkKeys chunks).
Proof.
  intros chunks r.
  assert (E : processGeminiOutput validJson (VArr chunks) (VArr []) [] = Ok r)
    by (vm_compute; reflexivity).
  split; [exact E|].
  pose proof (C7_sources_unique_and_ordered _ _ _ _ _ E) as (P1 & P2 & _).
  split; [exact P1 | exact P2].
Defined.

(** C8 fails when the preamble itself contains the opener: the pattern
    matches there, the captured payload is empty, and with no source the
    pipeline throws, although the fenced JSON is a valid graph with one
    node. *)
Lemma C8_counterexample_opener_in_preamble :
  processGeminiOutput
    ("```json" ++ newline ++ "```json" ++ newline ++ oneNodeJson ++ newline
       ++ "```" ++ newline ++ "")
    (VArr []) (VArr []) [] = Throw parseFailure /\
  JSON_parse oneNodeJson = Some (VObj [("nodes", VArr [nodeA]); ("edges", VArr [])]) /\
  sanitizeGraph [nodeA] [] = Ok {| nodes := [nodeA]; edges := [] |}.
Proof.
  repeat split; vm_compute; reflexivity.
Qed.

(** C8, as the code has it, on a text whose preamble has backticks and whose postamble has the opener. *)
Lemma C8_witness :
  let pre := "Here is the `graph` data you requested:" in
  let post := "Hope this helps! ```json" in
  includes "```json" pre = false /\
  includes "```" oneNodeInner = false /\
  JSON_parse ("{" ++ oneNodeInner ++ "}") =
    Some (VObj [("nodes", VArr [nodeA]); ("edges", VArr [])]) /\
  processGeminiOutput
    (pre ++ newline ++ "```json" ++ newline ++ (("  " ++ newline) ++ "{" ++ oneNodeInner ++ "}" ++ "")
       ++ newline ++ "```" ++ newline ++ post)
    (VArr []) (VArr []) [] =
  Ok {| graphData := {| nodes := [nodeA]; edges := [] |};
        sources := [];
        searchQueries := [];
        summary := pre;
        groundingSupports := [] |}.
Proof.
  intros pre post.
  assert (Ipre : includes "```json" pre = false) by (vm_compute; reflexivity).
  assert (Imid : includes "```" oneNodeInner = false) by (vm_compute; reflexivity).
  assert (Hp : JSON_parse ("{" ++ oneNodeInner ++ "}") =
               Some (VObj [("nodes", VArr [nodeA]); ("edges", VArr [])]))
    by (vm_compute; reflexivity).
  split; [exact Ipre|]. split; [exact Imid|]. split; [exact Hp|].
  rewrite (C8_fenced_object_is_recovered pre post ("  " ++ newline) oneNodeInner ""
             (VArr []) (VArr []) [] [] [] [] [] _ [nodeA] []
             Ipre Imid eq_refl eq_refl eq_refl eq_refl Hp eq_refl eq_refl).
  vm_compute; reflexivity.
Defined.

(** C9 fails when the upgrading chunk spells the uri differently: the
    stored uri, first [http://example.com/], becomes [http://example.com]. *)
Lemma C9_counterexample_uri_replaced :
  option_map (fun st => Map_values (fst st))
    (match extractSources (VArr [slashChunk]) with Ok st => Some st | Throw _ => None end) =
    Some [{| title := VStr "Unknown Source"; uri := "http://example.com/";
             citationCount := 0 |}] /\
  option_map (fun st => Map_values (fst st))
    (match extractSources (VArr [slashChunk; betterChunk]) with
     | Ok st => Some st
     | Throw _ => None
     end) =
    Some [{| title := VStr "Better Title"; uri := "http://example.com";
             citationCount := 0 |}].
Proof.
  split; vm_compute; reflexivity.
Qed.

(** C9, as the code has it, on the two chunks of the counterexample. *)
Lemma C9_witness :
  let first := {| title := VStr "Unknown Source"; uri := "http://example.com/";
                  citationCount := 0 |} in
  let st1 := ([("http://example.com", first)], [(0, "http://example.com")]) in
  let st2 := ([("http://example.com",
                {| title := VStr "Better Title"; uri := "http://example.com";
                   citationCount := 0 |})],
              [(0, "http://example.com"); (1, "http://example.com")]) in
  extractSources (VArr [slashChunk]) = Ok st1 /\
  chunkStep st1 1 betterChunk = Ok st2 /\
  exists l1 l2,
    Map_values (fst st1) = l1 ++ first :: l2 /\
    Map_values (fst st2) =
      l1 ++ {| title := webTitleOf betterChunk; uri := "http://example.com";
               citationCount := 0 |} :: l2 /\
    normalizeUri "http://example.com" = normalizeUri (uri first).
Proof.
  intros first st1 st2.
  assert (E1 : extractSources (VArr [slashChunk]) = Ok st1) by (vm_compute; reflexivity).
  assert (E2 : chunkStep st1 (List.length [slashChunk]) betterChunk = Ok st2)
    by (vm_compute; reflexivity).
  split; [exact E1|]. split; [exact E2|].
  exact (C9_upgrade_keeps_position_replaces_uri [slashChunk] betterChunk st1 st2
           "http://example.com" first E1 E2 eq_refl eq_refl eq_refl eq_refl).
Defined.

(** C10 fails for a node whose id is the number 0: the id is not a string,
    and the node does not survive.  Nor does a node with the number 7 as
    id when a later node has the string ["7"]. *)
Lemma C10_counterexample_zero_id_dropped :
  JSON_parse (graphText [nodeZero] []) =
    Some (VObj [("nodes", VArr [nodeZero]); ("edges", VArr [])]) /\
  prop_of nodeZero "id" = VNum 0%Z /\
  processGeminiOutput (graphText [nodeZero] []) (VArr []) (VArr []) [] =
    Ok (resultOf emptyGraph []) /\
  processGeminiOutput (graphText [nodeSeven; testNode (VStr "7") "Seven again"] [])
    (VArr []) (VArr []) [] =
    Ok (resultOf {| nodes := [testNode (VStr "7") "Seven again"]; edges := [] |} []).
Proof.
  repeat split; vm_compute; reflexivity.
Qed.

(** C10, as the code has it, on a node with the number 7 as id and an edge from it to itself. *)
Lemma C10_witness :
  let g := {| nodes := [nodeSeven]; edges := [] |} in
  sanitizeGraph [nodeZero; nodeSeven] [selfEdgeSeven] = Ok g /\
  In nodeSeven (nodes g) /\
  ~ In (rewriteEdge selfEdgeSeven "7" "7") (edges g).
Proof.
  intros g.
  assert (E : sanitizeGraph [nodeZero; nodeSeven] [selfEdgeSeven] = Ok g)
    by (vm_compute; reflexivity).
  split; [exact E|].
  pose proof (C10_strict_match_against_raw_ids _ _ _ E) as (_ & _ & _ & Last & Dropped).
  split.
  - apply (Last nodeSeven "7"). vm_compute; reflexivity.
  - apply (Dropped nodeSeven "7" (or_introl eq_refl) eq_refl) with (e := selfEdgeSeven).
    + intros s X. discriminate X.
    + left; reflexivity.
    + reflexivity.
    + left; reflexivity.
Defined.

(** * Further properties of the pipeline *)

Section MetadataProperties.
Context {Num : Type} `{JsNumber Num} `{JsonParser Num}.

#[local] Abbreviation Value := (Value Num).
#[local] Abbreviation Source := (Source Num).

(** ** The index map *)

Lemma nth_error_snoc_last {A : Type} (l : list A) (x : A) :
  nth_error (l ++ [x]) (List.length l) = Some x.
Proof.
  rewrite nth_error_app2 by lia. rewrite Nat.sub_diag. reflexivity.
Qed.

Lemma index_map_lookup (chunks : list Value) (sm : SourceMap) (im : IndexMap) :
  extractSources (VArr chunks) = Ok (sm, im) ->
  forall i,
    Map_get Nat.eqb i im =
    match nth_error chunks i with
    | Some c => option_map normalizeUri (webUriOf c)
    | None => None
    end.
Proof.
  unfold extractSources. revert sm im.
  induction chunks as [|c l IH] using rev_ind; intros sm im E i.
  - inversion E; subst. destruct i; reflexivity.
  - rewrite extractFrom_snoc in E. apply bind_Ok in E. destruct E as ([sm0 im0] & E0 & Es).
    pose proof (IH _ _ E0) as Hi. apply chunkStep_spec in Es.
    destruct (Nat.lt_trichotomy i (List.length l)) as [L|[L|L]].
    + rewrite nth_error_app1 by exact L. rewrite <- Hi.
      destruct (webUriOf c) as [u|].
      * destruct Es as [-> _]. apply (Map_get_set_neq _ Nat.eqb_spec). lia.
      * destruct Es as [_ ->]. reflexivity.
    + subst i. rewrite nth_error_snoc_last.
      destruct (webUriOf c) as [u|].
      * destruct Es as [-> _]. apply (Map_get_set_eq _ Nat.eqb_spec).
      * destruct Es as [_ ->]. rewrite Hi.
        rewrite (proj2 (nth_error_None l (List.length l))) by lia. reflexivity.
    + rewrite (proj2 (nth_error_None (l ++ [c]) i)) by (rewrite length_app; simpl; lia).
      specialize (Hi i). rewrite (proj2 (nth_error_None l i)) in Hi by lia.
      destruct (webUriOf c) as [u|].
      * destruct Es as [-> _]. rewrite (Map_get_set_neq _ Nat.eqb_spec) by lia. exact Hi.
      * destruct Es as [_ ->]. exact Hi.
Qed.

(** X1. The index map is positional: index [i] is bound exactly when the
    [i]-th chunk carries a non-empty web uri, and then to the normal form
    of that uri, also when an earlier chunk already gave that source. *)
Theorem index_map_is_positional (chunks : list Value) (sm : SourceMap) (im : IndexMap) :
  extractSources (VArr chunks) = Ok (sm, im) ->
  forall i,
    Map_get Nat.eqb i im =
    match nth_error chunks i with
    | Some c => option_map normalizeUri (webUriOf c)
    | None => None
    end.
Proof.
  exact (index_map_lookup chunks sm im).
Qed.

(** ** Citation counts *)

Lemma cited_zero (s : Source) : cited 0 s = s.
Proof.
  destruct s as [t u c]. unfold cited. simpl. rewrite Nat.add_0_r. reflexivity.
Qed.

Lemma cited_cited (n m : nat) (s : Source) : cited m (cited n s) = cited (n + m) s.
Proof.
  unfold cited. simpl. rewrite Nat.add_assoc. reflexivity.
Qed.

Lemma citeStep_get (im : IndexMap) (sm : SourceMap) (chunkIndex : Value) (k : string) :
  Map_get String.eqb k (citeStep im sm chunkIndex) =
  option_map (cited (if hits im k chunkIndex then 1 else 0)) (Map_get String.eqb k sm).
Proof.
  assert (Same : Map_get String.eqb k sm =
                 option_map (cited 0) (Map_get String.eqb k sm)).
  { destruct (Map_get String.eqb k sm); simpl; [rewrite cited_zero|]; reflexivity. }
  unfold hits, citedKey, citeStep.
  destruct chunkIndex as [| | |n| | |]; try exact Same.
  destruct (num_index n) as [i|]; [|exact Same].
  destruct (Map_get Nat.eqb i im) as [u|]; [|exact Same].
  destruct (u =? "") eqn:Eu; simpl; [exact Same|].
  destruct (String.eqb_spec u k) as [->|N].
  - destruct (Map_get String.eqb k sm) as [s|] eqn:G; simpl.
    + rewrite (Map_get_set_eq _ String.eqb_spec). unfold cited.
      f_equal. f_equal. lia.
    + exact G.
  - destruct (Map_get String.eqb u sm) as [s|]; [|exact Same].
    rewrite (Map_get_set_neq _ String.eqb_spec) by exact N. exact Same.
Qed.

Lemma citeStep_fold_get (im : IndexMap) (l : list Value) (k : string) :
  forall sm,
  Map_get String.eqb k (fold_left (citeStep im) l sm) =
  option_map (cited (List.length (filter (hits im k) l))) (Map_get String.eqb k sm).
Proof.
  induction l as [|x l IH]; intros sm; simpl.
  - destruct (Map_get String.eqb k sm); simpl; [rewrite cited_zero|]; reflexivity.
  - rewrite IH, citeStep_get.
    destruct (Map_get String.eqb k sm) as [s|]; simpl; [|reflexivity].
    rewrite cited_cited. destruct (hits im k x); reflexivity.
Qed.

Lemma supportStep_get (im : IndexMap) (sm sm' : SourceMap) (acc acc' : list Value)
    (support : Value) (k : string) :
  supportStep im (sm, acc) support = Ok (sm', acc') ->
  Map_get String.eqb k sm' =
  option_map (cited (List.length (filter (hits im k) (indicesOf support))))
             (Map_get String.eqb k sm).
Proof.
  unfold supportStep, indicesOf. intros E.
  apply bind_Ok in E. destruct E as (indices & Ei & E).
  apply get_prop_Ok in Ei. subst indices.
  assert (Same : Map_get String.eqb k sm =
                 option_map (cited 0) (Map_get String.eqb k sm)).
  { destruct (Map_get String.eqb k sm); simpl; [rewrite cited_zero|]; reflexivity. }
  destruct (truthy (prop_of support "groundingChunkIndices")) eqn:T.
  - destruct (prop_of support "groundingChunkIndices"); inversion E; subst.
    apply citeStep_fold_get.
  - inversion E; subst.
    destruct (prop_of support "groundingChunkIndices"); try exact Same.
    discriminate T.
Qed.

Lemma citeStep_keys (im : IndexMap) (sm : SourceMap) (chunkIndex : Value) :
  Map_keys (citeStep im sm chunkIndex) = Map_keys sm.
Proof.
  unfold citeStep. destruct chunkIndex as [| | |n| | |]; try reflexivity.
  destruct (num_index n) as [i|]; [|reflexivity].
  destruct (Map_get Nat.eqb i im) as [u|]; [|reflexivity].
  destruct (negb (u =? "")); [|reflexivity].
  destruct (Map_get String.eqb u sm) as [s|] eqn:G; [|reflexivity].
  rewrite (Map_keys_set _ String.eqb_spec), G. reflexivity.
Qed.

Lemma supportStep_keys (im : IndexMap) (sm sm' : SourceMap) (acc acc' : list Value)
    (support : Value) :
  supportStep im (sm, acc) support = Ok (sm', acc') -> Map_keys sm' = Map_keys sm.
Proof.
  unfold supportStep. intros E. apply bind_Ok in E. destruct E as (indices & _ & E).
  destruct (truthy indices); [|inversion E; reflexivity].
  destruct indices as [| | | | |l|]; inversion E; subst.
  clear. revert sm. induction l as [|x l IH]; intros sm; simpl; [reflexivity|].
  rewrite IH. apply citeStep_keys.
Qed.

(** The loop over the supports: keys and order stay, and the source under
    [k] gains one citation per index that stands for [k]. *)
Lemma link_loop (im : IndexMap) (supports : list Value) :
  forall (sm sm' : SourceMap) (acc clean : list Value),
  foldM (supportStep im) supports (sm, acc) = Ok (sm', clean) ->
  Map_keys sm' = Map_keys sm /\
  forall k, Map_get String.eqb k sm' =
            option_map (cited (citations im k supports)) (Map_get String.eqb k sm).
Proof.
  unfold citations.
  induction supports as [|x l IH]; intros sm sm' acc clean; simpl.
  - intros E; inversion E; subst. split; [reflexivity|]. intros k.
    destruct (Map_get String.eqb k sm'); simpl; [rewrite cited_zero|]; reflexivity.
  - intros E. apply bind_Ok in E. destruct E as ([sm1 acc1] & E1 & E2).
    destruct (IH _ _ _ _ E2) as [K G]. split.
    + rewrite K. exact (supportStep_keys _ _ _ _ _ _ E1).
    + intros k. rewrite G, (supportStep_get _ _ _ _ _ _ k E1).
      destruct (Map_get String.eqb k sm) as [s|]; simpl; [|reflexivity].
      rewrite cited_cited, filter_app, length_app. reflexivity.
Qed.

(** Extraction stores every source with a count of zero. *)
Lemma extracted_counts_zero (chunks : list Value) (sm : SourceMap) (im : IndexMap) :
  extractFrom chunks 0 ([], []) = Ok (sm, im) ->
  forall k s, Map_get String.eqb k sm = Some s -> citationCount s = 0.
Proof.
  revert sm im. induction chunks as [|c l IH] using rev_ind; intros sm im.
  - intros E; inversion E; subst. simpl; discriminate.
  - rewrite extractFrom_snoc. intros E.
    apply bind_Ok in E. destruct E as ([sm0 im0] & E0 & Es).
    pose proof (IH _ _ E0) as Z. apply chunkStep_spec in Es.
    destruct (webUriOf c) as [u|]; [|destruct Es as [-> _]; exact Z].
    destruct Es as [_ Es].
    assert (New : forall k s,
              Map_get String.eqb k (Map_set String.eqb (normalizeUri u) (sourceOf u c) sm0)
              = Some s -> citationCount s = 0).
    { intros k s G. destruct (String.eqb_spec (normalizeUri u) k) as [E|N].
      - subst k. rewrite (Map_get_set_eq _ String.eqb_spec) in G. inversion G; reflexivity.
      - rewrite (Map_get_set_neq _ String.eqb_spec) in G by exact N. eauto. }
    destruct (Map_get String.eqb (normalizeUri u) sm0) as [existing|];
      [destruct (is_str (title existing) placeholder && truthy (webTitleOf c))|];
      subst sm; auto.
Qed.

Lemma citedKey_positional (chunks : list Value) (sm : SourceMap) (im : IndexMap)
    (chunkIndex : Value) :
  extractSources (VArr chunks) = Ok (sm, im) ->
  citedKey im chunkIndex = citedChunkKey chunks chunkIndex.
Proof.
  intros E. unfold citedKey, citedChunkKey.
  destruct chunkIndex as [| | |n| | |]; try reflexivity.
  destruct (num_index n) as [i|]; [|reflexivity].
  rewrite (index_map_lookup _ _ _ E i).
  destruct (nth_error chunks i) as [c|]; [|reflexivity].
  destruct (webUriOf c); reflexivity.
Qed.

(** X2. In a result, the citation count of a source is the number of
    indices, over all supports, that are numbers naming a chunk with the
    same key as the source; an index that is out of range, not a number,
    or names a chunk without uri or with the uri [/] counts for nothing. *)
Theorem citation_count_of_each_source (text : string) (chunks supports : list Value)
    (queries : list string) (r : GeminiResponse Num) :
  processGeminiOutput text (VArr chunks) (VArr supports) queries = Ok r ->
  forall s, In s (sources r) ->
    citationCount s = chunkCitations chunks (normalizeUri (uri s)) supports.
Proof.
  intros E s I.
  destruct (pipeline_sources _ _ _ _ _ E) as (sm & im & sm' & clean & Ex & El & Es & _).
  destruct (extract_invariant _ _ _ Ex) as [Hk Hs].
  pose proof (extracted_counts_zero _ _ _ Ex) as Z.
  unfold linkSupports in El. destruct (link_loop _ _ _ _ _ _ El) as [K G].
  assert (ND : NoDup (Map_keys sm')) by (rewrite K, Hk; apply NoDup_firstOccurrences).
  rewrite Es in I. unfold Map_values in I. apply in_map_iff in I.
  destruct I as ([k s'] & <- & I). simpl.
  apply (In_Map_get String.eqb String.eqb_spec _ _ _ ND) in I.
  rewrite G in I. destruct (Map_get String.eqb k sm) as [s0|] eqn:G0; [|discriminate].
  simpl in I. inversion I; subst s'. simpl.
  destruct (Hs _ _ G0) as [N _]. rewrite (Z _ _ G0), N. simpl.
  unfold citations, chunkCitations. f_equal. apply filter_ext.
  intros ci. unfold hits. rewrite (citedKey_positional _ _ _ ci Ex). reflexivity.
Qed.

(** ** What passes through *)

(** X3. A result carries the supports it was given, all of them and in
    order (none when the argument is not an array), the queries it was
    given, and the summary that the text alone determines. *)
Theorem supports_and_queries_pass_through (text : string) (chunks supports : Value)
    (queries : list string) (r : GeminiResponse Num) :
  processGeminiOutput text chunks supports queries = Ok r ->
  groundingSupports r = match supports with VArr l => l | _ => [] end /\
  searchQueries r = queries /\
  summary r = fst (isolatePayload text).
Proof.
  unfold processGeminiOutput. intros E.
  apply bind_Ok in E. destruct E as ([sm im] & Ex & E).
  apply bind_Ok in E. destruct E as ([sm' clean] & El & E).
  assert (C : clean = match supports with VArr l => l | _ => [] end).
  { unfold linkSupports in El. simpl in El.
    destruct supports as [| | | | |l|]; try (inversion El; reflexivity).
    exact (linkSupports_passthrough _ _ _ _ _ _ El). }
  simpl in E. destruct (isolatePayload text) as [preamble cleanText]. simpl.
  destruct (JSON_parse (narrowCandidate cleanText)) as [parsed|].
  - destruct (negb (truthy parsed) || negb (isArray (prop_of parsed "nodes"))
              || negb (isArray (prop_of parsed "edges"))).
    + inversion E; subst; auto.
    + destruct (prop_of parsed "nodes") as [| | | | |ns|];
        try (inversion E; subst; auto; fail).
      destruct (prop_of parsed "edges") as [| | | | |es|];
        try (inversion E; subst; auto; fail).
      apply bind_Ok in E. destruct E as (g & _ & E). inversion E; subst; auto.
  - destruct (0 <? List.length (Map_values sm'))%nat; inversion E; subst; auto.
Qed.

(** ** When the loops over the metadata throw *)

Lemma chunkStep_isOk (st : SourceMap * IndexMap) (index : nat) (chunk : Value) :
  isOk (chunkStep st index chunk) = chunkWellFormed chunk.
Proof.
  unfold chunkStep, chunkWellFormed. destruct st as [sm im].
  destruct (truthy chunk && truthy (prop_of chunk "web")); [|reflexivity].
  destruct (prop_of (prop_of chunk "web") "uri") as [| |b|n|u|l|fs]; simpl; try reflexivity.
  - destruct b; reflexivity.
  - destruct (num_truthy n); reflexivity.
  - destruct (negb (u =? "")); [|reflexivity].
    destruct (Map_get String.eqb (normalizeUri u) sm) as [existing|]; [|reflexivity].
    destruct (is_str (title existing) placeholder && truthy _); reflexivity.
Qed.

Lemma forEachIndexed_isOk {A B : Type} (f : A -> nat -> B -> Outcome A) (ok : B -> bool) :
  (forall a i x, isOk (f a i x) = ok x) ->
  forall l i a, isOk (forEachIndexed f l i a) = forallb ok l.
Proof.
  intros F. induction l as [|x l IH]; intros i a; simpl; [reflexivity|].
  rewrite <- (F a i x). destruct (f a i x) as [a'|e]; simpl; [apply IH | reflexivity].
Qed.

Lemma foldM_isOk {A B : Type} (f : A -> B -> Outcome A) (ok : B -> bool) :
  (forall a x, isOk (f a x) = ok x) ->
  forall l a, isOk (foldM f l a) = forallb ok l.
Proof.
  intros F. induction l as [|x l IH]; intros a; simpl; [reflexivity|].
  rewrite <- (F a x). destruct (f a x) as [a'|e]; simpl; [apply IH | reflexivity].
Qed.

Lemma supportStep_isOk (im : IndexMap) (st : SourceMap * list Value) (support : Value) :
  isOk (supportStep im st support) = supportWellFormed support.
Proof.
  unfold supportStep, supportWellFormed, get_prop. destruct st as [sm acc].
  destruct support; simpl; try reflexivity.
  destruct (match Map_get String.eqb "groundingChunkIndices" fields with
            | Some x => x
            | None => VUndefined
            end) as [| |b|n|u|l|fs]; simpl; try reflexivity.
  - destruct b; reflexivity.
  - destruct (num_truthy n); reflexivity.
  - destruct (negb (u =? "")); reflexivity.
Qed.

(** X4. The loop over the chunks completes exactly when every chunk with a
    truthy web uri has a string there; so [null], [undefined], chunks
    without [web] or without [uri] never make it throw, and a uri that is
    a number, [true], an array or an object always does. *)
Theorem extraction_completes_iff (chunks : list Value) :
  isOk (extractSources (VArr chunks)) = forallb chunkWellFormed chunks.
Proof.
  unfold extractSources, extractFrom.
  apply forEachIndexed_isOk. intros a i x. apply chunkStep_isOk.
Qed.

(** X5. The loop over the supports completes exactly when no support is
    [null] or [undefined] and every truthy [groundingChunkIndices] is an
    array; the indices themselves are never a cause of failure. *)
Theorem linking_completes_iff (im : IndexMap) (sm : SourceMap) (supports : list Value) :
  isOk (linkSupports im sm (VArr supports)) = forallb supportWellFormed supports.
Proof.
  unfold linkSupports. apply foldM_isOk. intros a x. apply supportStep_isOk.
Qed.

End MetadataProperties.

Section SanitizerProperties.
Context {Num : Type} `{JsNumber Num} `{JsonParser Num}.

#[local] Abbreviation Value := (Value Num).

(** ** When the sanitiser throws *)

Lemma nodeStep_isOk (um : list (string * Value)) (n : Value) :
  isOk (nodeStep um n) = nodeCoercible n.
Proof.
  unfold nodeStep, nodeCoercible.
  destruct (truthy n && truthy (prop_of n "id")); [|reflexivity].
  destruct (js_String (prop_of n "id")); reflexivity.
Qed.

Lemma edgeStep_isOk (ids acc : list Value) (e : Value) :
  isOk (edgeStep ids acc e) = edgeCoercible e.
Proof.
  rewrite edgeStep_eq. unfold edgeCoercible.
  destruct (edgeEndpoints e) as [[sid tid]|]; simpl; [|reflexivity].
  destruct (Set_has ids sid && Set_has ids tid); reflexivity.
Qed.

Lemma mapM_ids_total (l : list Value) :
  (forall n, In n l -> truthy n = true) ->
  mapM (fun n => get_prop n "id") l = Ok (rawIds l).
Proof.
  induction l as [|n l IH]; intros T; simpl; [reflexivity|].
  assert (Tn : truthy n = true) by (apply T; simpl; auto).
  rewrite IH by (intros x I; apply T; simpl; auto).
  destruct n; simpl in *; try discriminate; reflexivity.
Qed.

Lemma dedup_values_truthy (rawNodes : list Value) (um : list (string * Value)) :
  dedupNodes rawNodes = Ok um ->
  forall n, In n (Map_values um) -> truthy n = true.
Proof.
  intros E n I. destruct (dedup_values _ _ E) as (_ & Hk & _).
  apply (in_map nodeKey) in I. rewrite Hk in I.
  apply in_map_iff in I. destruct I as (k & K & _).
  symmetry in K. apply nodeKey_truthy in K. tauto.
Qed.

(** X6. The sanitiser completes exactly when the id of every node that
    has a truthy one can be printed and both endpoints of every edge can
    be read and printed; reading the ids of the kept nodes never throws.
    An edge that is [null] therefore makes it throw, where an edge to a
    missing node is only dropped. *)
Theorem sanitizer_completes_iff (rawNodes rawEdges : list Value) :
  isOk (sanitizeGraph rawNodes rawEdges) =
  forallb nodeCoercible rawNodes && forallb edgeCoercible rawEdges.
Proof.
  unfold sanitizeGraph.
  rewrite <- (foldM_isOk nodeStep nodeCoercible nodeStep_isOk rawNodes []).
  fold (dedupNodes rawNodes).
  destruct (dedupNodes rawNodes) as [um|e] eqn:Eu; simpl; [|reflexivity].
  rewrite (mapM_ids_total _ (dedup_values_truthy _ _ Eu)). simpl.
  rewrite <- (foldM_isOk (edgeStep (rawIds (Map_values um))) edgeCoercible
                (edgeStep_isOk _) rawEdges []).
  unfold filterEdges.
  destruct (foldM (edgeStep (rawIds (Map_values um))) rawEdges []); reflexivity.
Qed.

(** ** What the filter keeps of an edge *)

Lemma Map_get_set_other {V : Type} (k k' : string) (v : V) (m : list (string * V)) :
  k <> k' -> Map_get String.eqb k' (Map_set String.eqb k v m) = Map_get String.eqb k' m.
Proof.
  apply (Map_get_set_neq _ String.eqb_spec).
Qed.

Lemma rewriteEdge_other_props (fs : list (string * Value)) (sid tid k : string) :
  k <> "source" -> k <> "target" ->
  prop_of (rewriteEdge (VObj fs) sid tid) k = prop_of (VObj fs) k.
Proof.
  intros Ns Nt. unfold rewriteEdge, prop_of. simpl.
  rewrite !Map_get_set_other by congruence. reflexivity.
Qed.

(** X7. The output edges are the input edges that pass the test, in input
    order and as often as they occur: each is its input edge with source
    and target replaced by the coerced strings, and every other property
    of an object edge, such as its relation, is as in the input. *)
Theorem kept_edges_in_order_with_their_properties (rawNodes rawEdges : list Value)
    (g : GraphData Num) :
  sanitizeGraph rawNodes rawEdges = Ok g ->
  Forall2
    (fun e o =>
       exists sid tid,
         edgeEndpoints e = Ok (sid, tid) /\
         o = rewriteEdge e sid tid /\
         prop_of o "source" = VStr sid /\
         prop_of o "target" = VStr tid /\
         forall fs k, e = VObj fs -> k <> "source" -> k <> "target" ->
                      prop_of o k = prop_of e k)
    (filter (edgePasses (rawIds (nodes g))) rawEdges)
    (edges g).
Proof.
  intros E. destruct (sanitizeGraph_spec _ _ _ E) as (um & _ & _ & -> & _).
  generalize (rawIds (nodes g)) as ids. clear E. intros ids.
  unfold keptEdges, edgePasses.
  induction rawEdges as [|e es IH]; simpl; [constructor|].
  destruct (edgeEndpoints e) as [[sid tid]|] eqn:Ep; [|exact IH].
  destruct (Set_has ids sid && Set_has ids tid); [|exact IH].
  simpl. constructor; [|exact IH].
  exists sid, tid. rewrite prop_rewrite_source, prop_rewrite_target.
  split; [exact Ep|]. split; [reflexivity|]. split; [reflexivity|].
  split; [reflexivity|].
  intros fs k -> Ns Nt. apply rewriteEdge_other_props; assumption.
Qed.

(** ** Sanitising twice *)

Lemma Map_set_absent {V : Type} (k : string) (v : V) (m : list (string * V)) :
  ~ In k (Map_keys m) -> Map_set String.eqb k v m = m ++ [(k, v)].
Proof.
  induction m as [|[k' v'] m IH]; simpl; intros NI; [reflexivity|].
  destruct (String.eqb_spec k' k) as [E|N].
  - exfalso; apply NI; auto.
  - rewrite IH by tauto. reflexivity.
Qed.

Lemma Map_set_same {V : Type} (k : string) (v : V) (m : list (string * V)) :
  Map_get String.eqb k m = Some v -> Map_set String.eqb k v m = m.
Proof.
  induction m as [|[k' v'] m IH]; simpl; [discriminate|].
  destruct (String.eqb_spec k' k) as [E|N]; intros G.
  - inversion G; reflexivity.
  - rewrite IH by exact G. reflexivity.
Qed.

Lemma nodeStep_of_key (um : list (string * Value)) (n : Value) (k : string) :
  nodeKey n = Some k -> nodeStep um n = Ok (Map_set String.eqb k n um).
Proof.
  intros K. apply nodeKey_truthy in K. destruct K as (Tn & Ti & J).
  unfold nodeStep. rewrite Tn, Ti, J. reflexivity.
Qed.

(** Feeding the values of a map of nodes back rebuilds the map. *)
Lemma dedup_rebuilds (m2 : list (string * Value)) :
  forall m1,
  NoDup (Map_keys (m1 ++ m2)) ->
  (forall k n, In (k, n) m2 -> nodeKey n = Some k) ->
  foldM nodeStep (Map_values m2) m1 = Ok (m1 ++ m2).
Proof.
  induction m2 as [|[k n] m2 IH]; intros m1 ND K; simpl.
  - rewrite app_nil_r. reflexivity.
  - rewrite (nodeStep_of_key _ _ k) by (apply K; simpl; auto). simpl.
    rewrite Map_set_absent.
    + rewrite IH.
      * rewrite <- app_assoc. reflexivity.
      * rewrite <- app_assoc. exact ND.
      * intros k' n' I. apply K. simpl; auto.
    + unfold Map_keys in *. rewrite map_app in ND. simpl in ND.
      apply NoDup_remove_2 in ND. intros I. apply ND. apply in_or_app. auto.
Qed.

Lemma rewriteEdge_again (e : Value) (sid tid : string) :
  rewriteEdge (rewriteEdge e sid tid) sid tid = rewriteEdge e sid tid.
Proof.
  unfold rewriteEdge at 1. simpl spread. unfold rewriteEdge. f_equal.
  set (X := Map_set String.eqb "target" (VStr tid)
              (Map_set String.eqb "source" (VStr sid) (spread e))).
  assert (Gs : Map_get String.eqb "source" X = Some (VStr sid)).
  { unfold X. rewrite Map_get_set_other by discriminate.
    apply (Map_get_set_eq _ String.eqb_spec). }
  assert (Gt : Map_get String.eqb "target" X = Some (VStr tid)).
  { unfold X. apply (Map_get_set_eq _ String.eqb_spec). }
  rewrite (Map_set_same _ _ _ Gs). apply Map_set_same. exact Gt.
Qed.

Lemma endpoints_of_rewritten (e : Value) (sid tid : string) :
  edgeEndpoints (rewriteEdge e sid tid) = Ok (sid, tid).
Proof.
  unfold edgeEndpoints.
  assert (Gs : get_prop (rewriteEdge e sid tid) "source" = Ok (VStr sid)).
  { rewrite <- (prop_rewrite_source e sid tid). reflexivity. }
  assert (Gt : get_prop (rewriteEdge e sid tid) "target" = Ok (VStr tid)).
  { rewrite <- (prop_rewrite_target e sid tid). reflexivity. }
  rewrite Gs. cbn [bind js_String]. rewrite Gt. reflexivity.
Qed.

Lemma keptEdges_again (ids es : list Value) :
  keptEdges ids (keptEdges ids es) = keptEdges ids es /\
  Forall (fun o => exists p, edgeEndpoints o = Ok p) (keptEdges ids es).
Proof.
  unfold keptEdges. induction es as [|e es [IH1 IH2]]; simpl; [auto|].
  destruct (edgeEndpoints e) as [[sid tid]|]; [|auto].
  destruct (Set_has ids sid && Set_has ids tid) eqn:V; [|auto].
  simpl. rewrite endpoints_of_rewritten, V, rewriteEdge_again. simpl.
  rewrite IH1. split; [reflexivity|].
  constructor; [|exact IH2]. exists (sid, tid). apply endpoints_of_rewritten.
Qed.

(** X8. Sanitising is idempotent: the nodes and edges of a sanitised graph,
    sanitised again, give the same graph, and the second pass does not
    throw. *)
Theorem sanitizing_twice_changes_nothing (rawNodes rawEdges : list Value)
    (g : GraphData Num) :
  sanitizeGraph rawNodes rawEdges = Ok g ->
  sanitizeGraph (nodes g) (edges g) = Ok g.
Proof.
  intros E. destruct (sanitizeGraph_spec _ _ _ E) as (um & Eu & En & Ee & _).
  destruct (dedup_values _ _ Eu) as (ND & Hk & _).
  destruct (dedup_invariant _ _ Eu) as [_ Hg].
  assert (R : dedupNodes (nodes g) = Ok um).
  { rewrite En. unfold dedupNodes. apply (dedup_rebuilds um []); [exact ND|].
    intros k n I. apply (In_Map_get String.eqb String.eqb_spec _ _ _ ND) in I.
    rewrite Hg in I. apply find_keyIs in I. tauto. }
  unfold sanitizeGraph. rewrite R. simpl.
  rewrite (mapM_ids_total _ (dedup_values_truthy _ _ Eu)). simpl.
  rewrite <- En. rewrite Ee at 1.
  destruct (keptEdges_again (rawIds (nodes g)) rawEdges) as [K F].
  unfold filterEdges. rewrite (filterEdges_total _ _ F []). simpl.
  rewrite K, <- Ee. destruct g; reflexivity.
Qed.
End SanitizerProperties.

(** ** The shape of a fence match *)

Lemma prefix_split (p s : string) :
  prefix p s = true -> s = (p ++ drop (String.length p) s)%string.
Proof.
  revert s. induction p as [|x p IH]; intros s; simpl.
  - destruct s; reflexivity.
  - destruct s as [|y s]; simpl; [discriminate|].
    destruct (ascii_dec x y) as [<-|N]; [|discriminate].
    intros P. rewrite <- (IH _ P). reflexivity.
Qed.

Lemma includes_prefix (p s : string) : prefix p s = true -> includes p s = true.
Proof.
  intros P. destruct s; cbn [includes]; rewrite P; reflexivity.
Qed.

Lemma includes_intro (p a b : string) : includes p (a ++ p ++ b) = true.
Proof.
  induction a as [|x a IH].
  - change ("" ++ p ++ b)%string with (p ++ b)%string.
    apply includes_prefix, prefix_append.
  - change (String x a ++ p ++ b)%string with (String x (a ++ p ++ b)).
    simpl. rewrite IH. apply orb_true_r.
Qed.

Lemma includes_split (p s : string) :
  includes p s = true -> exists a b, s = (a ++ p ++ b)%string.
Proof.
  induction s as [|x s IH]; cbn [includes].
  - rewrite orb_false_r. intros P. apply prefix_split in P.
    exists EmptyString, (drop (String.length p) ""). exact P.
  - intros I. apply orb_true_iff in I. destruct I as [P|I].
    + apply prefix_split in P. exists EmptyString, (drop (String.length p) (String x s)).
      exact P.
    + destruct (IH I) as (a & b & ->). exists (String x a), b. reflexivity.
Qed.

Section RegexShape.
Context {A : Type}.

Lemma lit_sound (p : string) (k : string -> option A) (s : string) (x : A) :
  lit p k s = Some x -> exists r, s = (p ++ r)%string /\ k r = Some x.
Proof.
  unfold lit. destruct (prefix p s) eqn:P; [|discriminate].
  intros K. exists (drop (String.length p) s). split; [apply prefix_split; exact P | exact K].
Qed.

Lemma ws_star_sound (k : string -> option A) (s : string) (x : A) :
  ws_star k s = Some x ->
  exists w r, s = (w ++ r)%string /\ all_space w = true /\ k r = Some x.
Proof.
  induction s as [|c s IH]; simpl.
  - intros K. exists EmptyString, EmptyString. auto.
  - destruct (is_space c) eqn:C.
    + destruct (ws_star k s) as [y|] eqn:W.
      * intros E; inversion E; subst y.
        destruct (IH eq_refl) as (w & r & -> & Wp & K).
        exists (String c w), r. simpl. rewrite C, Wp. auto.
      * intros K. exists EmptyString, (String c s). auto.
    + intros K. exists EmptyString, (String c s). auto.
Qed.

(** Greedy white space fails only where what follows fails. *)
Lemma ws_star_None (k : string -> option A) (s : string) :
  ws_star k s = None -> k s = None.
Proof.
  destruct s as [|c s]; simpl; [auto|].
  destruct (is_space c); [|auto]. destruct (ws_star k s); [discriminate|auto].
Qed.

Lemma any_lazy_sound (k : string -> option A) (s : string) :
  forall cap x,
  any_lazy k s = Some (cap, x) ->
  exists r, s = (cap ++ r)%string /\ k r = Some x /\
    forall a b, cap = (a ++ b)%string -> b <> EmptyString -> k (b ++ r)%string = None.
Proof.
  assert (Empty : forall a b : string, EmptyString = (a ++ b)%string -> b = EmptyString).
  { intros a b E. destruct a; simpl in E; [auto | discriminate]. }
  induction s as [|c s IH]; intros cap x; simpl.
  - destruct (k "") as [y|] eqn:K; [|discriminate].
    intros E; inversion E; subst. exists EmptyString.
    split; [reflexivity|]. split; [exact K|].
    intros a b Eab Nb. apply Empty in Eab. contradiction.
  - destruct (k (String c s)) as [y|] eqn:K.
    + intros E; inversion E; subst. exists (String c s).
      split; [reflexivity|]. split; [exact K|].
      intros a b Eab Nb. apply Empty in Eab. contradiction.
    + destruct (any_lazy k s) as [[cap' y]|] eqn:L; [|discriminate].
      intros E; inversion E; subst.
      destruct (IH _ _ eq_refl) as (r & -> & Kr & Min).
      exists r. split; [reflexivity|]. split; [exact Kr|].
      intros a b Eab Nb. destruct a as [|c' a].
      * simpl in Eab. subst b. exact K.
      * simpl in Eab. inversion Eab; subst. apply (Min a); [reflexivity | exact Nb].
Qed.
End RegexShape.

Lemma closer_at_backticks (r : string) : closer ("```" ++ r) = Some tt.
Proof.
  apply (ws_star_run _ EmptyString ("``" ++ r) "`" tt); try reflexivity.
  exact (lit_append "```" r (fun _ => Some tt)).
Qed.

Lemma closer_after_space (c : ascii) (r : string) :
  is_space c = true -> closer r = Some tt -> closer (String c r) = Some tt.
Proof.
  unfold closer. intros C K. simpl. rewrite C, K. reflexivity.
Qed.

(** After greedy white space the lazy group does not begin with white
    space. *)
Lemma capture_head (s cap : string) (x : unit) :
  ws_star (any_lazy closer) s = Some (cap, x) ->
  trimStart cap = cap.
Proof.
  induction s as [|c s IH]; simpl.
  - destruct (closer ""); [|discriminate]. intros E; inversion E; reflexivity.
  - assert (Direct : any_lazy closer (String c s) = Some (cap, x) ->
                     is_space c = false \/ any_lazy closer s = None ->
                     trimStart cap = cap).
    { simpl. destruct (closer (String c s)).
      - intros E; inversion E; reflexivity.
      - destruct (any_lazy closer s) as [[cap' y]|].
        + intros E [C|C]; [|discriminate]. inversion E; subst. simpl. rewrite C. reflexivity.
        + discriminate. }
    destruct (is_space c) eqn:C.
    + destruct (ws_star (any_lazy closer) s) as [y|] eqn:W.
      * intros E; inversion E; subst. apply IH; reflexivity.
      * intros E. apply Direct; [exact E|]. right. apply ws_star_None; exact W.
    + intros E. apply Direct; [exact E | left; reflexivity].
Qed.

Lemma trimEnd_fixed (s : string) :
  (forall a c, s = (a ++ String c "")%string -> is_space c = false) ->
  trimEnd s = s.
Proof.
  induction s as [|x s IH]; intros L; [reflexivity|].
  simpl. destruct s as [|y s].
  - simpl. rewrite (L EmptyString x eq_refl). reflexivity.
  - rewrite IH; [reflexivity|].
    intros a c E. apply (L (String x a) c). simpl. rewrite E. reflexivity.
Qed.

Lemma trimEnd_keeps_head (s : string) : trimStart s = s -> trimStart (trimEnd s) = trimEnd s.
Proof.
  destruct s as [|c s]; [reflexivity|]. simpl.
  destruct (is_space c) eqn:C.
  - intros E. exfalso.
    assert (L : String.length (trimStart s) <= String.length s).
    { clear. induction s as [|y s IH]; simpl; [lia|]. destruct (is_space y); simpl; lia. }
    rewrite E in L. simpl in L. lia.
  - intros _. destruct (trimEnd s); simpl; rewrite C; reflexivity.
Qed.

Lemma search_sound (re : string -> option string) (s : string) :
  forall index j cap,
  search re s index = Some (j, cap) ->
  exists before rest,
    s = (before ++ rest)%string /\ j = index + String.length before /\ re rest = Some cap.
Proof.
  induction s as [|c s IH]; intros index j cap; simpl.
  - destruct (re "") as [y|] eqn:R; [|discriminate].
    intros E; inversion E; subst. exists EmptyString, EmptyString. simpl. auto.
  - destruct (re (String c s)) as [y|] eqn:R.
    + intros E; inversion E; subst. exists EmptyString, (String c s). simpl. auto.
    + intros E. destruct (IH _ _ _ E) as (before & rest & -> & -> & Rr).
      exists (String c before), rest. simpl. repeat split; auto; lia.
Qed.

(** X9. Where one of the two fence patterns matches, the text is some
    text of the matched length, the opener, white space, the payload,
    white space, three backticks and a rest; the payload contains no
    three backticks in a row and has no white space at either end. *)
Theorem fence_match_shape (opener text payload : string) (index : nat) :
  String_match (fence opener) text = Some (index, payload) ->
  exists before w1 w2 rest,
    text = (before ++ opener ++ w1 ++ payload ++ w2 ++ "```" ++ rest)%string /\
    String.length before = index /\
    all_space w1 = true /\ all_space w2 = true /\
    includes "```" payload = false /\
    trim payload = payload.
Proof.
  unfold String_match. intros M.
  destruct (search_sound _ _ _ _ _ M) as (before & rest0 & -> & -> & F).
  unfold fence in F. fold closer in F.
  destruct (lit opener (ws_star (any_lazy closer)) rest0) as [[cap x]|] eqn:L;
    [|discriminate].
  simpl in F. inversion F; subst cap. clear F. destruct x.
  destruct (lit_sound _ _ _ _ L) as (r1 & -> & W1).
  pose proof (capture_head _ _ _ W1) as Head.
  destruct (ws_star_sound _ _ _ W1) as (w1 & r2 & -> & Sp1 & Lz).
  destruct (any_lazy_sound _ _ _ _ Lz) as (r3 & -> & Cl & Min).
  destruct (ws_star_sound _ _ _ Cl) as (w2 & r4 & -> & Sp2 & Lt).
  destruct (lit_sound _ _ _ _ Lt) as (rest & -> & _).
  assert (NoFence : includes "```" payload = false).
  { destruct (includes "```" payload) eqn:I; [|reflexivity].
    destruct (includes_split _ _ I) as (a & b & Ep).
    assert (X : closer (("```" ++ b) ++ w2 ++ "```" ++ rest) = None)
      by (apply (Min a); [exact Ep | discriminate]).
    rewrite append_assoc, closer_at_backticks in X. discriminate X. }
  assert (Last : forall a c, payload = (a ++ String c "")%string -> is_space c = false).
  { intros a c Ep. destruct (is_space c) eqn:C; [|reflexivity].
    assert (X : closer (String c "" ++ w2 ++ "```" ++ rest) = None)
      by (apply (Min a); [exact Ep | discriminate]).
    change (String c "" ++ w2 ++ "```" ++ rest)%string
      with (String c (w2 ++ "```" ++ rest)) in X.
    rewrite (closer_after_space _ _ C Cl) in X. discriminate. }
  exists before, w1, w2, rest. repeat split; auto.
  unfold trim. rewrite Head. apply trimEnd_fixed. exact Last.
Qed.

(** ** The brace span *)

Lemma indexOf_split (c : ascii) (s : string) (i : nat) :
  indexOf c s = Some i ->
  exists a b, s = (a ++ String c b)%string /\ String.length a = i /\ indexOf c a = None.
Proof.
  revert i. induction s as [|x s IH]; intros i; simpl; [discriminate|].
  destruct (Ascii.eqb_spec x c) as [->|N].
  - intros E; inversion E; subst. exists EmptyString, s. auto.
  - destruct (indexOf c s) as [j|]; [|discriminate]. simpl.
    intros E; inversion E; subst.
    destruct (IH _ eq_refl) as (a & b & -> & L & Na).
    exists (String x a), b. simpl. rewrite L, Na.
    destruct (Ascii.eqb_spec x c); [contradiction|]. auto.
Qed.

Lemma lastIndexOf_None (c : ascii) (s : string) :
  lastIndexOf c s = None <-> indexOf c s = None.
Proof.
  induction s as [|x s IH]; simpl; [tauto|].
  destruct (lastIndexOf c s), (indexOf c s), (Ascii.eqb x c); simpl;
    split; intros E; try discriminate; try reflexivity;
    try (destruct IH as [I1 I2]; try discriminate (I1 eq_refl); discriminate (I2 eq_refl)).
Qed.

Lemma lastIndexOf_split (c : ascii) (s : string) (i : nat) :
  lastIndexOf c s = Some i ->
  exists a b, s = (a ++ String c b)%string /\ String.length a = i /\ indexOf c b = None.
Proof.
  revert i. induction s as [|x s IH]; intros i; simpl; [discriminate|].
  destruct (lastIndexOf c s) as [j|] eqn:L.
  - intros E; inversion E; subst.
    destruct (IH _ eq_refl) as (a & b & -> & La & Nb).
    exists (String x a), b. simpl. auto.
  - destruct (Ascii.eqb_spec x c) as [->|N]; [|discriminate].
    intros E; inversion E; subst. exists EmptyString, s.
    apply lastIndexOf_None in L. auto.
Qed.

Lemma indexOf_first (c : ascii) (a r : string) :
  indexOf c a = None -> indexOf c (a ++ String c r) = Some (String.length a).
Proof.
  induction a as [|x a IH]; simpl.
  - rewrite Ascii.eqb_refl. reflexivity.
  - destruct (Ascii.eqb x c); [discriminate|].
    destruct (indexOf c a); [discriminate|]. intros _. rewrite IH; reflexivity.
Qed.

Lemma lastIndexOf_last (c : ascii) (a b : string) :
  indexOf c b = None -> lastIndexOf c (a ++ String c b) = Some (String.length a).
Proof.
  intros Nb. apply lastIndexOf_None in Nb. induction a as [|x a IH]; simpl.
  - rewrite Nb, Ascii.eqb_refl. reflexivity.
  - rewrite IH. reflexivity.
Qed.

Lemma append_split (a x a' y : string) :
  (a ++ x = a' ++ y)%string -> String.length a <= String.length a' ->
  exists m, a' = (a ++ m)%string /\ x = (m ++ y)%string.
Proof.
  revert a'. induction a as [|c a IH]; intros a' E L.
  - exists a'. auto.
  - destruct a' as [|c' a']; simpl in L; [lia|].
    simpl in E. injection E as <- Er.
    destruct (IH a' Er ltac:(lia)) as (m & -> & ->). exists m. auto.
Qed.

Lemma substring_middle (a m b : string) :
  substring (String.length a) (String.length m) (a ++ m ++ b) = m.
Proof.
  induction a as [|x a IH]; simpl.
  - apply substring_prefix.
  - exact IH.
Qed.

(** The span from the first [{] to the last [}] of a text that has a [{]
    before a [}]. *)
Lemma narrow_span (a m b : string) :
  indexOf "{" a = None -> indexOf "}" b = None ->
  narrowCandidate (a ++ "{" ++ m ++ "}" ++ b) = ("{" ++ m ++ "}")%string.
Proof.
  intros Na Nb. unfold narrowCandidate.
  change (a ++ "{" ++ m ++ "}" ++ b)%string with (a ++ String "{" (m ++ String "}" b))%string.
  rewrite (indexOf_first _ _ _ Na).
  replace (a ++ String "{" (m ++ String "}" b))%string
    with ((a ++ String "{" m) ++ String "}" b)%string
    by (rewrite append_assoc; reflexivity).
  rewrite (lastIndexOf_last _ _ _ Nb), length_append. simpl String.length.
  replace (String.length a <? String.length a + S (String.length m))%nat with true
    by (symmetry; apply Nat.ltb_lt; lia).
  unfold js_substring.
  replace (String.length a + S (String.length m) + 1 - String.length a)
    with (String.length (String "{" (m ++ String "}" ""))%string)
    by (simpl; rewrite length_append; simpl; lia).
  replace ((a ++ String "{" m) ++ String "}" b)%string
    with (a ++ String "{" (m ++ String "}" "") ++ b)%string.
  - apply substring_middle.
  - rewrite !append_assoc. simpl. rewrite append_assoc. reflexivity.
Qed.

Lemma indexOf_some (c : ascii) (a r : string) :
  exists i, indexOf c (a ++ String c r) = Some i /\ i <= String.length a.
Proof.
  induction a as [|y a IH]; simpl.
  - rewrite Ascii.eqb_refl. exists 0. auto.
  - destruct (Ascii.eqb y c); [exists 0; split; [reflexivity | lia]|].
    destruct IH as (i & -> & Li). exists (S i). split; [reflexivity | lia].
Qed.

Lemma lastIndexOf_some (c : ascii) (a r : string) :
  exists j, lastIndexOf c (a ++ String c r) = Some j /\ String.length a <= j.
Proof.
  induction a as [|y a IH]; simpl.
  - destruct (lastIndexOf c r) as [j|]; [exists (S j) | exists 0; rewrite Ascii.eqb_refl];
      split; try reflexivity; lia.
  - destruct IH as (j & -> & Lj). exists (S j). split; [reflexivity | lia].
Qed.

Lemma span_found (a m b : string) :
  exists f l,
    indexOf "{" (a ++ "{" ++ m ++ "}" ++ b) = Some f /\
    lastIndexOf "}" (a ++ "{" ++ m ++ "}" ++ b) = Some l /\ f < l.
Proof.
  destruct (indexOf_some "{" a (m ++ "}" ++ b)) as (f & Ef & Lf).
  destruct (lastIndexOf_some "}" (a ++ "{" ++ m) b) as (l & El & Ll).
  exists f, l. split; [exact Ef|]. split.
  - rewrite <- El. rewrite (append_assoc a). reflexivity.
  - rewrite length_append in Ll. simpl in Ll. lia.
Qed.

Lemma narrow_cases (cleanText : string) :
  (narrowCandidate cleanText = cleanText /\
   forall a m b, cleanText <> (a ++ "{" ++ m ++ "}" ++ b)%string) \/
  exists a m b,
    cleanText = (a ++ "{" ++ m ++ "}" ++ b)%string /\
    indexOf "{" a = None /\ indexOf "}" b = None /\
    narrowCandidate cleanText = ("{" ++ m ++ "}")%string.
Proof.
  assert (No : (forall f l, indexOf "{" cleanText = Some f ->
                            lastIndexOf "}" cleanText = Some l -> l <= f) ->
               forall a m b, cleanText <> (a ++ "{" ++ m ++ "}" ++ b)%string).
  { intros N a m b E. destruct (span_found a m b) as (f & l & Ef & El & Lt).
    rewrite <- E in Ef, El. specialize (N _ _ Ef El). lia. }
  destruct (indexOf "{" cleanText) as [f|] eqn:F.
  2:{ left. split; [unfold narrowCandidate; rewrite F; reflexivity|].
      apply No. intros ? ? X; discriminate X. }
  destruct (lastIndexOf "}" cleanText) as [l|] eqn:L.
  2:{ left. split; [unfold narrowCandidate; rewrite F, L; reflexivity|].
      apply No. intros ? ? _ X; discriminate X. }
  destruct (Nat.ltb_spec f l) as [Lt|Ge].
  - right. destruct (indexOf_split _ _ _ F) as (a & x & E1 & La & Na).
    destruct (lastIndexOf_split _ _ _ L) as (a' & b & E2 & La' & Nb).
    assert (E : (a ++ String "{" x = a' ++ String "}" b)%string) by congruence.
    destruct (append_split _ _ _ _ E ltac:(lia)) as (m & -> & Em).
    destruct m as [|c m].
    { rewrite length_append in La'. simpl in La'. lia. }
    simpl in Em. injection Em as <- ->.
    exists a, m, b. rewrite E1. split; [reflexivity|]. split; [exact Na|].
    split; [exact Nb|]. apply narrow_span; assumption.
  - left. split.
    + unfold narrowCandidate. rewrite F, L.
      destruct (Nat.ltb_spec f l); [lia | reflexivity].
    + apply No. intros f0 l0 X Y. inversion X; inversion Y; subst. exact Ge.
Qed.

(** X10. Narrowing either leaves the candidate as it is, when it has no
    [{] before a [}], or cuts it to the span from its first [{] to its
    last [}]: what is cut off before has no [{], what is cut off after
    has no [}]. *)
Theorem narrowing_cuts_to_the_brace_span (cleanText : string) :
  (narrowCandidate cleanText = cleanText /\
   forall a m b, cleanText <> (a ++ "{" ++ m ++ "}" ++ b)%string) \/
  exists a m b,
    cleanText = (a ++ "{" ++ m ++ "}" ++ b)%string /\
    indexOf "{" a = None /\ indexOf "}" b = None /\
    narrowCandidate cleanText = ("{" ++ m ++ "}")%string.
Proof.
  exact (narrow_cases cleanText).
Qed.

(** X11. Narrowing is idempotent: the span it cuts begins with the first
    [{] and ends with the last [}] of itself. *)
Theorem narrowing_twice_changes_nothing (cleanText : string) :
  narrowCandidate (narrowCandidate cleanText) = narrowCandidate cleanText.
Proof.
  destruct (narrow_cases cleanText) as [[E _]|(a & m & b & _ & _ & _ & E)]; rewrite E.
  - exact E.
  - apply narrowCandidate_object.
Qed.

(** ** Texts without a fence, and the untagged fence *)

Lemma fence_needs_opener (opener text : string) (index : nat) (payload : string) :
  String_match (fence opener) text = Some (index, payload) ->
  includes opener text = true.
Proof.
  unfold String_match. intros M.
  destruct (search_sound _ _ _ _ _ M) as (before & rest0 & -> & _ & F).
  unfold fence in F.
  destruct (lit opener (ws_star (any_lazy (ws_star (lit "```" (fun _ => Some tt))))) rest0)
    as [y|] eqn:L; [|discriminate].
  destruct (lit_sound _ _ _ _ L) as (r & -> & _). apply includes_intro.
Qed.

Lemma no_opener_no_match (opener text : string) :
  includes opener text = false -> String_match (fence opener) text = None.
Proof.
  intros I. destruct (String_match (fence opener) text) as [[i p]|] eqn:M; [|reflexivity].
  apply fence_needs_opener in M. congruence.
Qed.

Lemma tagged_opener_has_backticks (text : string) :
  includes "```" text = false -> includes "```json" text = false.
Proof.
  intros I. destruct (includes "```json" text) eqn:J; [|reflexivity].
  destruct (includes_split _ _ J) as (a & b & ->).
  change (a ++ "```json" ++ b)%string with (a ++ "```" ++ ("json" ++ b))%string in I.
  rewrite includes_intro in I. discriminate.
Qed.

Lemma isolate_unfenced (text : string) :
  includes "```" text = false ->
  isolatePayload text =
  match indexOf "{" text with
  | Some (S i) => (trim (substring 0 (S i) text), drop (S i) text)
  | _ => (EmptyString, trim text)
  end.
Proof.
  intros I. unfold isolatePayload.
  rewrite (no_opener_no_match _ _ (tagged_opener_has_backticks _ I)).
  rewrite (no_opener_no_match _ _ I).
  destruct (indexOf "{" text) as [[|i]|]; reflexivity.
Qed.

(** X12. A text without three backticks in a row takes the brace
    fallback: with a [{] after its first character, the summary is the
    trimmed text before that brace and the candidate is the rest; else
    the summary is empty and the candidate is the trimmed text. *)
Theorem unfenced_text_splits_at_first_brace (text : string) :
  includes "```" text = false ->
  isolatePayload text =
  match indexOf "{" text with
  | Some (S i) => (trim (substring 0 (S i) text), drop (S i) text)
  | _ => (EmptyString, trim text)
  end.
Proof.
  exact (isolate_unfenced text).
Qed.

Lemma trimEnd_nonspace (c : ascii) (b : string) :
  is_space c = false -> trimEnd (String c b) = String c (trimEnd b).
Proof.
  intros C. simpl. rewrite C. destruct (trimEnd b); reflexivity.
Qed.

Lemma trimEnd_after (a b : string) (c : ascii) :
  is_space c = false ->
  trimEnd (a ++ String c b) = (a ++ String c (trimEnd b))%string.
Proof.
  intros C. induction a as [|x a IH].
  - apply trimEnd_nonspace; exact C.
  - change (String x a ++ String c b)%string with (String x (a ++ String c b)).
    cbn [trimEnd]. rewrite IH. destruct a; reflexivity.
Qed.

Lemma indexOf_trimEnd (c : ascii) (s : string) :
  indexOf c s = None -> indexOf c (trimEnd s) = None.
Proof.
  induction s as [|x s IH]; [auto|]. cbn [indexOf].
  destruct (Ascii.eqb x c) eqn:X; [discriminate|].
  destruct (indexOf c s); [discriminate|]. intros _. specialize (IH eq_refl).
  cbn [trimEnd]. destruct (trimEnd s) as [|y t].
  - destruct (is_space x); simpl; [reflexivity|]. rewrite X. reflexivity.
  - simpl. rewrite X. simpl in IH. rewrite IH. reflexivity.
Qed.

Section FallbackRecovery.
Context {Num : Type} `{JsNumber Num} `{JsonParser Num}.

#[local] Abbreviation Value := (Value Num).

(** X13. A JSON object written into prose without a fence is recovered:
    when the text has no three backticks, the prose before has no [{] and
    the prose after has no [}], the pipeline parses exactly the object,
    and the summary is the trimmed prose before it. *)
Theorem unfenced_object_is_recovered (pre mid post : string)
    (chunks supports : Value) (queries : list string)
    (sm sm' : SourceMap) (im : IndexMap) (clean : list Value)
    (parsed : Value) (rawNodes rawEdges : list Value) :
  includes "```" (pre ++ "{" ++ mid ++ "}" ++ post) = false ->
  indexOf "{" pre = None ->
  indexOf "}" post = None ->
  extractSources chunks = Ok (sm, im) ->
  linkSupports im sm supports = Ok (sm', clean) ->
  JSON_parse ("{" ++ mid ++ "}") = Some parsed ->
  prop_of parsed "nodes" = VArr rawNodes ->
  prop_of parsed "edges" = VArr rawEdges ->
  processGeminiOutput (pre ++ "{" ++ mid ++ "}" ++ post) chunks supports queries =
  bind (sanitizeGraph rawNodes rawEdges) (fun cleaned =>
    Ok {| graphData := cleaned;
          sources := Map_values sm';
          searchQueries := queries;
          summary := trim pre;
          groundingSupports := clean |}).
Proof.
  intros I Npre Npost Hx Hl Hp Hn He.
  assert (Iso : exists a b,
            isolatePayload (pre ++ "{" ++ mid ++ "}" ++ post) =
              (trim pre, (a ++ "{" ++ mid ++ "}" ++ b)%string) /\
            indexOf "{" a = None /\ indexOf "}" b = None).
  { rewrite (isolate_unfenced _ I).
    change (pre ++ "{" ++ mid ++ "}" ++ post)%string
      with (pre ++ String "{" (mid ++ "}" ++ post))%string.
    rewrite (indexOf_first _ _ _ Npre).
    destruct pre as [|c pre].
    - exists EmptyString, (trimEnd post). simpl String.length. cbv iota.
      split; [|split; [reflexivity | apply indexOf_trimEnd; exact Npost]].
      f_equal. unfold trim.
      change ("" ++ String "{" (mid ++ "}" ++ post))%string
        with (String "{" (mid ++ "}" ++ post)).
      change (trimStart (String "{" (mid ++ "}" ++ post)))
        with (String "{" (mid ++ "}" ++ post)).
      change (String "{" (mid ++ "}" ++ post))
        with (String "{" mid ++ String "}" post)%string.
      rewrite trimEnd_after by reflexivity. reflexivity.
    - exists EmptyString, post. cbn [String.length].
      split; [|split; [reflexivity | exact Npost]].
      f_equal.
      + change (S (String.length pre)) with (String.length (String c pre)).
        rewrite substring_prefix. reflexivity.
      + change (S (String.length pre)) with (String.length (String c pre)).
        apply drop_append. }
  destruct Iso as (a & b & Iso & Na & Nb).
  unfold processGeminiOutput.
  rewrite Hx. cbn [bind fst snd]. rewrite Hl. cbn [bind fst snd].
  rewrite Iso, (narrow_span _ _ _ Na Nb), Hp, Hn, He.
  destruct parsed; simpl in Hn; try discriminate. reflexivity.
Qed.
End FallbackRecovery.

(** ** The untagged fence *)

Lemma search_skips (opener pre rest : string) (index : nat) :
  indexOf (ascii_of_nat 10) opener = None ->
  includes opener pre = false ->
  search (fence opener) (pre ++ String (ascii_of_nat 10) rest) index =
  search (fence opener) (String (ascii_of_nat 10) rest) (index + String.length pre).
Proof.
  intros Nl. revert index. induction pre as [|c pre IH]; intros index I.
  - simpl. rewrite Nat.add_0_r. reflexivity.
  - apply includes_cons in I. destruct I as [P I].
    assert (F : fence opener (String c pre ++ String (ascii_of_nat 10) rest) = None).
    { unfold fence, lit. rewrite prefix_cut by exact Nl. rewrite P. reflexivity. }
    change (String c pre ++ String (ascii_of_nat 10) rest)%string with
      (String c (pre ++ String (ascii_of_nat 10) rest)) in *.
    replace (index + String.length (String c pre)) with (S index + String.length pre)
      by (simpl; lia).
    rewrite <- (IH _ I). apply search_miss. exact F.
Qed.

Lemma fence_opened (opener post ws1 mid ws2 : string) :
  includes "```" mid = false ->
  all_space ws1 = true ->
  all_space ws2 = true ->
  fence opener
    (opener ++ newline ++ (ws1 ++ "{" ++ mid ++ "}" ++ ws2)
       ++ newline ++ "```" ++ newline ++ post) =
  Some ("{" ++ mid ++ "}")%string.
Proof.
  intros Imid W1 W2.
  set (tail := (ws2 ++ newline ++ "```" ++ newline ++ post)%string).
  assert (T : closer tail = Some tt).
  { unfold tail. rewrite <- append_assoc.
    change ("```" ++ newline ++ post)%string with (String "`" ("``" ++ newline ++ post)).
    apply ws_star_run.
    - rewrite all_space_app, W2. reflexivity.
    - reflexivity.
    - exact (lit_append "```" (newline ++ post) (fun _ => Some tt)). }
  assert (B : includes "```" (String "{" mid) = false) by (simpl; exact Imid).
  pose proof (any_lazy_body (fun _ : string => Some tt) _ tail tt B T) as L.
  assert (E : (newline ++ (ws1 ++ "{" ++ mid ++ "}" ++ ws2)
                 ++ newline ++ "```" ++ newline ++ post)%string =
              ((newline ++ ws1) ++ String "{" (mid ++ String "}" tail))%string).
  { unfold tail. rewrite !append_assoc. reflexivity. }
  unfold fence. rewrite lit_append, E.
  rewrite (ws_star_run _ _ _ _ (String "{" mid ++ "}", tt)%string).
  - reflexivity.
  - rewrite all_space_app, W1. reflexivity.
  - reflexivity.
  - exact L.
Qed.

Lemma isolate_untagged (pre post ws1 mid ws2 : string) :
  let text := (pre ++ newline ++ "```" ++ newline ++ (ws1 ++ "{" ++ mid ++ "}" ++ ws2)
                   ++ newline ++ "```" ++ newline ++ post)%string in
  includes "```json" text = false ->
  includes "```" pre = false ->
  includes "```" mid = false ->
  all_space ws1 = true ->
  all_space ws2 = true ->
  isolatePayload text = (trim pre, ("{" ++ mid ++ "}")%string).
Proof.
  intros text Itag Ipre Imid W1 W2. unfold isolatePayload.
  rewrite (no_opener_no_match _ _ Itag).
  assert (M : String_match (fence "```") text =
              Some (String.length pre + 1, ("{" ++ mid ++ "}")%string)).
  { unfold String_match, text.
    change (pre ++ newline ++ ?x)%string with (pre ++ String (ascii_of_nat 10) x)%string.
    rewrite search_skips by (reflexivity || exact Ipre).
    rewrite search_miss by reflexivity.
    rewrite (search_hit _ _ _ _ (fence_opened "```" post ws1 mid ws2 Imid W1 W2)).
    f_equal. f_equal. lia. }
  rewrite M. f_equal. unfold js_substring, text.
  replace (String.length pre + 1 - 0) with (String.length (pre ++ newline))
    by (rewrite length_append; simpl; lia).
  rewrite <- append_assoc, substring_prefix.
  apply trim_app_space. reflexivity.
Qed.

Section UntaggedFence.
Context {Num : Type} `{JsNumber Num} `{JsonParser Num}.

#[local] Abbreviation Value := (Value Num).

(** X14. The untagged fence is used when the text nowhere has the tagged
    opener: with a preamble free of three backticks and a JSON object
    free of them, the pipeline on preamble, fence, object, fence and
    postamble returns the graph of the object, sanitised, with the
    trimmed preamble as summary. *)
Theorem untagged_fence_is_recovered (pre post ws1 mid ws2 : string)
    (chunks supports : Value) (queries : list string)
    (sm sm' : SourceMap) (im : IndexMap) (clean : list Value)
    (parsed : Value) (rawNodes rawEdges : list Value) :
  includes "```json"
    (pre ++ newline ++ "```" ++ newline ++ (ws1 ++ "{" ++ mid ++ "}" ++ ws2)
         ++ newline ++ "```" ++ newline ++ post) = false ->
  includes "```" pre = false ->
  includes "```" mid = false ->
  all_space ws1 = true ->
  all_space ws2 = true ->
  extractSources chunks = Ok (sm, im) ->
  linkSupports im sm supports = Ok (sm', clean) ->
  JSON_parse ("{" ++ mid ++ "}") = Some parsed ->
  prop_of parsed "nodes" = VArr rawNodes ->
  prop_of parsed "edges" = VArr rawEdges ->
  processGeminiOutput
    (pre ++ newline ++ "```" ++ newline ++ (ws1 ++ "{" ++ mid ++ "}" ++ ws2)
         ++ newline ++ "```" ++ newline ++ post)
    chunks supports queries =
  bind (sanitizeGraph rawNodes rawEdges) (fun cleaned =>
    Ok {| graphData := cleaned;
          sources := Map_values sm';
          searchQueries := queries;
          summary := trim pre;
          groundingSupports := clean |}).
Proof.
  intros Itag Ipre Imid W1 W2 Hx Hl Hp Hn He. unfold processGeminiOutput.
  rewrite Hx. cbn [bind fst snd]. rewrite Hl. cbn [bind fst snd].
  rewrite (isolate_untagged pre post ws1 mid ws2 Itag Ipre Imid W1 W2).
  rewrite narrowCandidate_object, Hp, Hn, He.
  destruct parsed; simpl in Hn; try discriminate. reflexivity.
Qed.

End UntaggedFence.

(** ** Which exceptions the pipeline throws *)

Section Exceptions.
Context {Num : Type} `{JsNumber Num} `{JsonParser Num}.

#[local] Abbreviation Value := (Value Num).

Lemma bind_Throw {A B : Type} (m : Outcome A) (k : A -> Outcome B) (e : JsError) :
  bind m k = Throw e -> m = Throw e \/ exists a, m = Ok a /\ k a = Throw e.
Proof.
  destruct m as [a|e']; simpl; intros E; [right; eauto | left; inversion E; reflexivity].
Qed.

Lemma foldM_Throw {A B : Type} (f : A -> B -> Outcome A) (P : JsError -> Prop) :
  (forall a x e, f a x = Throw e -> P e) ->
  forall l a e, foldM f l a = Throw e -> P e.
Proof.
  intros F. induction l as [|x l IH]; intros a e; simpl; [discriminate|].
  intros E. apply bind_Throw in E. destruct E as [E|(a' & _ & E)]; eauto.
Qed.

Lemma forEachIndexed_Throw {A B : Type} (f : A -> nat -> B -> Outcome A)
    (P : JsError -> Prop) :
  (forall a i x e, f a i x = Throw e -> P e) ->
  forall l i a e, forEachIndexed f l i a = Throw e -> P e.
Proof.
  intros F. induction l as [|x l IH]; intros i a e; simpl; [discriminate|].
  intros E. apply bind_Throw in E. destruct E as [E|(a' & _ & E)]; eauto.
Qed.

Lemma joined_tail_Throw {A : Type} (l : list A) (sx : string) (jl : Outcome string)
    (e : JsError) :
  match l with
  | [] => Ok sx
  | _ :: _ => bind jl (fun sl => Ok (sx ++ "," ++ sl)%string)
  end = Throw e ->
  jl = Throw e.
Proof.
  destruct l; [discriminate|]. destruct jl; simpl; [discriminate | auto].
Qed.

Lemma joined_element_Throw (x : Value) (e : JsError) :
  match x with
  | VUndefined | VNull => Ok EmptyString
  | _ => js_String x
  end = Throw e ->
  js_String x = Throw e.
Proof.
  destruct x; try discriminate; auto.
Qed.

Lemma js_String_Throw : forall (v : Value) (e : JsError),
  js_String v = Throw e -> isTypeError e = true.
Proof.
  fix IH 1. intros v e. destruct v as [| |b|n|s|l|fs]; simpl.
  - discriminate.
  - discriminate.
  - destruct b; discriminate.
  - discriminate.
  - discriminate.
  - revert e. revert l. fix IHl 1. intros l e.
    destruct l as [|x l]; [discriminate|].
    intros E. apply bind_Throw in E. destruct E as [E|(sx & _ & E)].
    + apply joined_element_Throw in E. exact (IH x e E).
    + apply joined_tail_Throw in E. exact (IHl l e E).
  - destruct (has_key "toString" fs); [|discriminate].
    intros E; inversion E; reflexivity.
Qed.

Lemma get_prop_Throw (v : Value) (k : string) (e : JsError) :
  get_prop v k = Throw e -> isTypeError e = true.
Proof.
  destruct v; simpl; intros E; inversion E; reflexivity.
Qed.

Lemma extractSources_Throw (chunks : Value) (e : JsError) :
  extractSources chunks = Throw e -> isTypeError e = true.
Proof.
  unfold extractSources. destruct chunks as [| | | | |l|]; try discriminate.
  apply (forEachIndexed_Throw chunkStep (fun e => isTypeError e = true)).
  intros [sm im] i c e'. unfold chunkStep.
  destruct (truthy c && truthy (prop_of c "web")); [|discriminate].
  destruct (truthy (prop_of (prop_of c "web") "uri")); [|discriminate].
  destruct (prop_of (prop_of c "web") "uri");
    try (intros E; inversion E; reflexivity).
  destruct (Map_get String.eqb (normalizeUri s) sm) as [existing|]; [|discriminate].
  destruct (is_str (title existing) placeholder && truthy _); discriminate.
Qed.

Lemma linkSupports_Throw (im : IndexMap) (sm : SourceMap) (supports : Value) (e : JsError) :
  linkSupports im sm supports = Throw e -> isTypeError e = true.
Proof.
  unfold linkSupports. destruct supports as [| | | | |l|]; try discriminate.
  apply (foldM_Throw (supportStep im) (fun e => isTypeError e = true)).
  intros [sm0 acc] x e'. unfold supportStep. intros E.
  apply bind_Throw in E. destruct E as [E|(indices & _ & E)].
  - exact (get_prop_Throw _ _ _ E).
  - destruct (truthy indices); [|discriminate].
    destruct indices; inversion E; reflexivity.
Qed.

Lemma sanitizeGraph_Throw (rawNodes rawEdges : list Value) (e : JsError) :
  sanitizeGraph rawNodes rawEdges = Throw e -> isTypeError e = true.
Proof.
  unfold sanitizeGraph. intros E.
  apply bind_Throw in E. destruct E as [E|(um & Eu & E)].
  - revert E. apply (foldM_Throw nodeStep (fun e => isTypeError e = true)).
    intros um x e'. unfold nodeStep.
    destruct (truthy x && truthy (prop_of x "id")); [|discriminate].
    intros E. apply bind_Throw in E. destruct E as [E|(k & _ & E)]; [|discriminate].
    exact (js_String_Throw _ _ E).
  - rewrite (mapM_ids_total _ (dedup_values_truthy _ _ Eu)) in E. simpl in E.
    apply bind_Throw in E. destruct E as [E|(out & _ & E)]; [|discriminate].
    revert E. apply (foldM_Throw (edgeStep _) (fun e => isTypeError e = true)).
    intros acc x e'. rewrite edgeStep_eq. intros E.
    apply bind_Throw in E. destruct E as [E|([sid tid] & _ & E)].
    + unfold edgeEndpoints in E.
      apply bind_Throw in E. destruct E as [E|(rs & _ & E)];
        [exact (get_prop_Throw _ _ _ E)|].
      apply bind_Throw in E. destruct E as [E|(s1 & _ & E)];
        [exact (js_String_Throw _ _ E)|].
      apply bind_Throw in E. destruct E as [E|(rt & _ & E)];
        [exact (get_prop_Throw _ _ _ E)|].
      apply bind_Throw in E. destruct E as [E|(s2 & _ & E)];
        [exact (js_String_Throw _ _ E) | discriminate].
    + simpl in E. destruct (Set_has _ sid && Set_has _ tid); discriminate.
Qed.

Lemma firstOccurrences_nil (l : list string) : firstOccurrences l = [] -> l = [].
Proof.
  destruct l; [reflexivity | discriminate].
Qed.

(** X15. The pipeline throws an [Error] of its own, and then the one with
    the parse-failure message, exactly when both loops over the metadata
    complete, [JSON.parse] rejects the narrowed candidate and no chunk
    carries a web uri; every other exception it throws is a [TypeError]
    from a malformed chunk, support, node id or edge. *)
Theorem parse_failure_is_the_only_Error (text : string) (chunks supports : list Value)
    (queries : list string) :
  (forall message,
     processGeminiOutput text (VArr chunks) (VArr supports) queries = Throw (Error message)
     <->
     message = "Failed to parse knowledge graph data from AI response." /\
     forallb chunkWellFormed chunks = true /\
     forallb supportWellFormed supports = true /\
     JSON_parse (narrowCandidate (snd (isolatePayload text))) = None /\
     chunkKeys chunks = []) /\
  (forall e,
     processGeminiOutput text (VArr chunks) (VArr supports) queries = Throw e ->
     e = parseFailure \/ isTypeError e = true).
Proof.
  assert (Run : forall e,
            processGeminiOutput text (VArr chunks) (VArr supports) queries = Throw e ->
            isTypeError e = true \/
            (e = parseFailure /\
             exists sm im sm' clean,
               extractSources (VArr chunks) = Ok (sm, im) /\
               linkSupports im sm (VArr supports) = Ok (sm', clean) /\
               JSON_parse (narrowCandidate (snd (isolatePayload text))) = None /\
               Map_values sm' = [])).
  { intros e. unfold processGeminiOutput. intros E.
    apply bind_Throw in E. destruct E as [E|([sm im] & Ex & E)];
      [left; exact (extractSources_Throw _ _ E)|].
    apply bind_Throw in E. destruct E as [E|([sm' clean] & El & E)];
      [left; exact (linkSupports_Throw _ _ _ _ E)|].
    simpl in E. destruct (isolatePayload text) as [preamble cleanText]. simpl.
    destruct (JSON_parse (narrowCandidate cleanText)) as [parsed|].
    - destruct (negb (truthy parsed) || negb (isArray (prop_of parsed "nodes"))
                || negb (isArray (prop_of parsed "edges"))); [discriminate|].
      destruct (prop_of parsed "nodes") as [| | | | |ns|]; try discriminate.
      destruct (prop_of parsed "edges") as [| | | | |es|]; try discriminate.
      apply bind_Throw in E. destruct E as [E|(g & _ & E)]; [|discriminate].
      left. exact (sanitizeGraph_Throw _ _ _ E).
    - destruct (Map_values sm') as [|s l] eqn:V; simpl in E; [|discriminate].
      inversion E; subst. right. split; [reflexivity|].
      exists sm, im, sm', clean. auto. }
  split.
  - intros message. split.
    + intros E. destruct (Run _ E) as [T|(P & sm & im & sm' & clean & Ex & El & Hp & V)];
        [discriminate|].
      inversion P; subst message. split; [reflexivity|].
      split.
      { unfold extractSources, extractFrom in Ex.
        rewrite <- (forEachIndexed_isOk chunkStep chunkWellFormed chunkStep_isOk chunks 0 ([], [])).
        rewrite Ex. reflexivity. }
      split.
      { unfold linkSupports in El.
        rewrite <- (foldM_isOk (supportStep im) supportWellFormed (supportStep_isOk im)
                      supports (sm, [])).
        rewrite El. reflexivity. }
      split; [exact Hp|].
      destruct (extract_invariant _ _ _ Ex) as [Hk _].
      unfold linkSupports in El. destruct (link_loop _ _ _ _ _ _ El) as [K _].
      apply firstOccurrences_nil. rewrite <- Hk, <- K.
      unfold Map_values in V. unfold Map_keys. destruct sm'; [reflexivity | discriminate].
    + intros (-> & Wc & Ws & Hp & Ck).
      unfold processGeminiOutput.
      pose proof (forEachIndexed_isOk chunkStep chunkWellFormed chunkStep_isOk chunks 0 ([], []))
        as Ox. rewrite Wc in Ox.
      fold (extractFrom chunks 0 ([], [])) in Ox.
      change (extractFrom chunks 0 ([], [])) with (extractSources (VArr chunks)) in Ox.
      destruct (extractSources (VArr chunks)) as [[sm im]|] eqn:Ex; [|discriminate].
      cbn [bind fst snd].
      pose proof (foldM_isOk (supportStep im) supportWellFormed (supportStep_isOk im)
                    supports (sm, [])) as Ol. rewrite Ws in Ol.
      change (foldM (supportStep im) supports (sm, []))
        with (linkSupports im sm (VArr supports)) in Ol.
      destruct (linkSupports im sm (VArr supports)) as [[sm' clean]|] eqn:El; [|discriminate].
      cbn [bind fst snd].
      destruct (extract_invariant _ _ _ Ex) as [Hk _].
      unfold linkSupports in El. destruct (link_loop _ _ _ _ _ _ El) as [K _].
      assert (V : Map_values sm' = []).
      { rewrite Ck in Hk. simpl in Hk. rewrite Hk in K.
        unfold Map_keys in K. unfold Map_values. destruct sm'; [reflexivity | discriminate]. }
      destruct (isolatePayload text) as [preamble cleanText]. simpl in Hp.
      rewrite Hp, V. reflexivity.
  - intros e E. destruct (Run _ E) as [T|[P _]]; auto.
Qed.
End Exceptions.

(** ** The summary of the source panel *)

Lemma substring_glue (s : string) (a b : nat) :
  a <= b -> b <= String.length s ->
  (substring 0 a s ++ substring a (b - a) s)%string = substring 0 b s.
Proof.
  revert a b. induction s as [|c s IH]; intros a b L1 L2.
  - simpl in L2. assert (b = 0) by lia. subst. assert (a = 0) by lia. subst. reflexivity.
  - destruct a as [|a].
    + simpl. rewrite Nat.sub_0_r. reflexivity.
    + destruct b as [|b]; [lia|]. simpl in *.
      rewrite IH by lia. reflexivity.
Qed.

Lemma substring_empty (s : string) (a : nat) : substring a 0 s = "".
Proof.
  revert a. induction s as [|c s IH]; intros [|a]; simpl; auto.
Qed.

Section SourcePanelFacts.
Import SourcePanel.

Lemma shown_app (es1 es2 : list Element) :
  fold_right (fun e acc => contentOf e ++ acc)%string "" (es1 ++ es2) =
  (fold_right (fun e acc => contentOf e ++ acc)%string "" es1 ++
   fold_right (fun e acc => contentOf e ++ acc)%string "" es2)%string.
Proof.
  induction es1 as [|e es1 IH]; simpl; [reflexivity|].
  rewrite IH, append_assoc. reflexivity.
Qed.

Lemma append_empty (s : string) : (s ++ "")%string = s.
Proof.
  induction s as [|c s IH]; simpl; [reflexivity | rewrite IH; reflexivity].
Qed.

Lemma substring2_ordered (s : string) (a b : Z) :
  (0 <= a)%Z -> (a <= b)%Z -> (b <= Z.of_nat (String.length s))%Z ->
  substring2 a b s = substring (Z.to_nat a) (Z.to_nat b - Z.to_nat a) s.
Proof.
  intros L0 L1 L2. unfold substring2, clamp, js_substring.
  replace (Nat.min (Z.to_nat a) (String.length s)) with (Z.to_nat a) by lia.
  replace (Nat.min (Z.to_nat b) (String.length s)) with (Z.to_nat b) by lia.
  rewrite Nat.min_l, Nat.max_r by lia. reflexivity.
Qed.

Lemma chained_weaken (l : list GroundingSupport) (from from' : Z) :
  (from' <= from)%Z -> chained from l = true -> chained from' l = true.
Proof.
  destruct l as [|s l]; simpl; intros L C; [reflexivity|].
  apply andb_true_iff in C. destruct C as [C C3].
  apply andb_true_iff in C. destruct C as [C1 C2].
  rewrite C2, C3. apply Z.leb_le in C1.
  replace (from' <=? startIndex (segment s))%Z with true; [reflexivity|].
  symmetry. apply Z.leb_le. lia.
Qed.

Lemma chained_sorted (l : list GroundingSupport) (from : Z) :
  chained from l = true -> sortByStart l = l.
Proof.
  revert from. induction l as [|s l IH]; intros from C; [reflexivity|].
  simpl in C.
  apply andb_true_iff in C. destruct C as [C C3].
  apply andb_true_iff in C. destruct C as [C1 C2].
  unfold sortByStart. simpl. fold (sortByStart l). rewrite (IH _ C3).
  destruct l as [|y l]; [reflexivity|]. simpl.
  simpl in C3.
  apply andb_true_iff in C3. destruct C3 as [C3 _].
  apply andb_true_iff in C3. destruct C3 as [C3 _].
  apply Z.leb_le in C2, C3.
  replace (startIndex (segment s) <=? startIndex (segment y))%Z with true; [reflexivity|].
  symmetry. apply Z.leb_le. lia.
Qed.

Lemma chained_filter (p : GroundingSupport -> bool) (l : list GroundingSupport) (from : Z) :
  chained from l = true -> chained from (filter p l) = true.
Proof.
  revert from. induction l as [|s l IH]; intros from C; [reflexivity|].
  simpl in C.
  apply andb_true_iff in C. destruct C as [C C3].
  apply andb_true_iff in C. destruct C as [C1 C2].
  simpl. destruct (p s).
  - simpl. rewrite C1, C2. simpl. exact (IH _ C3).
  - apply (chained_weaken _ (endIndex (segment s))); [|exact (IH _ C3)].
    apply Z.leb_le in C1, C2. lia.
Qed.

(** The loop over a chain inside the summary shows the summary from
    [lastIndex] to the end of the last support, once. *)
Lemma spansFrom_chain (summary : string) (l : list GroundingSupport) :
  forall (i : nat) (elements : list Element) (lastIndex : Z),
    (0 <= lastIndex)%Z -> (lastIndex <= Z.of_nat (String.length summary))%Z ->
    chained lastIndex l = true ->
    forallb (withinSummary summary) l = true ->
    shownText (Spans elements) = Some (substring 0 (Z.to_nat lastIndex) summary) ->
    exists elements' lastIndex',
      spansFrom summary l i (elements, lastIndex) = (elements', lastIndex') /\
      (0 <= lastIndex')%Z /\ (lastIndex' <= Z.of_nat (String.length summary))%Z /\
      shownText (Spans elements') = Some (substring 0 (Z.to_nat lastIndex') summary).
Proof.
  induction l as [|s l IH]; intros i elements lastIndex L0 L1 C W T.
  - exists elements, lastIndex. simpl. auto.
  - simpl in C.
    apply andb_true_iff in C. destruct C as [C C3].
    apply andb_true_iff in C. destruct C as [C1 C2].
    simpl in W. apply andb_true_iff in W. destruct W as [W1 W].
    unfold withinSummary in W1. apply Z.leb_le in C1, C2, W1.
    cbn [spansFrom]. unfold spanStep.
    apply IH; [lia | lia | exact C3 | exact W |].
    simpl in T. injection T as T.
    simpl. f_equal. rewrite shown_app. simpl. rewrite append_empty.
    rewrite (substring2_ordered summary (startIndex (segment s)) (endIndex (segment s)))
      by lia.
    destruct (lastIndex <? startIndex (segment s))%Z eqn:B.
    + rewrite shown_app. simpl. rewrite append_empty, T.
      rewrite (substring2_ordered summary lastIndex (startIndex (segment s))) by lia.
      rewrite (substring_glue summary) by lia.
      apply substring_glue; lia.
    + apply Z.ltb_ge in B. assert (lastIndex = startIndex (segment s)) by lia. subst lastIndex.
      rewrite T. apply substring_glue; lia.
Qed.

Lemma filter_all {A : Type} (p : A -> bool) (l : list A) :
  forallb p (filter p l) = true.
Proof.
  induction l as [|x l IH]; simpl; [reflexivity|].
  destruct (p x) eqn:P; simpl; [rewrite P|]; exact IH.
Qed.

Lemma filter_filter {A : Type} (p : A -> bool) (l : list A) :
  filter p (filter p l) = filter p l.
Proof.
  induction l as [|x l IH]; simpl; [reflexivity|].
  destruct (p x) eqn:P; simpl; [rewrite P, IH|]; auto.
Qed.

Lemma insertByStart_Forall (P : GroundingSupport -> Prop) (x : GroundingSupport)
    (l : list GroundingSupport) :
  P x -> Forall P l -> Forall P (insertByStart x l).
Proof.
  intros Px. induction 1 as [|y l Py Pl IH]; simpl.
  - constructor; [exact Px | constructor].
  - destruct (startIndex (segment x) <=? startIndex (segment y))%Z.
    + constructor; [exact Px|]. constructor; assumption.
    + constructor; assumption.
Qed.

Lemma sortByStart_sorted (l : list GroundingSupport) :
  StronglySorted startsBefore (sortByStart l).
Proof.
  induction l as [|x l IH]; [constructor|].
  unfold sortByStart. simpl. fold (sortByStart l).
  induction IH as [|y l' S' IH' F]; simpl.
  - constructor; constructor.
  - destruct (startIndex (segment x) <=? startIndex (segment y))%Z eqn:B.
    + apply Z.leb_le in B. constructor.
      * constructor; assumption.
      * constructor; [exact B|].
        eapply Forall_impl; [|exact F]. unfold startsBefore. intros z Hz. lia.
    + apply Z.leb_gt in B. constructor; [exact IH'|].
      apply insertByStart_Forall; [unfold startsBefore; lia | exact F].
Qed.

Lemma Forall_filter {A : Type} (P : A -> Prop) (p : A -> bool) (l : list A) :
  Forall P l -> Forall P (filter p l).
Proof.
  induction 1 as [|x l Px Pl IH]; simpl; [constructor|].
  destruct (p x); [constructor|]; assumption.
Qed.

Lemma insertByStart_least (x : GroundingSupport) (l : list GroundingSupport) :
  Forall (startsBefore x) l -> insertByStart x l = x :: l.
Proof.
  destruct 1 as [|y l B _]; simpl; [reflexivity|].
  apply Z.leb_le in B. rewrite B. reflexivity.
Qed.

(** Inserting into a sorted list and filtering commute. *)
Lemma filter_insertByStart (p : GroundingSupport -> bool) (x : GroundingSupport)
    (l : list GroundingSupport) :
  StronglySorted startsBefore l ->
  filter p (insertByStart x l) =
  if p x then insertByStart x (filter p l) else filter p l.
Proof.
  induction 1 as [|y l S IH F].
  - simpl. destruct (p x); reflexivity.
  - cbn [insertByStart].
    destruct (startIndex (segment x) <=? startIndex (segment y))%Z eqn:B.
    + cbn [filter]. destruct (p x); [|reflexivity].
      symmetry. apply insertByStart_least.
      apply Z.leb_le in B.
      assert (Fx : Forall (startsBefore x) (y :: l)).
      { constructor; [exact B|].
        eapply Forall_impl; [|exact F]. unfold startsBefore. intros z Hz. lia. }
      exact (Forall_filter _ p _ Fx).
    + cbn [filter]. rewrite IH.
      destruct (p y), (p x); try reflexivity.
      cbn [insertByStart]. rewrite B. reflexivity.
Qed.

Lemma filter_sortByStart (p : GroundingSupport -> bool) (l : list GroundingSupport) :
  filter p (sortByStart l) = sortByStart (filter p l).
Proof.
  induction l as [|x l IH]; [reflexivity|].
  unfold sortByStart. simpl. fold (sortByStart l).
  rewrite (filter_insertByStart p x _ (sortByStart_sorted l)), IH.
  destruct (p x); reflexivity.
Qed.

(** X16. When the supports follow one another without overlap, the spans
    of the rendered summary, read in order, are the summary itself: no
    character is lost or shown twice, also when some supports end beyond
    the summary and are left out. *)
Theorem chained_supports_show_the_summary (summary : string)
    (supports : list GroundingSupport) :
  summary <> "" ->
  chained 0 supports = true ->
  shownText (renderSummary (Some summary) (Some supports)) = Some summary.
Proof.
  intros N C. destruct summary as [|c rest] eqn:Es; [congruence|].
  rewrite <- Es in *. unfold renderSummary. rewrite Es at 1.
  destruct supports as [|s0 l0] eqn:El; [reflexivity|]. rewrite <- El in *.
  rewrite (chained_sorted _ _ C).
  pose proof (chained_filter (withinSummary summary) _ _ C) as Cv.
  pose proof (filter_all (withinSummary summary) supports) as Wv.
  destruct (filter (withinSummary summary) supports) as [|v valid] eqn:Ev; [reflexivity|].
  cbv iota.
  destruct (spansFrom_chain summary (v :: valid) 0 [] 0%Z) as (els & last & R & L0 & L1 & T);
    [lia | lia | exact Cv | exact Wv | |].
  { rewrite Es. reflexivity. }
  rewrite R. simpl in T. injection T as T.
  destruct (last <? Z.of_nat (String.length summary))%Z eqn:B; simpl; f_equal.
  - rewrite shown_app. simpl. rewrite append_empty, T.
    unfold substring1, clamp, js_substring.
    replace (Nat.min (Z.to_nat last) (String.length summary)) with (Z.to_nat last) by lia.
    rewrite (substring_glue summary) by lia.
    apply substring_whole.
  - apply Z.ltb_ge in B. rewrite T.
    replace (Z.to_nat last) with (String.length summary) by lia.
    apply substring_whole.
Qed.

(** X17. A support that ends beyond the summary plays no part in the
    rendering: the panel shows the same elements, with the same keys, as
    for the supports that end inside the summary. *)
Theorem supports_beyond_the_summary_are_ignored (summary : string)
    (supports : list GroundingSupport) :
  renderSummary (Some summary) (Some supports) =
  renderSummary (Some summary) (Some (filter (withinSummary summary) supports)).
Proof.
  unfold renderSummary. destruct summary as [|c rest] eqn:Es; [reflexivity|].
  rewrite <- Es.
  destruct supports as [|s0 l0]; [reflexivity|].
  cbv iota. remember (s0 :: l0) as supports eqn:El.
  destruct (filter (withinSummary summary) supports) as [|v valid] eqn:Ev; cbv iota.
  - rewrite filter_sortByStart, Ev. reflexivity.
  - rewrite <- Ev.
    rewrite (filter_sortByStart _ (filter (withinSummary summary) supports)).
    rewrite filter_filter, <- filter_sortByStart. reflexivity.
Qed.

End SourcePanelFacts.

(** * The further properties on concrete inputs *)

(** X1 on four chunks: a uri with a slash, [null], the same uri with a
    title, another uri. *)
Lemma index_map_is_positional_witness :
  let sm := [("http://example.com", testSource "Better Title" "http://example.com");
             ("http://other.org", testSource "Unknown Source" "http://other.org")] in
  let im := [(0, "http://example.com"); (2, "http://example.com");
             (3, "http://other.org")] in
  extractSources (VArr fourChunks) = Ok (sm, im) /\
  Map_get Nat.eqb 1 im = None /\
  Map_get Nat.eqb 2 im = Some "http://example.com".
Proof.
  intros sm im.
  assert (E : extractSources (VArr fourChunks) = Ok (sm, im)) by (vm_compute; reflexivity).
  split; [exact E|].
  split; [exact (index_map_is_positional fourChunks sm im E 1)
         | exact (index_map_is_positional fourChunks sm im E 2)].
Defined.

(** X2 on the four chunks and three supports: index 7 is out of range,
    index 1 names the [null] chunk. *)
Lemma citation_count_of_each_source_witness :
  let first := {| title := VStr "Better Title"; uri := "http://example.com";
                  citationCount := 2 |} in
  let r := {| graphData := emptyGraph;
              sources := [first;
                          {| title := VStr "Unknown Source"; uri := "http://other.org";
                             citationCount := 2 |}];
              searchQueries := ["q1"];
              summary := "Summary.";
              groundingSupports := threeSupports |} in
  processGeminiOutput ("Summary. " ++ validJson)%string (VArr fourChunks) (VArr threeSupports) ["q1"]
    = Ok r /\
  In first (sources r) /\
  citationCount first = chunkCitations fourChunks (normalizeUri (uri first)) threeSupports.
Proof.
  intros first r.
  assert (E : processGeminiOutput ("Summary. " ++ validJson)%string (VArr fourChunks)
                (VArr threeSupports) ["q1"] = Ok r) by (vm_compute; reflexivity).
  assert (I : In first (sources r)) by (left; reflexivity).
  split; [exact E|]. split; [exact I|].
  exact (citation_count_of_each_source _ _ _ _ _ E first I).
Defined.

(** X3 on the same input. *)
Lemma supports_and_queries_pass_through_witness :
  let text := ("Summary. " ++ validJson)%string in
  let r := {| graphData := emptyGraph;
              sources := [{| title := VStr "Better Title"; uri := "http://example.com";
                             citationCount := 2 |};
                          {| title := VStr "Unknown Source"; uri := "http://other.org";
                             citationCount := 2 |}];
              searchQueries := ["q1"];
              summary := "Summary.";
              groundingSupports := threeSupports |} in
  processGeminiOutput text (VArr fourChunks) (VArr threeSupports) ["q1"] = Ok r /\
  groundingSupports r = threeSupports /\
  searchQueries r = ["q1"] /\
  summary r = fst (isolatePayload text).
Proof.
  intros text r.
  assert (E : processGeminiOutput text (VArr fourChunks) (VArr threeSupports) ["q1"] = Ok r)
    by (vm_compute; reflexivity).
  split; [exact E|].
  exact (supports_and_queries_pass_through text (VArr fourChunks) (VArr threeSupports)
           ["q1"] r E).
Defined.

(** X7 on a graph with a repeated edge, an edge to a missing node and an
    edge between nodes whose id is a number. *)
Lemma kept_edges_in_order_with_their_properties_witness :
  let rawNodes := [nodeA; nodeSeven; nodeADuplicate; VNull] in
  let rawEdges := [connectedEdge; selfEdgeOne; selfEdgeSeven; selfEdgeOne] in
  let g := {| nodes := [nodeADuplicate; nodeSeven]; edges := [selfEdgeOne; selfEdgeOne] |} in
  sanitizeGraph rawNodes rawEdges = Ok g /\
  Forall2
    (fun e o =>
       exists sid tid,
         edgeEndpoints e = Ok (sid, tid) /\
         o = rewriteEdge e sid tid /\
         prop_of o "source" = VStr sid /\
         prop_of o "target" = VStr tid /\
         forall fs k, e = VObj fs -> k <> "source" -> k <> "target" ->
                      prop_of o k = prop_of e k)
    (filter (edgePasses (rawIds (nodes g))) rawEdges)
    (edges g).
Proof.
  intros rawNodes rawEdges g.
  assert (E : sanitizeGraph rawNodes rawEdges = Ok g) by (vm_compute; reflexivity).
  split; [exact E|].
  exact (kept_edges_in_order_with_their_properties rawNodes rawEdges g E).
Defined.

(** X8 on the same graph. *)
Lemma sanitizing_twice_changes_nothing_witness :
  let rawNodes := [nodeA; nodeSeven; nodeADuplicate; VNull] in
  let rawEdges := [connectedEdge; selfEdgeOne; selfEdgeSeven; selfEdgeOne] in
  let g := {| nodes := [nodeADuplicate; nodeSeven]; edges := [selfEdgeOne; selfEdgeOne] |} in
  sanitizeGraph rawNodes rawEdges = Ok g /\
  sanitizeGraph (nodes g) (edges g) = Ok g.
Proof.
  intros rawNodes rawEdges g.
  assert (E : sanitizeGraph rawNodes rawEdges = Ok g) by (vm_compute; reflexivity).
  split; [exact E|].
  exact (sanitizing_twice_changes_nothing rawNodes rawEdges g E).
Defined.

(** X9 on an untagged fence with padded payload. *)
Lemma fence_match_shape_witness :
  let text := ("Intro" ++ newline ++ "```" ++ newline ++ "  {a}  " ++ newline ++ "```"
                 ++ " tail")%string in
  String_match (fence "```") text = Some (6, "{a}") /\
  exists before w1 w2 rest,
    text = (before ++ "```" ++ w1 ++ "{a}" ++ w2 ++ "```" ++ rest)%string /\
    String.length before = 6 /\
    all_space w1 = true /\ all_space w2 = true /\
    includes "```" "{a}" = false /\
    trim "{a}" = "{a}".
Proof.
  intros text.
  assert (E : String_match (fence "```") text = Some (6, "{a}")) by (vm_compute; reflexivity).
  split; [exact E|].
  exact (fence_match_shape "```" text "{a}" 6 E).
Defined.

(** X12 on prose with an object and no fence. *)
Lemma unfenced_text_splits_at_first_brace_witness :
  let text := "The graph: {x} done" in
  includes "```" text = false /\
  isolatePayload text = ("The graph:", "{x} done").
Proof.
  intros text.
  assert (I : includes "```" text = false) by (vm_compute; reflexivity).
  split; [exact I|].
  exact (unfenced_text_splits_at_first_brace text I).
Defined.

(** X13 on the one-node graph written into a sentence. *)
Lemma unfenced_object_is_recovered_witness :
  let pre := "Here is the graph: " in
  let post := " Hope this helps!" in
  includes "```" (pre ++ "{" ++ oneNodeInner ++ "}" ++ post)%string = false /\
  indexOf "{" pre = None /\
  indexOf "}" post = None /\
  JSON_parse ("{" ++ oneNodeInner ++ "}")%string =
    Some (VObj [("nodes", VArr [nodeA]); ("edges", VArr [])]) /\
  processGeminiOutput (pre ++ "{" ++ oneNodeInner ++ "}" ++ post)%string
    (VArr []) (VArr []) [] =
  Ok {| graphData := {| nodes := [nodeA]; edges := [] |};
        sources := [];
        searchQueries := [];
        summary := "Here is the graph:";
        groundingSupports := [] |}.
Proof.
  intros pre post.
  assert (I : includes "```" (pre ++ "{" ++ oneNodeInner ++ "}" ++ post)%string = false)
    by (vm_compute; reflexivity).
  assert (Npre : indexOf "{" pre = None) by (vm_compute; reflexivity).
  assert (Npost : indexOf "}" post = None) by (vm_compute; reflexivity).
  assert (Hp : JSON_parse ("{" ++ oneNodeInner ++ "}")%string =
               Some (VObj [("nodes", VArr [nodeA]); ("edges", VArr [])]))
    by (vm_compute; reflexivity).
  split; [exact I|]. split; [exact Npre|]. split; [exact Npost|]. split; [exact Hp|].
  rewrite (unfenced_object_is_recovered pre oneNodeInner post (VArr []) (VArr []) []
             [] [] [] [] _ [nodeA] [] I Npre Npost eq_refl eq_refl Hp eq_refl eq_refl).
  vm_compute; reflexivity.
Defined.

(** X14 on the one-node graph in a fence without language tag. *)
Lemma untagged_fence_is_recovered_witness :
  let pre := "Here is the `graph` data you requested:" in
  let post := "Hope this helps!" in
  let text := (pre ++ newline ++ "```" ++ newline
                 ++ (("  " ++ newline) ++ "{" ++ oneNodeInner ++ "}" ++ "")
                 ++ newline ++ "```" ++ newline ++ post)%string in
  includes "```json" text = false /\
  includes "```" pre = false /\
  includes "```" oneNodeInner = false /\
  JSON_parse ("{" ++ oneNodeInner ++ "}")%string =
    Some (VObj [("nodes", VArr [nodeA]); ("edges", VArr [])]) /\
  processGeminiOutput text (VArr []) (VArr []) [] =
  Ok {| graphData := {| nodes := [nodeA]; edges := [] |};
        sources := [];
        searchQueries := [];
        summary := pre;
        groundingSupports := [] |}.
Proof.
  intros pre post text.
  assert (Itag : includes "```json" text = false) by (vm_compute; reflexivity).
  assert (Ipre : includes "```" pre = false) by (vm_compute; reflexivity).
  assert (Imid : includes "```" oneNodeInner = false) by (vm_compute; reflexivity).
  assert (Hp : JSON_parse ("{" ++ oneNodeInner ++ "}")%string =
               Some (VObj [("nodes", VArr [nodeA]); ("edges", VArr [])]))
    by (vm_compute; reflexivity).
  split; [exact Itag|]. split; [exact Ipre|]. split; [exact Imid|]. split; [exact Hp|].
  unfold text.
  rewrite (untagged_fence_is_recovered pre post ("  " ++ newline)%string oneNodeInner ""
             (VArr []) (VArr []) [] [] [] [] [] _ [nodeA] []
             Itag Ipre Imid eq_refl eq_refl eq_refl eq_refl Hp eq_refl eq_refl).
  vm_compute; reflexivity.
Defined.

(** X15 on the malformed text of the repository's test, without chunks. *)
Lemma parse_failure_is_the_only_Error_witness :
  JSON_parse (narrowCandidate (snd (isolatePayload invalidJson))) = (None : option (Value Z)) /\
  processGeminiOutput invalidJson (VArr []) (VArr []) [] =
  Throw (Error "Failed to parse knowledge graph data from AI response.").
Proof.
  assert (Hp : JSON_parse (narrowCandidate (snd (isolatePayload invalidJson))) =
               (None : option (Value Z))) by (vm_compute; reflexivity).
  split; [exact Hp|].
  apply (proj2 (proj1 (parse_failure_is_the_only_Error invalidJson [] [] []) _)).
  split; [reflexivity|]. split; [reflexivity|]. split; [reflexivity|].
  split; [exact Hp | reflexivity].
Defined.

(** X16 on three supports in text order, the last one ending beyond the
    summary. *)
Lemma chained_supports_show_the_summary_witness :
  let summary := "Graphs link facts." in
  let supports := [panelSupport 0 6 [0%Z]; panelSupport 7 11 [1%Z; 0%Z];
                   panelSupport 11 40 [2%Z]] in
  summary <> "" /\
  SourcePanel.chained 0 supports = true /\
  SourcePanel.renderSummary (Some summary) (Some supports) =
  SourcePanel.Spans
    [SourcePanel.SegmentSpan 0 "Graphs" [SourcePanel.citationOf 0];
     SourcePanel.TextSpan 1 " ";
     SourcePanel.SegmentSpan 1 "link" [SourcePanel.citationOf 1; SourcePanel.citationOf 0];
     SourcePanel.TextEnd " facts."] /\
  SourcePanel.shownText (SourcePanel.renderSummary (Some summary) (Some supports)) =
  Some summary.
Proof.
  intros summary supports.
  assert (N : summary <> "") by discriminate.
  assert (C : SourcePanel.chained 0 supports = true) by (vm_compute; reflexivity).
  split; [exact N|]. split; [exact C|]. split; [vm_compute; reflexivity|].
  exact (chained_supports_show_the_summary summary supports N C).
Defined.
